(** * Button-machine optimizer (Advent of Code 2025, day 10)

    A shallow embedding of [day10.py] and [day10_chatgpt.py]:
    - [solve_gf2]: exhaustive enumeration of the [2^m] press subsets;
    - [parse_line_part1] / [gf2_solve_minweight]: elimination over the
      two-element field followed by null-space enumeration;
    - [solve_joltage] and [parse_line_part2] / [solve_machine_minpresses]:
      the counter model, which delegates to external LP / ILP solvers;
    - [parse_machine], [parse_joltage] and the functions that run the
      solvers over a text or over the lines of a file.

    Python integers are [Z]; the bit operations [^] and [&] are [Z.lxor] and
    [Z.land]; Python lists and numpy arrays are lists, updated in place with
    stdpp's list insert after an explicit bounds check.  The entries of the
    numpy [int] arrays are bits or small counts, far from the 64-bit range,
    so no wrap-around is modelled.  A call that raises an exception returns
    [None].

    A machine is taken as the regular expressions of the parsers deliver
    it: the lights as a list of bits, the counters as a list of integers,
    every button as the list of its indices (natural numbers, in the order
    and with the repetitions of the line).  The solvers are modelled on
    machines; the parsers and the aggregating functions are modelled on
    text as well (the names that end in [_text] and [_lines]). *)

From Stdlib Require Import ZArith List Lia QArith Qround Lqa Ascii.
From stdpp Require Import base option list strings.

Local Open Scope Z_scope.

(** ** Python numbers and fallible calls *)

(** A Python number as the solvers return it: an [int], or the float
    [float('inf')] used as "no solution" sentinel. *)
Inductive num : Type :=
  | Int (z : Z)
  | Inf.

#[global] Instance num_eq_dec : EqDecision num.
Proof. solve_decision. Defined.

(** [a + b] on Python numbers: [inf] absorbs. *)
Definition num_add (a b : num) : num :=
  match a, b with
  | Int x, Int y => Int (x + y)
  | _, _ => Inf
  end.

(** [a < b]. *)
Definition num_ltb (a b : num) : bool :=
  match a, b with
  | Int x, Int y => x <? y
  | Int _, Inf => true
  | Inf, _ => false
  end.

(** [min(a, b)]: Python returns [b] only when [b < a]. *)
Definition num_min (a b : num) : num := if num_ltb b a then b else a.

(** [range(n)] *)
Definition range (n : nat) : list nat := seq 0 n.

(** Reads [l[i]] and [M[i, j]]; every read below is guarded, the default
    value is never observed on a well-shaped input. *)
Definition get (l : list Z) (i : nat) : Z := nth i l 0.
Definition ent (M : list (list Z)) (i j : nat) : Z := get (nth i M []) j.

(** [sum(l)] / [l.sum()] *)
Definition zsum (l : list Z) : Z := foldr Z.add 0 l.

(** Elementwise [a ^ b] on numpy arrays of one shape. *)
Definition xor_vec (a b : list Z) : list Z := zip_with Z.lxor a b.

(** ** day10.py, binary model: [solve_gf2] *)

(** [state[light] ^= 1]; an index past the end raises [IndexError]. *)
Definition toggle (state : list Z) (light : nat) : option (list Z) :=
  if decide (light < length state)%nat
  then Some (<[light := Z.lxor (get state light) 1]> state)
  else None.

(** [for light in button: state[light] ^= 1] *)
Fixpoint press (state : list Z) (button : list nat) : option (list Z) :=
  match button with
  | [] => Some state
  | light :: rest => state' ← toggle state light; press state' rest
  end.

(** The body of the [for mask] loop: the inner loop over [button_idx],
    started at [button_idx] with the buttons from that index on. *)
Fixpoint run_mask (mask : Z) (buttons : list (list nat)) (button_idx : nat)
    (state : list Z) (presses : Z) : option (list Z * Z) :=
  match buttons with
  | [] => Some (state, presses)
  | button :: rest =>
      let lefted_button := Z.shiftl 1 (Z.of_nat button_idx) in
      if Z.land mask lefted_button =? 0
      then run_mask mask rest (S button_idx) state presses
      else state' ← press state button;
           run_mask mask rest (S button_idx) state' (presses + 1)
  end.

(** The [for mask in range(lefted_buttons)] loop. *)
Fixpoint scan_masks (masks : list nat) (target : list Z)
    (buttons : list (list nat)) (min_presses : num) : option num :=
  match masks with
  | [] => Some min_presses
  | mask :: rest =>
      '(state, presses) ← run_mask (Z.of_nat mask) buttons 0
                             (replicate (length target) 0) 0;
      scan_masks rest target buttons
        (if decide (state = target)
         then num_min min_presses (Int presses) else min_presses)
  end.

Definition solve_gf2 (target : list Z) (buttons : list (list nat)) : option num :=
  let n_buttons := length buttons in
  let lefted_buttons := Z.shiftl 1 (Z.of_nat n_buttons) in
  min_presses ← scan_masks (range (Z.to_nat lefted_buttons)) target buttons Inf;
  Some (if decide (min_presses = Inf) then Int 0 else min_presses).

(** [solve_part1], on the parsed lines. *)
Fixpoint solve_part1_from (machines : list (list Z * list (list nat)))
    (total : num) : option num :=
  match machines with
  | [] => Some total
  | (target, buttons) :: rest =>
      min_presses ← solve_gf2 target buttons;
      solve_part1_from rest (num_add total min_presses)
  end.

Definition solve_part1 (machines : list (list Z * list (list nat))) : option num :=
  solve_part1_from machines (Int 0).

(** ** day10_chatgpt.py, binary model *)

(** The matrix of [parse_line_part1]: one row per button,
    [row = [0]*n; for idx in btn: row[idx] ^= 1]. *)
Definition parse_line_part1 (target : list Z) (buttons : list (list nat))
    : option (list Z * list (list Z)) :=
  A ← mapM (press (replicate (length target) 0)) buttons;
  Some (target, A).

(** [m, n = A.shape] for [A = np.array(A, dtype=int)]: the empty list is a
    1-d array of shape [(0,)], whose unpacking raises; so does a ragged list. *)
Definition shape (A : list (list Z)) : option (nat * nat) :=
  match A with
  | [] => None
  | row :: _ =>
      if forallb (λ r, Nat.eqb (length r) (length row)) A
      then Some (length A, length row) else None
  end.

(** [np.concatenate([A.T, b.reshape(-1,1)], axis=1)]: row [i] holds column
    [i] of [A] followed by [b[i]]. *)
Definition augment (A : list (list Z)) (b : list Z) : list (list Z) :=
  imap (λ i bi, map (λ row, get row i) A ++ [bi]) b.

(** [for i in range(r, rows): if M[i, c] == 1: pivot = i; break] *)
Definition find_pivot (M : list (list Z)) (c r rows : nat) : option nat :=
  find (λ i, ent M i c =? 1) (seq r (rows - r)).

(** [M[[pivot, r]] = M[[r, pivot]]] *)
Definition swap_rows (M : list (list Z)) (pivot r : nat) : list (list Z) :=
  <[r := nth pivot M []]> (<[pivot := nth r M []]> M).

(** [for i in range(rows): if i != r and M[i, c] == 1: M[i] ^= M[r]] *)
Definition eliminate (M : list (list Z)) (r c rows : nat) : list (list Z) :=
  foldl (λ M i,
           if negb (Nat.eqb i r) && (ent M i c =? 1)
           then <[i := xor_vec (nth i M []) (nth r M [])]> M
           else M)
        M (range rows).

(** The state of the elimination loop; [es_break] records that [break] was
    taken. *)
Record elim_state := ElimState {
  es_M : list (list Z);
  es_pivot_cols : list Z;
  es_r : nat;
  es_break : bool
}.

(** One iteration of [for c in range(m)]. *)
Definition elim_step (rows : nat) (s : elim_state) (c : nat) : elim_state :=
  if es_break s then s else
  match find_pivot (es_M s) c (es_r s) rows with
  | None => s
  | Some pivot =>
      let M1 := if decide (pivot = es_r s) then es_M s
                else swap_rows (es_M s) pivot (es_r s) in
      let pivot_cols := <[es_r s := Z.of_nat c]> (es_pivot_cols s) in
      let M2 := eliminate M1 (es_r s) c rows in
      let r' := S (es_r s) in
      ElimState M2 pivot_cols r' (Nat.eqb r' rows)
  end.

Definition elim_loop (M : list (list Z)) (m rows : nat) : elim_state :=
  foldl (elim_step rows) (ElimState M (replicate rows (-1)) 0%nat false) (range m).

(** [for i in range(rows): if pivot_cols[i] == -1 and M[i, -1] == 1] *)
Definition inconsistent (M : list (list Z)) (pivot_cols : list Z) (m rows : nat) : bool :=
  existsb (λ i, (get pivot_cols i =? -1) && (ent M i m =? 1)) (range rows).

(** [free = [c for c in range(m) if c not in pivots]] *)
Definition free_cols (pivot_cols : list Z) (m : nat) : list nat :=
  filter (λ c, Z.of_nat c ∉ filter (λ pc, pc ≠ -1) pivot_cols) (range m).

(** [xp]: [for i in range(rows): pc = pivot_cols[i]; if pc != -1: xp[pc] = M[i, -1]] *)
Definition particular (M : list (list Z)) (pivot_cols : list Z) (m rows : nat) : list Z :=
  foldl (λ xp i,
           let pc := get pivot_cols i in
           if pc =? -1 then xp else <[Z.to_nat pc := ent M i m]> xp)
        (replicate m 0) (range rows).

(** The null-space vector of the free column [fc]. *)
Definition nullvec (M : list (list Z)) (pivot_cols : list Z) (m rows fc : nat) : list Z :=
  foldl (λ v i,
           let pc := get pivot_cols i in
           if negb (pc =? -1) && (ent M i fc =? 1)
           then <[Z.to_nat pc := Z.lxor (get v (Z.to_nat pc)) 1]> v
           else v)
        (<[fc := 1]> (replicate m 0)) (range rows).

(** [itertools.product([0,1], repeat=k)] *)
Fixpoint product01 (k : nat) : list (list Z) :=
  match k with
  | O => [[]]
  | S k' => map (cons 0) (product01 k') ++ map (cons 1) (product01 k')
  end.

(** [x = xp.copy(); for bit, v in zip(mask, nullvecs): if bit: x ^= v] *)
Definition combine (xp : list Z) (mask : list Z) (nullvecs : list (list Z)) : list Z :=
  foldl (λ x bv, if fst bv =? 0 then x else xor_vec x (snd bv)) xp (zip mask nullvecs).

(** The final loop: [wt = x.sum(); if wt < best: best = wt]. *)
Definition best_weight (xp : list Z) (nullvecs : list (list Z)) (k : nat) : num :=
  foldl (λ best mask,
           let wt := Int (zsum (combine xp mask nullvecs)) in
           if num_ltb wt best then wt else best)
        Inf (product01 k).

Definition gf2_solve_minweight (target : list Z) (A : list (list Z)) : option num :=
  '(m, n) ← shape A;
  if negb (Nat.eqb (length target) n) then None else
  let M := augment A target in
  let rows := length M in
  let s := elim_loop M m rows in
  if inconsistent (es_M s) (es_pivot_cols s) m rows then Some Inf else
  let free := free_cols (es_pivot_cols s) m in
  let xp := particular (es_M s) (es_pivot_cols s) m rows in
  let nullvecs := map (nullvec (es_M s) (es_pivot_cols s) m rows) free in
  Some (best_weight xp nullvecs (length free)).

(** [compute_total_part1], on the parsed lines (blank lines are skipped by
    the caller). *)
Fixpoint compute_total_part1_from (machines : list (list Z * list (list nat)))
    (total : num) : option num :=
  match machines with
  | [] => Some total
  | (target, buttons) :: rest =>
      '(t, A) ← parse_line_part1 target buttons;
      w ← gf2_solve_minweight t A;
      compute_total_part1_from rest (num_add total w)
  end.

Definition compute_total_part1 (machines : list (list Z * list (list nat))) : option num :=
  compute_total_part1_from machines (Int 0).

(** ** External solvers

    [scipy.optimize.linprog], [scipy.optimize.milp] and PuLP's CBC are not
    code of this repository: they are parameters of the solvers below.  The
    objective is always [sum(x)] and the bounds are always [x >= 0], so a
    query is the constraint matrix and its right-hand side.  A solver
    answers [Some x] when it reports success ([result.success], status
    ["Optimal"]) and [None] otherwise.

    [linprog] and [milp] answer with arrays of floats, [result.x]: a float
    is the rational number it stands for, so that an answer of [milp] need
    not be a vector of integers, and what [solve_joltage] does with the
    floats ([np.round], [np.ceil], [np.floor], [np.sum], [int]) is written
    out below.  Before it solves anything [linprog] checks its arguments and
    raises [ValueError] on an objective without entries; that check is
    written out in [call_linprog], and the parameter stands for the solver
    proper.  The integer variables of PuLP are read as the integers CBC
    writes for them. *)

Definition lp_solver : Type := list (list Z) → list Z → option (list Q).
Definition ilp_solver : Type := list (list Z) → list Z → option (list Q).
(** PuLP receives the number of variables and the list of constraints
    [(coefficients, right-hand side)]. *)
Definition cbc_solver : Type := nat → list (list Z * Z) → option (list Z).

(** The call [linprog(c, A_eq=A, b_eq=b, bounds=bounds)] with [c =
    np.ones(n_buttons)]: for a machine without buttons the objective has no
    entry and the call raises. *)
Definition call_linprog (linprog : lp_solver) (n_buttons : nat)
    (A : list (list Z)) (b_eq : list Z) : option (option (list Q)) :=
  if Nat.eqb n_buttons 0 then None else Some (linprog A b_eq).

(** ** day10.py, counter model: [solve_joltage] *)

(** [A[i][j] = 1] on an [n_counters x n_buttons] numpy array; a row index
    past the end raises [IndexError]. *)
Definition set_one (A : list (list Z)) (i j : nat) : option (list (list Z)) :=
  if decide (i < length A)%nat
  then Some (<[i := <[j := 1]> (nth i A [])]> A)
  else None.

(** [for i in button: A[i][j] = 1] *)
Fixpoint mark_button (A : list (list Z)) (j : nat) (button : list nat)
    : option (list (list Z)) :=
  match button with
  | [] => Some A
  | i :: rest => A' ← set_one A i j; mark_button A' j rest
  end.

(** [for j, button in enumerate(buttons): ...], from index [j] on. *)
Fixpoint mark_buttons (A : list (list Z)) (j : nat) (buttons : list (list nat))
    : option (list (list Z)) :=
  match buttons with
  | [] => Some A
  | button :: rest => A' ← mark_button A j button; mark_buttons A' (S j) rest
  end.

(** The coefficient matrix of [solve_joltage] (lines 66-71). *)
Definition joltage_matrix (n_counters : nat) (buttons : list (list nat))
    : option (list (list Z)) :=
  mark_buttons (replicate n_counters (replicate (length buttons) 0)) 0 buttons.

(** [np.round]: to the nearest integer, halves to the even one. *)
Definition Qround_even (q : Q) : Z :=
  let f := Qfloor q in
  match Qcompare (q - inject_Z f) (1 # 2) with
  | Lt => f
  | Gt => f + 1
  | Eq => if Z.even f then f else f + 1
  end.

(** [sum(a[j] * x[j])] and [A @ x] *)
Definition dotZ (a x : list Z) : Z := zsum (zip_with Z.mul a x).
Definition matvec (A : list (list Z)) (x : list Z) : list Z := map (λ row, dotZ row x) A.

(** [np.all(A @ x == b_eq) and np.all(x >= 0)] *)
Definition accepts (A : list (list Z)) (x b_eq : list Z) : bool :=
  bool_decide (matvec A x = b_eq) && forallb (λ v, 0 <=? v) x.

(** [np.sum(x)] on an array of floats. *)
Definition qsum (l : list Q) : Q := foldr Qplus 0%Q l.

(** [int(v)] on a float: the fractional part is cut off. *)
Definition Qtruncate (q : Q) : Z :=
  if Qlt_le_dec q 0 then Qceiling q else Qfloor q.

(** The integer arrays hold 64-bit integers; the model computes in [Z],
    which is the same as long as the targets and the answers of the
    solvers stay far from the 64-bit range. *)
Definition solve_joltage (linprog : lp_solver) (milp : ilp_solver)
    (target : list Z) (buttons : list (list nat)) : option num :=
  let n_counters := length target in
  let n_buttons := length buttons in
  A ← joltage_matrix n_counters buttons;
  result ← call_linprog linprog n_buttons A target;
  match result with
  | None => Some Inf
  | Some x_lp =>
      (* [A @ x] raises on a vector of another length *)
      if negb (Nat.eqb (length x_lp) n_buttons) then None else
      let x_rounded := map Qround_even x_lp in
      if accepts A x_rounded target then Some (Int (zsum x_rounded)) else
      let x_ceil := map Qceiling x_lp in
      if accepts A x_ceil target then Some (Int (zsum x_ceil)) else
      let x_floor := map Qfloor x_lp in
      if accepts A x_floor target then Some (Int (zsum x_floor)) else
      match milp A target with
      | Some x => Some (Int (Qtruncate (qsum x)))    (* [int(np.sum(result_ilp.x))] *)
      | None => Some Inf
      end
  end.

(** [solve_part2], on the parsed lines. *)
Fixpoint solve_part2_from (linprog : lp_solver) (milp : ilp_solver)
    (machines : list (list Z * list (list nat))) (total : num) : option num :=
  match machines with
  | [] => Some total
  | (target, buttons) :: rest =>
      min_presses ← solve_joltage linprog milp target buttons;
      solve_part2_from linprog milp rest (num_add total min_presses)
  end.

Definition solve_part2 (linprog : lp_solver) (milp : ilp_solver)
    (machines : list (list Z * list (list nat))) : option num :=
  solve_part2_from linprog milp machines (Int 0).

(** ** day10_chatgpt.py, counter model *)

(** [row[idx] += 1] *)
Definition bump (row : list Z) (idx : nat) : option (list Z) :=
  if decide (idx < length row)%nat
  then Some (<[idx := get row idx + 1]> row)
  else None.

(** [row = [0]*k; for idx in btn: row[idx] += 1] *)
Fixpoint count_row (row : list Z) (btn : list nat) : option (list Z) :=
  match btn with
  | [] => Some row
  | idx :: rest => row' ← bump row idx; count_row row' rest
  end.

Definition parse_line_part2 (target : list Z) (buttons : list (list nat))
    : option (list Z * list (list Z)) :=
  A ← mapM (count_row (replicate (length target) 0)) buttons;
  Some (target, A).

(** The constraint of counter [j]:
    [lpSum(x[i] * A[i][j] for i in range(m)) == target[j]]. *)
Definition constraint (target : list Z) (A : list (list Z)) (j : nat)
    : option (list Z * Z) :=
  coeffs ← mapM (λ row : list Z, row !! j) A;
  t ← target !! j;
  Some (coeffs, t).

(** The constraints the model is given: one per column of [A[0]]. *)
Definition minpresses_constraints (target : list Z) (A : list (list Z))
    : option (list (list Z * Z)) :=
  match A with
  | [] => None                        (* [len(A[0])] raises IndexError *)
  | row0 :: _ => mapM (constraint target A) (range (length row0))
  end.

Definition solve_machine_minpresses (cbc : cbc_solver)
    (target : list Z) (A : list (list Z)) : option num :=
  constraints ← minpresses_constraints target A;
  match cbc (length A) constraints with
  | Some x => Some (Int (zsum x))
  | None => None                      (* [raise ValueError] *)
  end.

(** [compute_total_part2], on the parsed lines; the example test of the
    file is the same sum over the example lines. *)
Fixpoint compute_total_part2_from (cbc : cbc_solver)
    (machines : list (list Z * list (list nat))) (total : num) : option num :=
  match machines with
  | [] => Some total
  | (target, buttons) :: rest =>
      '(t, A) ← parse_line_part2 target buttons;
      w ← solve_machine_minpresses cbc t A;
      compute_total_part2_from cbc rest (num_add total w)
  end.

Definition compute_total_part2 (cbc : cbc_solver)
    (machines : list (list Z * list (list nat))) : option num :=
  compute_total_part2_from cbc machines (Int 0).

(** ** The text of the input: [str], [re], [int]

    A [str] is the list of its characters, and a character is a code point
    below 256 ([ascii]); on these the class [\d] of [day10_chatgpt.py] is
    the class [0-9] of [day10.py]. *)

Definition str : Type := list ascii.

(** [ord(c)] *)
Definition code (c : ascii) : Z := Z.of_N (N_of_ascii c).

(** The classes [[.#]], [[0-9]] and [[0-9,]]. *)
Definition is_light (c : ascii) : bool :=
  Ascii.eqb c "."%char || Ascii.eqb c "#"%char.
Definition is_digit (c : ascii) : bool := (48 <=? code c) && (code c <=? 57).
Definition is_index (c : ascii) : bool := is_digit c || Ascii.eqb c ","%char.

(** [str.isspace] on one character. *)
Definition is_space (c : ascii) : bool :=
  (9 <=? code c) && (code c <=? 13) || (28 <=? code c) && (code c <=? 32)
  || (code c =? 133) || (code c =? 160).

(** [s.lstrip()], [s.rstrip()], [s.strip()] *)
Fixpoint lstrip (s : str) : str :=
  match s with
  | c :: rest => if is_space c then lstrip rest else s
  | [] => []
  end.
Definition rstrip (s : str) : str := reverse (lstrip (reverse s)).
Definition strip (s : str) : str := rstrip (lstrip s).

(** [s.split(sep)] for a separator of one character. *)
Fixpoint split_on (sep : ascii) (s : str) : list str :=
  match s with
  | [] => [[]]
  | c :: rest =>
      if Ascii.eqb c sep then [] :: split_on sep rest
      else match split_on sep rest with
           | piece :: pieces => (c :: piece) :: pieces
           | [] => [[c]]
           end
  end.

(** [sys.int_max_str_digits], as CPython sets it by default. *)
Definition int_max_str_digits : nat := 4300.

(** The value of a string of decimal digits. *)
Definition digits_value (x : str) : Z :=
  foldl (λ acc c, 10 * acc + (code c - 48)) 0 x.

(** [int(x)] on a string of the class [0-9], the empty one included; no
    other string reaches [int], the pieces being cut out of a match of
    [[0-9,]+].  The empty string and a string of more than
    [int_max_str_digits] digits raise [ValueError]. *)
Definition int (x : str) : option Z :=
  if forallb is_digit x && negb (bool_decide (x = []))
     && bool_decide (length x <= int_max_str_digits)%nat
  then Some (digits_value x) else None.

(** The patterns of the parsers all have the form [o(c+)e]: an opening
    character, a group of one or more characters of a class that holds
    neither [o] nor [e], a closing character.  A match that starts at the
    head of [s] takes the longest run of class characters (giving some of
    them back cannot help, the next character being of the class and so not
    [e]); [match_here] returns its group 1 and the text behind the match. *)
Fixpoint run (cls : ascii → bool) (s : str) : str * str :=
  match s with
  | c :: rest =>
      if cls c then let '(g, tail) := run cls rest in (c :: g, tail)
      else ([], s)
  | [] => ([], [])
  end.

Definition match_here (o e : ascii) (cls : ascii → bool) (s : str)
    : option (str * str) :=
  match s with
  | c :: rest =>
      if Ascii.eqb c o then
        match run cls rest with
        | ((_ :: _) as g, c' :: tail) =>
            if Ascii.eqb c' e then Some (g, tail) else None
        | _ => None
        end
      else None
  | [] => None
  end.

(** [re.search(pattern, s)]: the match at the first position that has
    one; its group 1. *)
Fixpoint re_search (o e : ascii) (cls : ascii → bool) (s : str) : option str :=
  match s with
  | [] => None
  | _ :: rest =>
      match match_here o e cls s with
      | Some (g, _) => Some g
      | None => re_search o e cls rest
      end
  end.

(** [re.finditer(pattern, s)] and [re.findall(pattern, s)]: the matches
    from left to right, each search starting where the previous match
    ended; their groups 1.  [skip] counts the characters of the last match
    that are still to be passed. *)
Fixpoint re_findall (o e : ascii) (cls : ascii → bool) (skip : nat) (s : str)
    : list str :=
  match s with
  | [] => []
  | _ :: rest =>
      match skip with
      | S k => re_findall o e cls k rest
      | O =>
          match match_here o e cls s with
          | Some (g, _) => g :: re_findall o e cls (S (length g)) rest
          | None => re_findall o e cls 0 rest
          end
      end
  end.

(** [[int(x) for x in group.split(',')]]; an index is never negative and
    is kept as a natural number, as the solvers take it. *)
Definition ints (group : str) : option (list Z) := mapM int (split_on "," group).
Definition indices (group : str) : option (list nat) :=
  fmap (M := list) Z.to_nat <$> ints group.

(** [1 if c == '#' else 0] *)
Definition light_bit (c : ascii) : Z := if Ascii.eqb c "#"%char then 1 else 0.

(** *** day10.py *)

(** A line without lights makes [lights_match.group] raise. *)
Definition parse_machine (line : str) : option (list Z * list (list nat)) :=
  lights ← re_search "[" "]" is_light line;
  let target := map light_bit lights in
  buttons ← mapM indices (re_findall "(" ")" is_index 0 line);
  Some (target, buttons).

Definition parse_joltage (line : str) : option (list Z) :=
  joltage ← re_search "{" "}" is_index line;
  ints joltage.

(** The loops of [solve_part1] and [solve_part2] over the lines. *)
Fixpoint solve_part1_lines (lines : list str) (total : num) : option num :=
  match lines with
  | [] => Some total
  | line :: rest =>
      '(target, buttons) ← parse_machine line;
      min_presses ← solve_gf2 target buttons;
      solve_part1_lines rest (num_add total min_presses)
  end.

Fixpoint solve_part2_lines (linprog : lp_solver) (milp : ilp_solver)
    (lines : list str) (total : num) : option num :=
  match lines with
  | [] => Some total
  | line :: rest =>
      '(_, buttons) ← parse_machine line;
      target ← parse_joltage line;
      min_presses ← solve_joltage linprog milp target buttons;
      solve_part2_lines linprog milp rest (num_add total min_presses)
  end.

(** [solve_part1(data)] and [solve_part2(data)], with
    [lines = data.strip().split('\n')]. *)
Definition solve_part1_text (data : str) : option num :=
  solve_part1_lines (split_on "010" (strip data)) (Int 0).

Definition solve_part2_text (linprog : lp_solver) (milp : ilp_solver)
    (data : str) : option num :=
  solve_part2_lines linprog milp (split_on "010" (strip data)) (Int 0).

(** *** day10_chatgpt.py *)

(** [parse_line_part1(line)] and [parse_line_part2(line)]: the groups are
    read off the line, then the rows are built as above. *)
Definition parse_line_part1_text (line : str) : option (list Z * list (list Z)) :=
  diag ← re_search "[" "]" is_light line;
  let target := map light_bit diag in
  buttons ← mapM indices (re_findall "(" ")" is_index 0 line);
  parse_line_part1 target buttons.

Definition parse_line_part2_text (line : str) : option (list Z * list (list Z)) :=
  req ← re_search "{" "}" is_index line;
  target ← ints req;
  buttons ← mapM indices (re_findall "(" ")" is_index 0 line);
  parse_line_part2 target buttons.

(** [compute_total_part1(filename)] and [compute_total_part2(filename)],
    given the lines the iteration over the file yields. *)
Fixpoint compute_total_part1_lines (lines : list str) (total : num) : option num :=
  match lines with
  | [] => Some total
  | line :: rest =>
      let line := strip line in
      if bool_decide (line = []) then compute_total_part1_lines rest total else
      '(target, A) ← parse_line_part1_text line;
      w ← gf2_solve_minweight target A;
      compute_total_part1_lines rest (num_add total w)
  end.

Fixpoint compute_total_part2_lines (cbc : cbc_solver) (lines : list str)
    (total : num) : option num :=
  match lines with
  | [] => Some total
  | line :: rest =>
      let line := strip line in
      if bool_decide (line = []) then compute_total_part2_lines cbc rest total else
      '(target, A) ← parse_line_part2_text line;
      w ← solve_machine_minpresses cbc target A;
      compute_total_part2_lines cbc rest (num_add total w)
  end.

Definition compute_total_part1_text (lines : list str) : option num :=
  compute_total_part1_lines lines (Int 0).

Definition compute_total_part2_text (cbc : cbc_solver) (lines : list str)
    : option num :=
  compute_total_part2_lines cbc lines (Int 0).

(** ** The example of both files, as parsed

<<
[.##.] (3) (1,3) (2) (2,3) (0,2) (0,1) {3,5,4,7}
[...#.] (0,2,3,4) (2,3) (0,4) (0,1,2) (1,2,3,4) {7,5,12,7,2}
[.###.#] (0,1,2,3,4) (0,3,4) (0,1,2,4,5) (1,2) {10,11,11,5,10,5}
>> *)

Definition example_buttons : list (list (list nat)) :=
  [ [[3]; [1;3]; [2]; [2;3]; [0;2]; [0;1]];
    [[0;2;3;4]; [2;3]; [0;4]; [0;1;2]; [1;2;3;4]];
    [[0;1;2;3;4]; [0;3;4]; [0;1;2;4;5]; [1;2]] ]%nat.

(** [parse_machine] / [parse_line_part1]: the lights, [#] read as 1. *)
Definition example_bits : list (list Z * list (list nat)) :=
  zip [ [0;1;1;0]; [0;0;0;1;0]; [0;1;1;1;0;1] ] example_buttons.

(** [parse_joltage] / [parse_line_part2]: the counters. *)
Definition example_counts : list (list Z * list (list nat)) :=
  zip [ [3;5;4;7]; [7;5;12;7;2]; [10;11;11;5;10;5] ] example_buttons.

(** ** Specification vocabulary *)

Definition is_bit (z : Z) : Prop := z = 0 ∨ z = 1.

(** The MachineSpec invariant: every index a button lists is below [n]. *)
Definition wf_buttons (n : nat) (buttons : list (list nat)) : Prop :=
  Forall (Forall (λ i, (i < n)%nat)) buttons.

(** How often index [i] is hit when button [j] is pressed [x[j]] times: a
    button that lists an index twice hits it twice per press. *)
Definition hits (buttons : list (list nat)) (x : list Z) (i : nat) : Z :=
  zsum (zip_with (λ button xj, xj * Z.of_nat (count_occ Nat.eq_dec button i)) buttons x).

(** [x] solves the toggle system: one bit per button, and every light is
    hit with the parity of its target bit. *)
Definition toggle_solution (target : list Z) (buttons : list (list nat))
    (x : list Z) : Prop :=
  length x = length buttons ∧ Forall is_bit x ∧
  ∀ i, (i < length target)%nat → hits buttons x i mod 2 = get target i.

(** [x] solves the increment system: a non-negative press count per button,
    and every counter is hit exactly its target number of times. *)
Definition counter_solution (target : list Z) (buttons : list (list nat))
    (x : list Z) : Prop :=
  length x = length buttons ∧ Forall (λ v, 0 <= v) x ∧
  ∀ i, (i < length target)%nat → hits buttons x i = get target i.

(** [R] is the least sum of a vector satisfying [P], and is attained. *)
Definition least_sum (P : list Z → Prop) (R : Z) : Prop :=
  (∃ x, P x ∧ zsum x = R) ∧ ∀ x, P x → R <= zsum x.

(** *** Contracts of the external solvers *)

(** The integer program [min sum(x)] subject to the constraints, [x >= 0]. *)
Definition ilp_feasible (m : nat) (constraints : list (list Z * Z)) (x : list Z) : Prop :=
  length x = m ∧ Forall (λ v, 0 <= v) x ∧
  Forall (λ c, dotZ (fst c) x = snd c) constraints.

(** An integer solver meets its contract on a query when it answers an
    optimum if there is one and reports failure exactly when the program is
    infeasible. *)
Definition ilp_contract (m : nat) (constraints : list (list Z * Z))
    (answer : option (list Z)) : Prop :=
  match answer with
  | Some x => ilp_feasible m constraints x ∧
              ∀ y, ilp_feasible m constraints y → zsum x <= zsum y
  | None => ∀ y, ¬ ilp_feasible m constraints y
  end.

(** The same for the relaxation over the rationals. *)
Definition dotQ (a : list Z) (x : list Q) : Q :=
  qsum (zip_with (λ c v, inject_Z c * v)%Q a x).

Definition lp_feasible (m : nat) (constraints : list (list Z * Z)) (x : list Q) : Prop :=
  length x = m ∧ Forall (λ v, (0 <= v)%Q) x ∧
  Forall (λ c, (dotQ (fst c) x == inject_Z (snd c))%Q) constraints.

Definition lp_contract (m : nat) (constraints : list (list Z * Z))
    (answer : option (list Q)) : Prop :=
  match answer with
  | Some x => lp_feasible m constraints x ∧
              ∀ y, lp_feasible m constraints y → (qsum x <= qsum y)%Q
  | None => ∀ y, ¬ lp_feasible m constraints y
  end.

(** *** Auxiliary notions used in the proofs *)

(** The sum of a list over the two-element field. *)
Definition xsum (l : list Z) : Z := foldr Z.lxor 0 l.

(** The left-hand side of an equation of the augmented matrix: the dot
    product over the two-element field of the coefficients of [row] with
    [x] (the last entry of [row], the right-hand side, has no partner). *)
Definition xdot (row x : list Z) : Z := xsum (zip_with Z.land row x).

(** [x] satisfies every equation of the augmented matrix [M] over [m]
    unknowns. *)
Definition sat (m : nat) (M : list (list Z)) (x : list Z) : Prop :=
  ∀ i, (i < length M)%nat → xdot (nth i M []) x = ent M i m.

(** A [rows x cols] matrix of bits. *)
Definition bit_matrix (rows cols : nat) (M : list (list Z)) : Prop :=
  length M = rows ∧
  ∀ i, (i < rows)%nat → length (nth i M []) = cols ∧ Forall is_bit (nth i M []).

(** The invariant of the elimination loop before column [c] is visited.
    The ghost list [cs] holds the pivot columns of the rows [0 .. r-1], in
    row order; [M0] is the matrix the loop started from. *)
Record elim_inv (m rows : nat) (M0 : list (list Z)) (c : nat)
    (s : elim_state) (cs : list nat) : Prop := ElimInv {
  inv_bits : bit_matrix rows (S m) (es_M s);
  inv_sat : ∀ x, sat m (es_M s) x ↔ sat m M0 x;
  inv_rank : length cs = es_r s;
  inv_rank_le : (es_r s <= rows)%nat;
  inv_pivot_cols :
    es_pivot_cols s = map Z.of_nat cs ++ replicate (rows - es_r s) (-1);
  inv_seen : Forall (λ j, (j < c)%nat) cs;
  inv_nodup : NoDup cs;
  inv_unit : ∀ i j, cs !! i = Some j → ∀ i', (i' < rows)%nat →
               ent (es_M s) i' j = if decide (i' = i) then 1 else 0;
  inv_zero : ∀ i j, (es_r s <= i < rows)%nat → (j < c)%nat →
               ent (es_M s) i j = 0;
  inv_break : es_break s = true → es_r s = rows
}.

(** [x] solves the system [A^T x = target] over the two-element field. *)
Definition system_solution (A : list (list Z)) (target x : list Z) : Prop :=
  length x = length A ∧ Forall is_bit x ∧ sat (length A) (augment A target) x.

(** The rows [parse_line_part1] builds. *)
Definition parity_rows (n : nat) (buttons : list (list nat)) (A : list (list Z)) : Prop :=
  Forall2 (λ button row,
             length row = n ∧
             ∀ i, get row i = Z.of_nat (count_occ Nat.eq_dec button i) mod 2)
          buttons A.

(** The press vector a mask of [solve_gf2] stands for: bit [idx + j] of the
    mask says whether button [j] of the remaining buttons is pressed. *)
Definition mask_bits (mask : Z) (idx len : nat) : list Z :=
  map (λ j, Z.b2z (Z.testbit mask (Z.of_nat j))) (seq idx len).

(** The mask of a press vector. *)
Definition mask_of (x : list Z) : Z := foldr (λ b acc, b + 2 * acc) 0 x.

(** An integer vector read as a rational one. *)
Definition injZ (y : list Z) : list Q := map inject_Z y.

(** A step small enough to stay non-negative when moving away from a
    rounded candidate: at most 1 and at most every positive entry of [x]. *)
Definition step_of (x : list Q) : Q :=
  foldr (λ q acc, if Qlt_le_dec 0 q
                  then (if Qlt_le_dec q acc then q else acc) else acc) 1%Q x.

(** The point [x - e (y - x)], on the far side of [x] from [y]. *)
Definition nudge (e : Q) (x : list Q) (y : list Z) : list Q :=
  zip_with (λ q z, q - e * (inject_Z z - q))%Q x y.

(** What rounding to nearest, up and down have in common: an integer stays
    where it is (in particular 0 stays 0), and no entry moves by more than 1. *)
Definition rounds (rnd : Q → Z) : Prop :=
  ∀ q, ((q == 0)%Q → rnd q = 0) ∧ (-1 <= inject_Z (rnd q) - q <= 1)%Q.

(** Row [i] of the matrix of [solve_joltage]: 1 where the button lists
    [i], however often. *)
Definition marks (buttons : list (list nat)) (i : nat) : list Z :=
  map (λ button : list nat, if bool_decide (i ∈ button) then 1 else 0) buttons.

(** The external solvers meet their contracts on the queries a machine
    gives rise to. *)
Definition linprog_meets_contract (linprog : lp_solver)
    (target : list Z) (buttons : list (list nat)) : Prop :=
  ∀ A, joltage_matrix (length target) buttons = Some A →
       lp_contract (length buttons) (zip A target) (linprog A target).

(** [milp] answers exactly: its floats are the integers of an optimum of
    the integer program, or it reports failure on an infeasible program. *)
Definition milp_contract (m : nat) (constraints : list (list Z * Z))
    (result : option (list Q)) : Prop :=
  ∃ answer : option (list Z),
    result = injZ <$> answer ∧ ilp_contract m constraints answer.

Definition milp_meets_contract (milp : ilp_solver)
    (target : list Z) (buttons : list (list nat)) : Prop :=
  ∀ A, joltage_matrix (length target) buttons = Some A →
       milp_contract (length buttons) (zip A target) (milp A target).

(** The floats [x] are within [eps] of the integers [y]. *)
Definition within (eps : Q) (x : list Q) (y : list Z) : Prop :=
  Forall2 (λ q z, (inject_Z z - eps <= q <= inject_Z z + eps)%Q) x y.

Definition cbc_meets_contract (cbc : cbc_solver)
    (target : list Z) (buttons : list (list nat)) : Prop :=
  ∀ A constraints,
    parse_line_part2 target buttons = Some (target, A) →
    minpresses_constraints target A = Some constraints →
    ilp_contract (length A) constraints (cbc (length A) constraints).

(** The integer program [solve_joltage] hands to its solvers. *)
Definition joltage_program (target : list Z) (buttons : list (list nat))
    (x : list Z) : Prop :=
  ∃ A, joltage_matrix (length target) buttons = Some A ∧
       ilp_feasible (length buttons) (zip A target) x.

(** The Counter Solver of the spec with stage 2 (the rounding candidates)
    left out, as the spec allows a from-scratch implementation to do: the
    relaxation, then the exact integer program. *)
Definition solve_joltage_without_rounding (linprog : lp_solver) (milp : ilp_solver)
    (target : list Z) (buttons : list (list nat)) : option num :=
  A ← joltage_matrix (length target) buttons;
  result ← call_linprog linprog (length buttons) A target;
  match result with
  | None => Some Inf
  | Some _ =>
      match milp A target with
      | Some x => Some (Int (Qtruncate (qsum x)))
      | None => Some Inf
      end
  end.



(** The rows [parse_line_part2] builds. *)
Definition count_rows (n : nat) (buttons : list (list nat)) (A : list (list Z)) : Prop :=
  Forall2 (λ button row,
             length row = n ∧
             ∀ i, get row i = Z.of_nat (count_occ Nat.eq_dec button i))
          buttons A.

(** No button lists an index twice. *)
Definition distinct_indices (buttons : list (list nat)) : Prop :=
  Forall NoDup buttons.

(** The Hamming weight: the number of ones. *)
Definition ones (x : list Z) : Z := Z.of_nat (count_occ Z.eq_dec x 1).

(** [R] is the least Hamming weight of a vector satisfying [P], and is
    attained. *)
Definition least_ones (P : list Z → Prop) (R : Z) : Prop :=
  (∃ x, P x ∧ ones x = R) ∧ ∀ x, P x → R <= ones x.

(** The two ways the program of a machine can have no solution. *)
Definition relaxation_infeasible (target : list Z) (buttons : list (list nat)) : Prop :=
  ∀ A y, joltage_matrix (length target) buttons = Some A →
         ¬ lp_feasible (length buttons) (zip A target) y.

Definition program_infeasible (target : list Z) (buttons : list (list nat)) : Prop :=
  ∀ x, ¬ joltage_program target buttons x.

(** Answers of the external solvers on the three example programs (told
    apart by the number of counters, or of buttons): an optimum each. *)
Definition example_optimum (b : list Z) : option (list Z) :=
  match length b with
  | 4%nat => Some [1;2;0;4;0;3]
  | 5%nat => Some [2;5;0;5;0]
  | _ => Some [5;0;5;1]
  end.

Definition example_milp : ilp_solver := λ _ b, injZ <$> example_optimum b.

Definition example_linprog : lp_solver := λ _ b, injZ <$> example_optimum b.

Definition example_cbc : cbc_solver :=
  λ m _, match m with
         | 6%nat => Some [1;2;0;4;0;3]
         | 5%nat => Some [2;5;0;5;0]
         | _ => Some [5;0;5;1]
         end.

(** The loop [for line in lines: total += f(line)] the four aggregating
    functions share; an exception of [f] ends it. *)
Fixpoint total_loop {M : Type} (f : M → option num) (machines : list M)
    (total : num) : option num :=
  match machines with
  | [] => Some total
  | mc :: rest => v ← f mc; total_loop f rest (num_add total v)
  end.

(** The two steps [compute_total_part1] takes on a line. *)
Definition elimination_pipeline (mc : list Z * list (list nat)) : option num :=
  '(t, A) ← parse_line_part1 mc.1 mc.2; gf2_solve_minweight t A.

(** The two steps [compute_total_part2] takes on a line. *)
Definition minpresses_pipeline (cbc : cbc_solver) (mc : list Z * list (list nat))
    : option num :=
  '(t, A) ← parse_line_part2 mc.1 mc.2; solve_machine_minpresses cbc t A.

(** *** The format of a line

    The lines of the puzzle input, written out from a machine:
    [[.##.] (3) (1,3) {3,5}] has the lights, one group per button and the
    counters, each preceded by one blank. *)

(** The decimal digits of [n >= 0], the most significant first. *)
Fixpoint dec_fuel (fuel : nat) (n : Z) (acc : str) : str :=
  match fuel with
  | O => acc
  | S fuel' =>
      let acc' := ascii_of_N (Z.to_N (48 + n mod 10)) :: acc in
      if n <? 10 then acc' else dec_fuel fuel' (n / 10) acc'
  end.

Definition dec (n : Z) : str := dec_fuel (S (Z.to_nat (Z.log2 n))) n [].

(** [sep.join(pieces)] *)
Fixpoint join (sep : str) (pieces : list str) : str :=
  match pieces with
  | [] => []
  | piece :: rest =>
      match rest with
      | [] => piece
      | _ :: _ => piece ++ sep ++ join sep rest
      end
  end.

Definition render_lights (bits : list Z) : str :=
  map (λ b, if b =? 1 then "#"%char else "."%char) bits.

Definition render_group (o e : ascii) (values : list Z) : str :=
  o :: join [","%char] (map dec values) ++ [e].

(** A machine as a line holds it: lights, buttons, counters. *)
Record machine := Machine {
  m_lights : list Z;
  m_buttons : list (list nat);
  m_joltage : list Z
}.

(** The text of the buttons of a line. *)
Definition buttons_text (buttons : list (list nat)) : str :=
  concat (map (λ button, " "%char :: render_group "(" ")" (map Z.of_nat button))
              buttons).

Definition render_line (mc : machine) : str :=
  "["%char :: render_lights (m_lights mc) ++ ["]"%char]
  ++ buttons_text (m_buttons mc)
  ++ " "%char :: render_group "{" "}" (m_joltage mc).

(** A number [int] reads back: not negative, and not longer than the
    interpreter accepts. *)
Definition printable (n : Z) : Prop :=
  0 <= n ∧ (length (dec n) <= int_max_str_digits)%nat.

(** The machines a line of the input can hold: at least one light, every
    button with at least one index, at least one counter. *)
Definition writable_buttons (buttons : list (list nat)) : Prop :=
  Forall (λ button, button ≠ [] ∧ Forall (λ i, printable (Z.of_nat i)) button) buttons.

Definition writable (mc : machine) : Prop :=
  m_lights mc ≠ [] ∧ Forall is_bit (m_lights mc) ∧
  writable_buttons (m_buttons mc) ∧
  m_joltage mc ≠ [] ∧ Forall printable (m_joltage mc).

(** What the binary and the counter solvers are given of a machine. *)
Definition binary_view (mc : machine) : list Z * list (list nat) :=
  (m_lights mc, m_buttons mc).
Definition counter_view (mc : machine) : list Z * list (list nat) :=
  (m_joltage mc, m_buttons mc).

(** The text of several machines, one per line. *)
Definition render_data (machines : list machine) : str :=
  join ["010"%char] (map render_line machines).

(** Blank text: nothing but whitespace. *)
Definition blank (s : str) : Prop := Forall (λ c, is_space c = true) s.

(** A line of a file that holds a machine between whitespace (the line end
    included), or is blank. *)
Definition file_line (line : str) (content : option machine) : Prop :=
  match content with
  | Some mc => writable mc ∧
               ∃ before after, blank before ∧ blank after ∧
                               line = before ++ render_line mc ++ after
  | None => blank line
  end.

(** The machines of a file, in order. *)
Definition machines_of (contents : list (option machine)) : list machine :=
  omap id contents.

(** A group with a comma that separates nothing: at its start, at its
    end, or next to another comma. *)
Definition stray_comma (group : str) : Prop :=
  (∃ b, group = ","%char :: b) ∨ (∃ a, group = a ++ [","%char]) ∨
  (∃ a b, group = a ++ ","%char :: ","%char :: b).

(** * Proofs *)

(** ** Bits *)

Lemma is_bit_lxor a b : is_bit a → is_bit b → is_bit (Z.lxor a b).
Proof. intros [-> | ->] [-> | ->]; cbv; auto. Qed.

Lemma is_bit_land a b : is_bit a → is_bit b → is_bit (Z.land a b).
Proof. intros [-> | ->] [-> | ->]; cbv; auto. Qed.

Lemma is_bit_range a : is_bit a ↔ 0 <= a <= 1.
Proof. unfold is_bit. lia. Qed.

Lemma is_bit_not_1 a : is_bit a → a ≠ 1 → a = 0.
Proof. intros [-> | ->]; congruence. Qed.

Lemma lxor_cancel_r a b c : Z.lxor a c = Z.lxor b c → a = b.
Proof.
  intros H. apply (f_equal (λ z, Z.lxor z c)) in H.
  by rewrite !Z.lxor_assoc, Z.lxor_nilpotent, !Z.lxor_0_r in H.
Qed.

Lemma land_lxor_distr_l a b c :
  Z.land (Z.lxor a b) c = Z.lxor (Z.land a c) (Z.land b c).
Proof.
  apply Z.bits_inj'. intros k Hk.
  rewrite Z.land_spec, !Z.lxor_spec, !Z.land_spec.
  by destruct (Z.testbit a k), (Z.testbit b k), (Z.testbit c k).
Qed.

Lemma land_lxor_distr_r a b c :
  Z.land c (Z.lxor a b) = Z.lxor (Z.land c a) (Z.land c b).
Proof. rewrite !(Z.land_comm c). apply land_lxor_distr_l. Qed.

Lemma land_1_bit a : is_bit a → Z.land 1 a = a.
Proof. by intros [-> | ->]. Qed.

Lemma land_bit_1 a : is_bit a → Z.land a 1 = a.
Proof. by intros [-> | ->]. Qed.

(** ** Reads and writes *)

Lemma get_nil j : get [] j = 0.
Proof. unfold get. by destruct j. Qed.

Lemma get_ge l j : (length l <= j)%nat → get l j = 0.
Proof. intros. unfold get. by apply nth_overflow. Qed.

Lemma get_insert l i j v :
  get (<[i := v]> l) j = if decide (i = j ∧ (i < length l)%nat) then v else get l j.
Proof.
  unfold get. rewrite !nth_lookup. case_decide as H.
  - destruct H as [-> H]. by rewrite list_lookup_insert_eq.
  - destruct (decide (i = j)) as [-> | Hne].
    + rewrite list_insert_ge; [done | lia].
    + by rewrite list_lookup_insert_ne.
Qed.

Lemma nth_insert_row (M : list (list Z)) i j v :
  nth j (<[i := v]> M) [] = if decide (i = j ∧ (i < length M)%nat) then v else nth j M [].
Proof.
  rewrite !nth_lookup. case_decide as H.
  - destruct H as [-> H]. by rewrite list_lookup_insert_eq.
  - destruct (decide (i = j)) as [-> | Hne].
    + rewrite list_insert_ge; [done | lia].
    + by rewrite list_lookup_insert_ne.
Qed.

Lemma get_replicate n j : get (replicate n 0) j = 0.
Proof.
  unfold get. rewrite nth_lookup.
  destruct (replicate n 0 !! j) eqn:E; [| done].
  by apply lookup_replicate in E as [-> _].
Qed.

Lemma get_bit l j : Forall is_bit l → is_bit (get l j).
Proof.
  intros H. unfold get. destruct (nth_in_or_default j l 0) as [Hin | ->].
  - rewrite Forall_forall in H. by apply H, list_elem_of_In.
  - by left.
Qed.

Lemma length_xor_vec a b : length a = length b → length (xor_vec a b) = length a.
Proof. intros H. unfold xor_vec. rewrite length_zip_with. lia. Qed.

Lemma get_xor_vec a b j :
  length a = length b → get (xor_vec a b) j = Z.lxor (get a j) (get b j).
Proof.
  unfold xor_vec, get. revert b j.
  induction a as [| x a IH]; intros [| y b] j Hlen; simplify_eq/=.
  - by destruct j.
  - destruct j; [done |]. by apply IH.
Qed.

Lemma bits_xor_vec a b : Forall is_bit a → Forall is_bit b → Forall is_bit (xor_vec a b).
Proof.
  unfold xor_vec. intros Ha. revert b.
  induction Ha as [| x a Hx Ha IH]; intros b Hb; [constructor |].
  destruct Hb as [| y b Hy Hb]; [constructor |].
  simpl. constructor; [by apply is_bit_lxor | by apply IH].
Qed.

Lemma list_eq_get (a b : list Z) :
  length a = length b → (∀ j, (j < length a)%nat → get a j = get b j) → a = b.
Proof.
  revert b. induction a as [| x a IH]; intros [| y b] Hlen H; simplify_eq/=; [done |].
  f_equal.
  - apply (H 0%nat). lia.
  - apply IH; [done |]. intros j Hj. apply (H (S j)). lia.
Qed.

(** ** Sums over the two-element field *)

Lemma xsum_zero l : (∀ j, (j < length l)%nat → get l j = 0) → xsum l = 0.
Proof.
  induction l as [| a l IH]; intros H; [done |]. simpl.
  assert (a = 0) as -> by (apply (H 0%nat); simpl; lia).
  rewrite IH; [done |].
  intros j Hj. apply (H (S j)). simpl. lia.
Qed.

(** A sum with one possibly non-zero term. *)
Lemma xsum_single l j0 :
  (∀ j, (j < length l)%nat → j ≠ j0 → get l j = 0) → xsum l = get l j0.
Proof.
  revert j0. induction l as [| a l IH]; intros j0 H.
  - by rewrite get_nil.
  - simpl. destruct j0 as [| j0];
      change (get (a :: l) 0) with a; change (get (a :: l) (S ?j)) with (get l j).
    + rewrite xsum_zero; [by rewrite Z.lxor_0_r |].
      intros j Hj. apply (H (S j)); simpl; lia.
    + assert (a = 0) as -> by (apply (H 0%nat); simpl; lia).
      rewrite Z.lxor_0_l.
      apply IH. intros j Hj Hne. apply (H (S j)); simpl; lia.
Qed.

(** A sum with two possibly non-zero terms. *)
Lemma xsum_two l j0 j1 :
  j0 ≠ j1 →
  (∀ j, (j < length l)%nat → j ≠ j0 → j ≠ j1 → get l j = 0) →
  xsum l = Z.lxor (get l j0) (get l j1).
Proof.
  revert j0 j1. induction l as [| a l IH]; intros j0 j1 Hne H.
  - by rewrite !get_nil.
  - simpl. destruct j0 as [| j0], j1 as [| j1]; try done;
      change (get (a :: l) 0) with a; change (get (a :: l) (S ?j)) with (get l j).
    + f_equal. apply xsum_single. intros j Hj Hj1. apply (H (S j)); simpl; lia.
    + rewrite Z.lxor_comm. f_equal. apply xsum_single.
      intros j Hj Hj0. apply (H (S j)); simpl; lia.
    + assert (a = 0) as -> by (apply (H 0%nat); simpl; lia).
      rewrite Z.lxor_0_l.
      apply IH; [lia |]. intros j Hj Hj0 Hj1. apply (H (S j)); simpl; lia.
Qed.

Lemma get_zip_land row x j :
  get (zip_with Z.land row x) j = Z.land (get row j) (get x j).
Proof.
  unfold get. revert x j.
  induction row as [| a row IH]; intros [| b x] [| j]; simpl;
    rewrite ?Z.land_0_r; done.
Qed.

Lemma xdot_xor_row a b x :
  length a = length b → xdot (xor_vec a b) x = Z.lxor (xdot a x) (xdot b x).
Proof.
  unfold xdot, xor_vec. revert b x.
  induction a as [| u a IH]; intros [| v b] x Hlen; simplify_eq/=; [done |].
  destruct x as [| w x]; [done |]. simpl. rewrite IH by done.
  rewrite land_lxor_distr_l.
  rewrite !Z.lxor_assoc. f_equal.
  rewrite <- !Z.lxor_assoc. f_equal. apply Z.lxor_comm.
Qed.

Lemma xdot_xor_arg row x y :
  length x = length y → xdot row (xor_vec x y) = Z.lxor (xdot row x) (xdot row y).
Proof.
  unfold xdot, xor_vec. revert x y.
  induction row as [| u row IH]; intros [| v x] [| w y] Hlen; simplify_eq/=; try done.
  rewrite IH by done. rewrite land_lxor_distr_r.
  rewrite !Z.lxor_assoc. f_equal.
  rewrite <- !Z.lxor_assoc. f_equal. apply Z.lxor_comm.
Qed.

(** ** Row operations *)

Lemma length_swap_rows M p r : length (swap_rows M p r) = length M.
Proof. unfold swap_rows. by rewrite !length_insert. Qed.

Lemma nth_swap_rows M p r i :
  (p < length M)%nat → (r < length M)%nat →
  nth i (swap_rows M p r) [] =
    nth (if decide (i = r) then p else if decide (i = p) then r else i) M [].
Proof.
  intros Hp Hr. unfold swap_rows.
  rewrite !nth_insert_row, length_insert.
  repeat case_decide; subst; try done; exfalso; intuition lia.
Qed.

(** The state of [eliminate] after the rows below [k] were visited. *)
Lemma eliminate_upto M r c k i :
  length (eliminate M r c k) = length M ∧
  nth i (eliminate M r c k) [] =
    if (i <? k)%nat && negb (Nat.eqb i r) && (ent M i c =? 1)
    then xor_vec (nth i M []) (nth r M []) else nth i M [].
Proof.
  unfold eliminate, range.
  revert i. induction k as [| k IH]; intros i.
  - done.
  - rewrite seq_S, foldl_app. simpl.
    set (Mk := foldl _ M (seq 0 k)) in *.
    assert (Hrow : ∀ j, (k <= j)%nat ∨ j = r → nth j Mk [] = nth j M []).
    { intros j Hj. destruct (IH j) as [_ ->].
      destruct (Nat.ltb_spec j k), (Nat.eqb_spec j r); simpl; try done; lia. }
    destruct (IH i) as [Hlen Hi].
    assert (Hent : ent Mk k c = ent M k c).
    { unfold ent. by rewrite Hrow by lia. }
    rewrite Hent.
    destruct (Nat.eqb_spec k r) as [-> | Hkr]; simpl.
    + split; [done |]. rewrite Hi.
      destruct (Nat.ltb_spec i r), (Nat.ltb_spec i (S r)), (Nat.eqb_spec i r);
        simpl; try done; lia.
    + destruct (Z.eqb_spec (ent M k c) 1) as [He | He]; simpl.
      * rewrite length_insert. split; [done |].
        rewrite nth_insert_row, !Hrow by lia.
        case_decide as Hd.
        -- destruct Hd as [<- Hd].
           destruct (Nat.ltb_spec k (S k)); [| lia].
           destruct (Nat.eqb_spec k r); [done |]. simpl.
           by rewrite He, Z.eqb_refl.
        -- rewrite Hi. destruct (decide (i = k)) as [-> | Hik].
           ++ rewrite Hlen in Hd.
              assert (length M <= k)%nat by lia.
              unfold ent in He. rewrite nth_overflow in He by done.
              by rewrite get_nil in He.
           ++ destruct (Nat.ltb_spec i k), (Nat.ltb_spec i (S k)); simpl; try done; lia.
      * split; [done |]. rewrite Hi.
        destruct (Nat.ltb_spec i k), (Nat.ltb_spec i (S k)); simpl; try done; try lia.
        assert (i = k) as -> by lia.
        destruct (Z.eqb_spec (ent M k c) 1); [done |].
        by rewrite andb_false_r.
Qed.

Lemma length_eliminate M r c rows : length (eliminate M r c rows) = length M.
Proof. apply (eliminate_upto M r c rows 0%nat). Qed.

Lemma nth_eliminate M r c i :
  nth i (eliminate M r c (length M)) [] =
    if negb (Nat.eqb i r) && (ent M i c =? 1)
    then xor_vec (nth i M []) (nth r M []) else nth i M [].
Proof.
  destruct (eliminate_upto M r c (length M) i) as [_ ->].
  destruct (Nat.ltb_spec i (length M)); simpl; [done |].
  unfold ent. rewrite (nth_overflow M) by done. rewrite get_nil. simpl.
  by rewrite andb_false_r.
Qed.

(** Swapping two rows or adding one row to another keeps the matrix a
    matrix of bits and keeps its solutions. *)
Lemma bit_matrix_swap rows cols M p r :
  bit_matrix rows cols M → (p < rows)%nat → (r < rows)%nat →
  bit_matrix rows cols (swap_rows M p r).
Proof.
  intros [Hlen H] Hp Hr. split; [by rewrite length_swap_rows |].
  intros i Hi. rewrite nth_swap_rows by lia.
  repeat case_decide; by apply H.
Qed.

Lemma sat_swap m M p r x :
  (p < length M)%nat → (r < length M)%nat →
  sat m (swap_rows M p r) x ↔ sat m M x.
Proof.
  intros Hp Hr. unfold sat, ent. rewrite length_swap_rows. split; intros H i Hi.
  - specialize (H (if decide (i = r) then p else if decide (i = p) then r else i)).
    rewrite nth_swap_rows in H by done.
    repeat case_decide; subst; try apply H; try lia; done.
  - rewrite nth_swap_rows by done. apply H. repeat case_decide; lia.
Qed.

Lemma bit_matrix_eliminate rows cols M r c :
  bit_matrix rows cols M → (r < rows)%nat →
  bit_matrix rows cols (eliminate M r c rows).
Proof.
  intros [Hlen H] Hr. split; [by rewrite length_eliminate |].
  intros i Hi. rewrite <- Hlen, nth_eliminate.
  destruct (H i Hi) as [Hli Hbi], (H r Hr) as [Hlr Hbr].
  destruct (_ && _); [| done]. split.
  - rewrite length_xor_vec; congruence.
  - by apply bits_xor_vec.
Qed.

Lemma sat_eliminate rows cols m M r c x :
  bit_matrix rows cols M → (r < rows)%nat →
  sat m (eliminate M r c rows) x ↔ sat m M x.
Proof.
  intros [Hlen H] Hr. unfold sat, ent. rewrite length_eliminate. subst rows.
  assert (Hsame : ∀ i, (i < length M)%nat → length (nth i M []) = length (nth r M [])).
  { intros i Hi. destruct (H i Hi) as [-> _], (H r Hr) as [-> _]. done. }
  assert (Hr' : nth r (eliminate M r c (length M)) [] = nth r M []).
  { rewrite nth_eliminate. by rewrite Nat.eqb_refl. }
  split; intros Hs i Hi.
  - specialize (Hs i Hi) as Hsi. rewrite nth_eliminate in Hsi.
    destruct (_ && _); [| done].
    specialize (Hs r Hr). rewrite Hr' in Hs.
    rewrite xdot_xor_row, get_xor_vec, Hs in Hsi by auto.
    by apply lxor_cancel_r in Hsi.
  - rewrite nth_eliminate. destruct (_ && _); [| by apply Hs].
    rewrite xdot_xor_row, get_xor_vec by auto.
    by rewrite (Hs i Hi), (Hs r Hr).
Qed.

(** ** The elimination loop *)

Lemma ent_bit rows cols M i j : bit_matrix rows cols M → is_bit (ent M i j).
Proof.
  intros [Hlen H]. unfold ent. destruct (decide (i < rows)%nat) as [Hi | Hi].
  - apply get_bit, H, Hi.
  - rewrite nth_overflow by lia. rewrite get_nil. by left.
Qed.

Lemma ent_eliminate rows cols M r c i j :
  bit_matrix rows cols M → (r < rows)%nat → (i < rows)%nat →
  ent (eliminate M r c rows) i j =
    if negb (Nat.eqb i r) && (ent M i c =? 1)
    then Z.lxor (ent M i j) (ent M r j) else ent M i j.
Proof.
  intros [Hlen H] Hr Hi. unfold ent at 1. subst rows. rewrite nth_eliminate.
  destruct (_ && _); [| done].
  apply get_xor_vec. destruct (H i Hi) as [-> _], (H r Hr) as [-> _]. done.
Qed.

Lemma find_pivot_Some M c r rows p :
  find_pivot M c r rows = Some p → (r <= p < rows)%nat ∧ ent M p c = 1.
Proof.
  unfold find_pivot. intros H. apply find_some in H as [Hin Hp].
  apply in_seq in Hin. split; [lia | by apply Z.eqb_eq].
Qed.

Lemma find_pivot_None M c r rows i :
  find_pivot M c r rows = None → (r <= i < rows)%nat → ent M i c ≠ 1.
Proof.
  unfold find_pivot. intros H Hi.
  apply Z.eqb_neq, (find_none _ _ H). apply in_seq. lia.
Qed.

Lemma elim_inv_init m rows M0 :
  bit_matrix rows (S m) M0 →
  elim_inv m rows M0 0 (ElimState M0 (replicate rows (-1)) 0 false) [].
Proof.
  intros Hb. constructor; simpl; try done.
  - lia.
  - by rewrite Nat.sub_0_r.
  - constructor.
  - intros i j _ Hj. lia.
Qed.

Lemma elim_inv_step m rows M0 c s cs :
  elim_inv m rows M0 c s cs →
  ∃ cs', elim_inv m rows M0 (S c) (elim_step rows s c) cs'.
Proof.
  intros [Hb Hsat Hrank Hle Hpc Hseen Hnd Hunit Hzero Hbrk].
  unfold elim_step. destruct (es_break s) eqn:Ebrk.
  { (* [break] was taken: the later columns are not visited *)
    exists cs. constructor; try done.
    - eapply Forall_impl; [exact Hseen |]. simpl. lia.
    - intros i j Hi. specialize (Hbrk eq_refl). lia.
    - by rewrite Ebrk. }
  destruct (find_pivot (es_M s) c (es_r s) rows) as [p |] eqn:Efind.
  2: { (* no pivot in this column *)
    exists cs. constructor; try done.
    - eapply Forall_impl; [exact Hseen |]. simpl. lia.
    - intros i j Hi Hj. destruct (decide (j = c)) as [-> | Hne].
      + apply is_bit_not_1; [by eapply ent_bit |]. by eapply find_pivot_None.
      + apply Hzero; lia.
    - by rewrite Ebrk. }
  apply find_pivot_Some in Efind as [Hp Hp1].
  set (r := es_r s) in *. set (M := es_M s) in *.
  set (M1 := if decide (p = r) then M else swap_rows M p r).
  assert (Hlen : length M = rows) by apply Hb.
  assert (Hb1 : bit_matrix rows (S m) M1).
  { subst M1. case_decide; [done |]. apply bit_matrix_swap; [done | lia..]. }
  assert (Hsat1 : ∀ x, sat m M1 x ↔ sat m M0 x).
  { intros x. rewrite <- Hsat. subst M1. case_decide; [done |].
    apply sat_swap; lia. }
  assert (Hnth1 : ∀ i, nth i M1 [] =
            nth (if decide (i = r) then p else if decide (i = p) then r else i) M []).
  { intros i. subst M1. case_decide as Hpr.
    - repeat case_decide; congruence.
    - apply nth_swap_rows; lia. }
  assert (Hent1 : ∀ i j, ent M1 i j =
            ent M (if decide (i = r) then p else if decide (i = p) then r else i) j).
  { intros i j. unfold ent. by rewrite Hnth1. }
  assert (Hpiv : ent M1 r c = 1).
  { rewrite Hent1. by rewrite decide_True. }
  assert (Hcol : ∀ i, (i < rows)%nat →
            ent (eliminate M1 r c rows) i c = if decide (i = r) then 1 else 0).
  { intros i Hi. rewrite (ent_eliminate rows (S m)) by (done || lia).
    destruct (Nat.eqb_spec i r) as [-> | Hir]; simpl.
    - by rewrite decide_True.
    - rewrite decide_False by done.
      destruct (Z.eqb_spec (ent M1 i c) 1) as [He | He].
      + by rewrite He, Hpiv.
      + apply is_bit_not_1; [by eapply ent_bit | done]. }
  assert (Hold : ∀ i j, (i < rows)%nat → ent M1 r j = 0 →
            ent (eliminate M1 r c rows) i j = ent M1 i j).
  { intros i j Hi Hrj. rewrite (ent_eliminate rows (S m)) by (done || lia).
    destruct (_ && _); [| done]. by rewrite Hrj, Z.lxor_0_r. }
  exists (cs ++ [c]). constructor; simpl.
  - apply bit_matrix_eliminate; [done | lia].
  - intros x. rewrite <- Hsat1. apply (sat_eliminate rows (S m)); [done | lia].
  - rewrite length_app. simpl. lia.
  - lia.
  - rewrite Hpc, map_app. simpl.
    rewrite insert_app_r_alt by (rewrite length_map; lia).
    rewrite length_map, Hrank, Nat.sub_diag.
    replace (rows - r)%nat with (S (rows - S r)) by lia. simpl.
    by rewrite <- app_assoc.
  - apply Forall_app. split.
    + eapply Forall_impl; [exact Hseen |]. simpl. lia.
    + repeat constructor.
  - apply NoDup_app. split_and!; [done | | apply NoDup_singleton].
    intros j Hj Hjc. apply list_elem_of_singleton in Hjc as ->.
    rewrite Forall_forall in Hseen. specialize (Hseen _ Hj). simpl in Hseen. lia.
  - intros i j Hij i' Hi'.
    apply lookup_app_Some in Hij as [Hij | [Hge Hij]].
    + (* an earlier pivot column *)
      assert (Hi : (i < r)%nat) by (apply lookup_lt_Some in Hij; lia).
      rewrite Hold; [| done |].
      * rewrite Hent1. rewrite (Hunit i j Hij) by (repeat case_decide; lia).
        repeat case_decide; try done; lia.
      * rewrite Hent1, decide_True by done.
        rewrite (Hunit i j Hij) by lia. rewrite decide_False; [done | lia].
    + (* the new pivot column *)
      rewrite Hrank in Hge, Hij.
      apply list_lookup_singleton_Some in Hij as [Hi <-].
      rewrite Hcol by done. repeat case_decide; try done; lia.
  - intros i j Hi Hj. destruct (decide (j = c)) as [-> | Hne].
    + rewrite Hcol by lia. rewrite decide_False; [done | lia].
    + rewrite Hold; [| lia |].
      * rewrite Hent1. apply Hzero; [repeat case_decide; lia | lia].
      * rewrite Hent1, decide_True by done. apply Hzero; lia.
  - destruct rows as [| rows']; [done |]. intros H.
    apply Nat.eqb_eq in H. by f_equal.
Qed.

Lemma elim_inv_loop m rows M0 k :
  bit_matrix rows (S m) M0 →
  ∃ cs, elim_inv m rows M0 k
          (foldl (elim_step rows) (ElimState M0 (replicate rows (-1)) 0 false) (seq 0 k)) cs.
Proof.
  intros Hb. induction k as [| k [cs IH]].
  - exists []. by apply elim_inv_init.
  - rewrite seq_S, foldl_app. simpl. by eapply elim_inv_step.
Qed.

Lemma if_elem_of_cons (j fc : nat) (fs : list nat) (a : Z) :
  (if decide (j ∈ fc :: fs) then a else 0) =
  if decide (j = fc) then a else if decide (j ∈ fs) then a else 0.
Proof.
  repeat case_decide; try done; exfalso.
  - match goal with H : _ ∈ _ :: _ |- _ => apply elem_of_cons in H end. tauto.
  - match goal with H : ¬ _ ∈ _ :: _ |- _ => apply H end. subst. left.
  - match goal with H : ¬ _ ∈ _ :: _ |- _ => apply H end. by right.
Qed.

(** ** Reading the solutions off the reduced matrix *)

Section reduced.
(** The matrix [M] and the pivot columns [pivot_cols] the elimination loop
    ends with; [cs] lists the pivot columns of the rows [0 .. r-1]. *)
Variables (m rows : nat) (M : list (list Z)) (pivot_cols : list Z) (cs : list nat).
Hypothesis Hbits : bit_matrix rows (S m) M.
Hypothesis Hrank : (length cs <= rows)%nat.
Hypothesis Hpc : pivot_cols = map Z.of_nat cs ++ replicate (rows - length cs) (-1).
Hypothesis Hseen : Forall (λ j, (j < m)%nat) cs.
Hypothesis Hnd : NoDup cs.
Hypothesis Hunit : ∀ i j, cs !! i = Some j → ∀ i', (i' < rows)%nat →
                     ent M i' j = if decide (i' = i) then 1 else 0.
Hypothesis Hzero : ∀ i j, (length cs <= i < rows)%nat → (j < m)%nat → ent M i j = 0.

Lemma pivot_col_some i j : cs !! i = Some j → get pivot_cols i = Z.of_nat j.
Proof.
  intros H. unfold get. rewrite nth_lookup, Hpc.
  rewrite lookup_app_l by (rewrite length_map; by eapply lookup_lt_Some).
  by rewrite list_lookup_fmap, H.
Qed.

Lemma pivot_col_none i : (length cs <= i < rows)%nat → get pivot_cols i = -1.
Proof.
  intros H. unfold get. rewrite nth_lookup, Hpc.
  rewrite lookup_app_r by (rewrite length_map; lia).
  rewrite lookup_replicate_2; [done |]. rewrite length_map. lia.
Qed.

Lemma pivot_lt i j : cs !! i = Some j → (j < m)%nat ∧ (i < rows)%nat.
Proof.
  intros H. split.
  - rewrite Forall_forall in Hseen. apply Hseen. by eapply list_elem_of_lookup_2.
  - apply lookup_lt_Some in H. lia.
Qed.

Lemma pivot_row_cases i :
  (i < rows)%nat → (∃ j, cs !! i = Some j) ∨ (length cs <= i < rows)%nat.
Proof.
  intros Hi. destruct (cs !! i) as [j |] eqn:E; [left; eauto | right].
  apply lookup_ge_None in E. lia.
Qed.

(** *** The consistency test *)

Lemma inconsistent_false :
  inconsistent M pivot_cols m rows = false →
  ∀ i, (length cs <= i < rows)%nat → ent M i m = 0.
Proof.
  intros H i Hi. unfold inconsistent in H.
  rewrite <- not_true_iff_false, existsb_exists in H.
  apply is_bit_not_1; [by eapply ent_bit |]. intros H1. apply H.
  exists i. split; [apply in_seq; lia |].
  by rewrite pivot_col_none, H1.
Qed.

Lemma zero_row_xdot i x :
  (length cs <= i < rows)%nat → length x = m → xdot (nth i M []) x = 0.
Proof.
  intros Hi Hx. apply xsum_zero. intros j Hj.
  rewrite length_zip_with in Hj. rewrite get_zip_land.
  change (get (nth i M []) j) with (ent M i j).
  rewrite Hzero by lia. done.
Qed.

Lemma inconsistent_true x :
  inconsistent M pivot_cols m rows = true → length x = m → ¬ sat m M x.
Proof.
  intros H Hx Hs. unfold inconsistent in H.
  apply existsb_exists in H as (i & Hi & H). apply in_seq in Hi.
  apply andb_true_iff in H as [Hpi H1%Z.eqb_eq]. apply Z.eqb_eq in Hpi.
  destruct (pivot_row_cases i) as [[j Hj] | Hge]; [lia | |].
  - rewrite (pivot_col_some i j Hj) in Hpi. lia.
  - specialize (Hs i). rewrite zero_row_xdot in Hs by done.
    destruct Hbits as [Hlen _]. rewrite Hlen in Hs. specialize (Hs ltac:(lia)). lia.
Qed.

(** *** The free columns *)

Lemma elem_of_free_cols c :
  c ∈ free_cols pivot_cols m ↔ (c < m)%nat ∧ c ∉ cs.
Proof.
  unfold free_cols, range. rewrite list_elem_of_filter, elem_of_seq.
  assert (Z.of_nat c ∈ filter (λ pc, pc ≠ -1) pivot_cols ↔ c ∈ cs) as ->; [| intuition lia].
  rewrite list_elem_of_filter, Hpc, elem_of_app, list_elem_of_fmap. split.
  - intros [Hne [(c' & Heq & Hc') | Hrep]].
    + by apply Nat2Z.inj in Heq as ->.
    + apply elem_of_replicate in Hrep. lia.
  - intros Hc. split; [lia |]. left. eauto.
Qed.

Lemma NoDup_free_cols : NoDup (free_cols pivot_cols m).
Proof. unfold free_cols, range. apply NoDup_filter, NoDup_ListNoDup, seq_NoDup. Qed.

(** *** The particular solution *)

Lemma particular_upto k :
  (k <= rows)%nat →
  let xp := foldl (λ xp i,
              let pc := get pivot_cols i in
              if pc =? -1 then xp else <[Z.to_nat pc := ent M i m]> xp)
            (replicate m 0) (seq 0 k) in
  length xp = m ∧
  ∀ j, (∀ i, (i < k)%nat → cs !! i = Some j → get xp j = ent M i m) ∧
       ((∀ i, (i < k)%nat → cs !! i ≠ Some j) → get xp j = 0).
Proof.
  induction k as [| k IH]; intros Hk; cbn zeta.
  - simpl. split; [by rewrite length_replicate |]. intros j. split; [lia |].
    intros _. apply get_replicate.
  - rewrite seq_S, foldl_app. simpl.
    destruct (IH ltac:(lia)) as [Hlen Hget]. clear IH.
    set (xp := foldl _ (replicate m 0) (seq 0 k)) in *.
    destruct (pivot_row_cases k) as [[c Hc] | Hge]; [lia | |].
    + rewrite (pivot_col_some k c Hc).
      destruct (Z.eqb_spec (Z.of_nat c) (-1)); [lia |].
      rewrite Nat2Z.id, length_insert. split; [done |].
      destruct (pivot_lt k c Hc) as [Hcm _].
      intros j. rewrite get_insert, Hlen. split.
      * intros i Hi Hij. case_decide as Hd.
        -- destruct Hd as [-> _]. by rewrite (NoDup_lookup _ _ _ _ Hnd Hij Hc).
        -- apply Hget; [| done]. destruct (decide (i = k)) as [-> | ]; [| lia].
           exfalso. apply Hd. split; [congruence | done].
      * intros Hno. rewrite decide_False.
        -- apply Hget. intros i Hi. apply Hno. lia.
        -- intros [-> _]. by apply (Hno k); [lia |].
    + rewrite pivot_col_none by done. simpl. split; [done |].
      intros j. split.
      * intros i Hi Hij. apply Hget; [| done].
        apply lookup_lt_Some in Hij. lia.
      * intros Hno. apply Hget. intros i Hi. apply Hno. lia.
Qed.

Lemma length_particular : length (particular M pivot_cols m rows) = m.
Proof. by apply (particular_upto rows). Qed.

Lemma particular_pivot i j :
  cs !! i = Some j → get (particular M pivot_cols m rows) j = ent M i m.
Proof.
  intros H. destruct (particular_upto rows ltac:(done)) as [_ Hget].
  apply Hget; [| done]. by eapply pivot_lt.
Qed.

Lemma particular_free j : j ∉ cs → get (particular M pivot_cols m rows) j = 0.
Proof.
  intros H. destruct (particular_upto rows ltac:(done)) as [_ Hget].
  apply Hget. intros i _ Hi. apply H. by eapply list_elem_of_lookup_2.
Qed.

Lemma bits_particular : Forall is_bit (particular M pivot_cols m rows).
Proof.
  apply Forall_forall. intros z Hz. apply list_elem_of_In, (In_nth _ _ 0) in Hz.
  destruct Hz as (j & _ & <-). fold (get (particular M pivot_cols m rows) j).
  destruct (decide (j ∈ cs)) as [Hj | Hj].
  - apply list_elem_of_lookup in Hj as [i Hi].
    rewrite (particular_pivot i j Hi). by eapply ent_bit.
  - rewrite particular_free by done. by left.
Qed.

(** *** The null-space vectors *)

Lemma nullvec_upto fc k :
  (fc < m)%nat → fc ∉ cs → (k <= rows)%nat →
  let v := foldl (λ v i,
             let pc := get pivot_cols i in
             if negb (pc =? -1) && (ent M i fc =? 1)
             then <[Z.to_nat pc := Z.lxor (get v (Z.to_nat pc)) 1]> v
             else v)
           (<[fc := 1]> (replicate m 0)) (seq 0 k) in
  length v = m ∧ get v fc = 1 ∧
  ∀ j, (∀ i, (i < k)%nat → cs !! i = Some j → get v j = ent M i fc) ∧
       (j ≠ fc → (∀ i, (i < k)%nat → cs !! i ≠ Some j) → get v j = 0).
Proof.
  intros Hfc Hfree. induction k as [| k IH]; intros Hk; cbn zeta.
  - simpl. rewrite length_insert, length_replicate, get_insert, length_replicate.
    split_and!; [done | by rewrite decide_True |].
    intros j. split; [lia |]. intros Hj _.
    rewrite get_insert, decide_False by (intros [-> _]; done). apply get_replicate.
  - rewrite seq_S, foldl_app. simpl.
    destruct (IH ltac:(lia)) as (Hlen & Hone & Hget). clear IH.
    set (v := foldl _ (<[fc:=1]> (replicate m 0)) (seq 0 k)) in *.
    destruct (pivot_row_cases k) as [[c Hc] | Hge]; [lia | |].
    + rewrite (pivot_col_some k c Hc).
      destruct (Z.eqb_spec (Z.of_nat c) (-1)); [lia |]. simpl.
      rewrite Nat2Z.id.
      destruct (pivot_lt k c Hc) as [Hcm _].
      assert (Hcfc : c ≠ fc).
      { intros ->. apply Hfree. by eapply list_elem_of_lookup_2. }
      assert (Hvc : get v c = 0).
      { apply Hget; [done |]. intros i Hi Hic.
        pose proof (NoDup_lookup _ _ _ _ Hnd Hic Hc). lia. }
      assert (Hstep : ∀ v', length v' = m → get v' fc = 1 →
                get v' c = ent M k fc → (∀ j, j ≠ c → get v' j = get v j) →
                length v' = m ∧ get v' fc = 1 ∧
                ∀ j, (∀ i, (i < S k)%nat → cs !! i = Some j → get v' j = ent M i fc) ∧
                     (j ≠ fc → (∀ i, (i < S k)%nat → cs !! i ≠ Some j) → get v' j = 0)).
      { intros v' Hl' H1' Hc' Hoth. split_and!; [done.. |]. intros j. split.
        - intros i Hi Hij. destruct (decide (i = k)) as [-> | Hik].
          + by assert (j = c) as -> by congruence.
          + rewrite Hoth.
            * apply Hget; [lia | done].
            * intros ->. pose proof (NoDup_lookup _ _ _ _ Hnd Hij Hc). lia.
        - intros Hj Hno. rewrite Hoth.
          + apply Hget; [done |]. intros i Hi. apply Hno. lia.
          + intros ->. by apply (Hno k); [lia |]. }
      destruct (Z.eqb_spec (ent M k fc) 1) as [He | He].
      * apply Hstep.
        -- by rewrite length_insert.
        -- rewrite get_insert, decide_False by (intros [? _]; done). done.
        -- rewrite get_insert, decide_True by (split; [done | lia]).
           by rewrite Hvc, He.
        -- intros j Hj. rewrite get_insert, decide_False by (intros [? _]; done). done.
      * apply Hstep; try done. rewrite Hvc. symmetry.
        apply is_bit_not_1; [by eapply ent_bit | done].
    + rewrite pivot_col_none by done. simpl. split_and!; [done.. |].
      intros j. split.
      * intros i Hi Hij. apply Hget; [| done].
        apply lookup_lt_Some in Hij. lia.
      * intros Hj Hno. apply Hget; [done |]. intros i Hi. apply Hno. lia.
Qed.

Lemma length_nullvec fc :
  (fc < m)%nat → fc ∉ cs → length (nullvec M pivot_cols m rows fc) = m.
Proof. intros. by apply (nullvec_upto fc rows). Qed.

Lemma nullvec_self fc :
  (fc < m)%nat → fc ∉ cs → get (nullvec M pivot_cols m rows fc) fc = 1.
Proof. intros. by apply (nullvec_upto fc rows). Qed.

Lemma nullvec_pivot fc i j :
  (fc < m)%nat → fc ∉ cs → cs !! i = Some j →
  get (nullvec M pivot_cols m rows fc) j = ent M i fc.
Proof.
  intros Hfc Hfree H.
  destruct (nullvec_upto fc rows Hfc Hfree ltac:(done)) as (_ & _ & Hget).
  apply Hget; [| done]. by eapply pivot_lt.
Qed.

Lemma nullvec_free fc j :
  (fc < m)%nat → fc ∉ cs → j ∉ cs → j ≠ fc →
  get (nullvec M pivot_cols m rows fc) j = 0.
Proof.
  intros Hfc Hfree Hj Hne.
  destruct (nullvec_upto fc rows Hfc Hfree ltac:(done)) as (_ & _ & Hget).
  apply Hget; [done |]. intros i _ Hi. apply Hj. by eapply list_elem_of_lookup_2.
Qed.

Lemma bits_nullvec fc :
  (fc < m)%nat → fc ∉ cs → Forall is_bit (nullvec M pivot_cols m rows fc).
Proof.
  intros Hfc Hfree.
  apply Forall_forall. intros z Hz. apply list_elem_of_In, (In_nth _ _ 0) in Hz.
  destruct Hz as (j & _ & <-). fold (get (nullvec M pivot_cols m rows fc) j).
  destruct (decide (j ∈ cs)) as [Hj | Hj].
  - apply list_elem_of_lookup in Hj as [i Hi].
    rewrite (nullvec_pivot fc i j) by done. by eapply ent_bit.
  - destruct (decide (j = fc)) as [-> | Hne].
    + rewrite nullvec_self by done. by right.
    + rewrite nullvec_free by done. by left.
Qed.

(** *** Both solve the reduced system *)

(** In a pivot row the other pivot columns hold 0. *)
Lemma pivot_row_other i ci j :
  cs !! i = Some ci → j ∈ cs → j ≠ ci → ent M i j = 0.
Proof.
  intros Hi Hj Hne. apply list_elem_of_lookup in Hj as [i' Hi'].
  rewrite (Hunit i' j Hi') by (by eapply pivot_lt).
  rewrite decide_False; [done |]. intros ->. congruence.
Qed.

Lemma pivot_row_self i ci : cs !! i = Some ci → ent M i ci = 1.
Proof.
  intros Hi. rewrite (Hunit i ci Hi) by (by eapply pivot_lt).
  by rewrite decide_True.
Qed.

(** The equation of a pivot row, for a vector that vanishes on the free
    columns. *)
Lemma pivot_row_xdot i ci x :
  cs !! i = Some ci → (∀ j, j ∉ cs → get x j = 0) →
  xdot (nth i M []) x = Z.land 1 (get x ci).
Proof.
  intros Hi Hx. unfold xdot. rewrite (xsum_single _ ci).
  - rewrite get_zip_land. change (get (nth i M []) ci) with (ent M i ci).
    by rewrite (pivot_row_self i).
  - intros j _ Hne. rewrite get_zip_land.
    change (get (nth i M []) j) with (ent M i j).
    destruct (decide (j ∈ cs)) as [Hj | Hj].
    + by rewrite (pivot_row_other i ci j).
    + by rewrite Hx, Z.land_0_r.
Qed.

Lemma particular_sat :
  inconsistent M pivot_cols m rows = false →
  sat m M (particular M pivot_cols m rows).
Proof.
  intros Hcons i Hi. destruct Hbits as [Hlen _]. rewrite Hlen in Hi.
  destruct (pivot_row_cases i Hi) as [[ci Hci] | Hge].
  - rewrite (pivot_row_xdot i ci) by (done || apply particular_free).
    rewrite (particular_pivot i ci Hci). apply land_1_bit. by eapply ent_bit.
  - rewrite zero_row_xdot by (done || apply length_particular).
    symmetry. by apply inconsistent_false.
Qed.

Lemma nullvec_hom fc i :
  (fc < m)%nat → fc ∉ cs → (i < rows)%nat →
  xdot (nth i M []) (nullvec M pivot_cols m rows fc) = 0.
Proof.
  intros Hfc Hfree Hi.
  destruct (pivot_row_cases i Hi) as [[ci Hci] | Hge].
  - assert (ci ≠ fc).
    { intros ->. apply Hfree. by eapply list_elem_of_lookup_2. }
    unfold xdot. rewrite (xsum_two _ ci fc) by first
      [ done
      | intros j _ Hj1 Hj2; rewrite get_zip_land;
        change (get (nth i M []) j) with (ent M i j);
        destruct (decide (j ∈ cs));
        [ by rewrite (pivot_row_other i ci j)
        | by rewrite nullvec_free, Z.land_0_r ] ].
    rewrite !get_zip_land.
    change (get (nth i M []) ?j) with (ent M i j).
    rewrite (pivot_row_self i ci), (nullvec_pivot fc i ci), nullvec_self by done.
    rewrite land_1_bit, land_bit_1 by (by eapply ent_bit).
    apply Z.lxor_nilpotent.
  - apply zero_row_xdot; [done |]. by apply length_nullvec.
Qed.

(** *** Combinations of null-space vectors *)

(** [combine] over the free columns [fs], with the mask read off [x]. *)
Lemma combine_fmap acc (x : list Z) (fs : list nat) :
  combine acc (map (get x) fs) (map (nullvec M pivot_cols m rows) fs) =
  foldl (λ acc fc, if get x fc =? 0 then acc
                   else xor_vec acc (nullvec M pivot_cols m rows fc)) acc fs.
Proof.
  unfold combine. revert acc. induction fs as [| fc fs IH]; intros acc; [done |].
  simpl. apply IH.
Qed.

Lemma combine_props acc mask (fs : list nat) :
  Forall (λ fc, (fc < m)%nat ∧ fc ∉ cs) fs →
  length acc = m → Forall is_bit acc →
  let y := combine acc mask (map (nullvec M pivot_cols m rows) fs) in
  length y = m ∧ Forall is_bit y ∧
  ∀ i, (i < rows)%nat → xdot (nth i M []) y = xdot (nth i M []) acc.
Proof.
  unfold combine. intros Hfs. revert acc mask.
  induction Hfs as [| fc fs [Hfc Hfree] Hfs IH]; intros acc mask Hlen Hb; cbn zeta.
  - destruct mask; simpl; done.
  - destruct mask as [| bit mask]; [done |]. simpl.
    destruct (bit =? 0); [by apply IH |].
    pose proof (length_nullvec fc Hfc Hfree) as Hlv.
    destruct (IH (xor_vec acc (nullvec M pivot_cols m rows fc)) mask) as (? & ? & Hx).
    { rewrite length_xor_vec; congruence. }
    { apply bits_xor_vec; [done | by apply bits_nullvec]. }
    split_and!; [done.. |]. intros i Hi. rewrite Hx by done.
    rewrite xdot_xor_arg by congruence.
    by rewrite nullvec_hom, Z.lxor_0_r.
Qed.

(** On a free column [j] the combination reads the mask. *)
Lemma combine_free_get acc (x : list Z) (fs : list nat) j :
  Forall (λ fc, (fc < m)%nat ∧ fc ∉ cs) fs → NoDup fs →
  length acc = m → j ∉ cs → Forall is_bit x →
  get (combine acc (map (get x) fs) (map (nullvec M pivot_cols m rows) fs)) j =
    Z.lxor (get acc j) (if decide (j ∈ fs) then get x j else 0).
Proof.
  rewrite combine_fmap. intros Hfs Hnd' Hlen Hj Hx. revert acc Hlen.
  induction Hfs as [| fc fs [Hfc Hfree] Hfs IH]; intros acc Hlen.
  - cbn [foldl]. case_decide as Hd; [by apply elem_of_nil in Hd |].
    by rewrite Z.lxor_0_r.
  - apply NoDup_cons in Hnd' as [Hfcfs Hnd']. cbn [foldl].
    pose proof (length_nullvec fc Hfc Hfree) as Hlv.
    rewrite if_elem_of_cons.
    destruct (Z.eqb_spec (get x fc) 0) as [H0 | H0].
    + rewrite IH by done. f_equal.
      destruct (decide (j = fc)) as [-> | Hne]; [| done].
      by rewrite decide_False.
    + assert (get x fc = 1) as H1.
      { destruct (get_bit x fc Hx); [done | done]. }
      rewrite IH by (done || rewrite length_xor_vec; congruence).
      rewrite get_xor_vec by congruence.
      destruct (decide (j = fc)) as [-> | Hne].
      * rewrite nullvec_self by done.
        rewrite decide_False by done.
        by rewrite H1, Z.lxor_0_r.
      * by rewrite nullvec_free, Z.lxor_0_r by done.
Qed.

Lemma Forall_free_cols :
  Forall (λ fc, (fc < m)%nat ∧ fc ∉ cs) (free_cols pivot_cols m).
Proof. apply Forall_forall. intros fc. by rewrite elem_of_free_cols. Qed.

(** Every solution is the combination selected by its own free bits. *)
Lemma combine_complete x :
  inconsistent M pivot_cols m rows = false →
  length x = m → Forall is_bit x → sat m M x →
  combine (particular M pivot_cols m rows)
          (map (get x) (free_cols pivot_cols m))
          (map (nullvec M pivot_cols m rows) (free_cols pivot_cols m)) = x.
Proof.
  intros Hcons Hlen Hb Hs.
  set (xp := particular M pivot_cols m rows).
  set (fs := free_cols pivot_cols m).
  set (y := combine xp (map (get x) fs) (map (nullvec M pivot_cols m rows) fs)).
  destruct (combine_props xp (map (get x) fs) fs) as (Hly & Hby & Hy);
    [apply Forall_free_cols | apply length_particular | apply bits_particular |].
  fold y in Hly, Hby, Hy.
  assert (Hfree : ∀ j, (j < m)%nat → j ∉ cs → get y j = get x j).
  { intros j Hj Hjcs. unfold y.
    rewrite combine_free_get;
      [| apply Forall_free_cols | apply NoDup_free_cols
       | apply length_particular | done | done].
    fold xp. unfold xp at 1. rewrite particular_free by done.
    rewrite decide_True by (by apply elem_of_free_cols). done. }
  apply list_eq_get; [congruence |]. intros j Hj. rewrite Hly in Hj.
  destruct (decide (j ∈ cs)) as [Hjcs | Hjcs]; [| by apply Hfree].
  apply list_elem_of_lookup in Hjcs as [i Hi].
  destruct (pivot_lt i j Hi) as [_ Hirows].
  assert (Hw : xdot (nth i M []) (xor_vec y x) = 0).
  { rewrite xdot_xor_arg by congruence. rewrite Hy by done.
    destruct Hbits as [HlM _]. unfold xp.
    rewrite (particular_sat Hcons i), (Hs i) by lia. apply Z.lxor_nilpotent. }
  rewrite (pivot_row_xdot i j) in Hw; [| done |].
  - rewrite get_xor_vec in Hw by congruence.
    rewrite land_1_bit in Hw by (apply is_bit_lxor; by apply get_bit).
    by apply Z.lxor_eq.
  - intros j' Hj'. rewrite get_xor_vec by congruence.
    destruct (decide (j' < m)%nat).
    + rewrite Hfree by done. apply Z.lxor_nilpotent.
    + rewrite !get_ge by lia. done.
Qed.
End reduced.

(** ** The enumeration of the solutions *)

Lemma elem_of_product01 k mask :
  length mask = k → Forall is_bit mask → mask ∈ product01 k.
Proof.
  revert mask. induction k as [| k IH]; intros [| b mask] Hlen Hb; simplify_eq/=.
  - left.
  - apply Forall_cons in Hb as [[-> | ->] Hb]; apply elem_of_app; [left | right];
      apply list_elem_of_fmap; eexists; (split; [done |]); by apply IH.
Qed.

Lemma product01_nonempty k : product01 k ≠ [].
Proof.
  intros H. pose proof (elem_of_product01 k (replicate k 0)) as Hin.
  rewrite H in Hin. eapply not_elem_of_nil, Hin.
  - apply length_replicate.
  - apply Forall_replicate. by left.
Qed.

(** The running minimum of the last loop. *)
Lemma fold_min_spec {A} (f : A → Z) (L : list A) (b : num) :
  match foldl (λ best a, let wt := Int (f a) in
                         if num_ltb wt best then wt else best) b L with
  | Inf => b = Inf ∧ L = []
  | Int R => (b = Int R ∨ ∃ a, a ∈ L ∧ f a = R) ∧
             (∀ z, b = Int z → R <= z) ∧ ∀ a, a ∈ L → R <= f a
  end.
Proof.
  revert b. induction L as [| a L IH]; intros b; cbn [foldl].
  - destruct b as [z |]; [| done]. split_and!; [by left | | ].
    + intros ? [= <-]. lia.
    + intros a Ha. by apply elem_of_nil in Ha.
  - specialize (IH (let wt := Int (f a) in if num_ltb wt b then wt else b)).
    cbn zeta in *.
    destruct (foldl _ _ L) as [R |].
    + destruct IH as (Hatt & Hb & HL).
      assert (Ha : R <= f a ∧ ∀ z, b = Int z → R <= z).
      { destruct b as [z |]; simpl in *.
        - destruct (Z.ltb_spec (f a) z).
          + specialize (Hb _ eq_refl). split; [lia |]. intros ? [= <-]. lia.
          + specialize (Hb _ eq_refl). split; [lia |]. intros ? [= <-]. lia.
        - specialize (Hb _ eq_refl). split; [lia | done]. }
      destruct Ha as [Ha Hb']. split_and!; [| done |].
      * destruct Hatt as [Hatt | (a' & Ha' & <-)].
        -- destruct (num_ltb (Int (f a)) b).
           ++ right. exists a. split; [left | congruence].
           ++ by left.
        -- right. exists a'. split; [by right | done].
      * intros a' [-> | Ha']%elem_of_cons; [done | by apply HL].
    + destruct IH as [Hb _]. destruct b as [z |]; simpl in Hb.
      * by destruct (f a <? z).
      * done.
Qed.

Lemma best_weight_spec xp nullvecs k :
  ∃ R, best_weight xp nullvecs k = Int R ∧
       (∃ mask, mask ∈ product01 k ∧ zsum (combine xp mask nullvecs) = R) ∧
       ∀ mask, mask ∈ product01 k → R <= zsum (combine xp mask nullvecs).
Proof.
  unfold best_weight.
  pose proof (fold_min_spec (λ mask, zsum (combine xp mask nullvecs))
                (product01 k) Inf) as H.
  cbn zeta in H. destruct (foldl _ _ _) as [R |].
  - exists R. destruct H as ([? | Hatt] & _ & Hmin); [done |]. done.
  - destruct H as [_ H]. by apply product01_nonempty in H.
Qed.

(** ** The augmented matrix *)

Lemma shape_Some A m n :
  shape A = Some (m, n) →
  A ≠ [] ∧ length A = m ∧ Forall (λ row, length row = n) A.
Proof.
  unfold shape. destruct A as [| row A']; [done |].
  destruct (forallb _ _) eqn:E; [| done]. intros [= <- <-].
  split_and!; [done.. |].
  rewrite forallb_forall in E. apply Forall_forall. intros r Hr.
  apply list_elem_of_In, E in Hr. by apply Nat.eqb_eq in Hr.
Qed.

Lemma shape_intro A n :
  A ≠ [] → Forall (λ row, length row = n) A → shape A = Some (length A, n).
Proof.
  intros Hne H. unfold shape. destruct A as [| row A']; [done |].
  assert (length row = n) as Hrow by (by apply Forall_cons in H as [? _]).
  rewrite (proj2 (forallb_forall _ _)); [by rewrite Hrow |].
  intros r Hr. rewrite Forall_forall in H. apply Nat.eqb_eq.
  rewrite Hrow. by apply H, list_elem_of_In.
Qed.

Lemma nth_augment A b i :
  (i < length b)%nat →
  nth i (augment A b) [] = map (λ row, get row i) A ++ [get b i].
Proof.
  intros Hi. unfold augment. rewrite nth_lookup, list_lookup_imap.
  destruct (lookup_lt_is_Some_2 b i Hi) as [bi Hbi]. rewrite Hbi. simpl.
  unfold get. by rewrite (nth_lookup b), Hbi.
Qed.

Lemma length_augment A b : length (augment A b) = length b.
Proof. unfold augment. apply length_imap. Qed.

Lemma bit_matrix_augment A b :
  Forall (Forall is_bit) A → Forall is_bit b →
  bit_matrix (length b) (S (length A)) (augment A b).
Proof.
  intros HA Hb. split; [apply length_augment |]. intros i Hi.
  rewrite nth_augment by done. split.
  - rewrite length_app, length_map. simpl. lia.
  - apply Forall_app. split.
    + apply Forall_fmap. eapply Forall_impl; [exact HA |].
      intros row Hrow. simpl. by apply get_bit.
    + apply Forall_singleton. by apply get_bit.
Qed.

(** ** [gf2_solve_minweight] on a matrix of bits *)

Theorem gf2_matrix_spec (target : list Z) (A : list (list Z)) :
  A ≠ [] → Forall (λ row, length row = length target) A →
  Forall (Forall is_bit) A → Forall is_bit target →
  match gf2_solve_minweight target A with
  | Some (Int R) => least_sum (system_solution A target) R
  | Some Inf => ∀ x, ¬ system_solution A target x
  | None => False
  end.
Proof.
  intros Hne Hshape HA Hb. unfold gf2_solve_minweight.
  rewrite (shape_intro A (length target)) by done. simpl.
  rewrite Nat.eqb_refl. simpl.
  set (m := length A). rewrite length_augment.
  set (M0 := augment A target). set (rows := length target).
  pose proof (bit_matrix_augment A target HA Hb) as Hb0. fold m M0 rows in Hb0.
  destruct (elim_inv_loop m rows M0 m Hb0) as [cs Hinv].
  fold (range m) in Hinv. fold (elim_loop M0 m rows) in Hinv.
  set (s := elim_loop M0 m rows) in *.
  destruct Hinv as [Hbs Hsat Hrank Hle Hpc Hseen Hnd Hunit Hzero _].
  rewrite <- Hrank in Hle, Hpc, Hzero.
  destruct (inconsistent (es_M s) (es_pivot_cols s) m rows) eqn:Hcons.
  { intros x (Hlen & _ & Hs). apply Hsat in Hs. revert Hs.
    by eapply (inconsistent_true m rows (es_M s) (es_pivot_cols s) cs). }
  set (fs := free_cols (es_pivot_cols s) m).
  set (xp := particular (es_M s) (es_pivot_cols s) m rows).
  set (nvs := map (nullvec (es_M s) (es_pivot_cols s) m rows) fs).
  destruct (best_weight_spec xp nvs (length fs)) as (R & -> & (mask & Hmask & Hatt) & Hmin).
  assert (Hsol : ∀ mask, system_solution A target (combine xp mask nvs)).
  { intros mk.
    destruct (combine_props m rows (es_M s) (es_pivot_cols s) cs
                Hbs Hle Hpc Hseen Hnd Hunit Hzero xp mk fs) as (Hl & Hbit & Hx).
    - by apply (Forall_free_cols m rows _ cs).
    - by apply (length_particular m rows _ _ cs).
    - by apply (bits_particular m rows _ _ cs).
    - split_and!; [done.. |]. apply Hsat. intros i Hi.
      pose proof (proj1 Hbs) as HlM. rewrite HlM in Hi. fold nvs in Hx.
      rewrite Hx by done.
      apply (particular_sat m rows (es_M s) (es_pivot_cols s) cs); try done. lia. }
  split.
  - exists (combine xp mask nvs). split; [apply Hsol | done].
  - intros x (Hlen & Hbit & Hs). apply Hsat in Hs.
    rewrite <- (combine_complete m rows (es_M s) (es_pivot_cols s) cs
                  Hbs Hle Hpc Hseen Hnd Hunit Hzero x Hcons Hlen Hbit Hs).
    apply Hmin, elem_of_product01.
    + by rewrite length_map.
    + apply Forall_fmap, Forall_forall. intros fc _. simpl. by apply get_bit.
Qed.

(** ** From the matrix to the machine *)

Lemma lxor_mod2 a b : Z.lxor (a mod 2) (b mod 2) = (a + b) mod 2.
Proof.
  rewrite (Z.add_mod a b) by lia.
  pose proof (Z.mod_pos_bound a 2 ltac:(lia)).
  pose proof (Z.mod_pos_bound b 2 ltac:(lia)).
  assert (a mod 2 = 0 ∨ a mod 2 = 1) as [-> | ->] by lia;
    assert (b mod 2 = 0 ∨ b mod 2 = 1) as [-> | ->] by lia; done.
Qed.

Lemma is_bit_mod2 a : is_bit (a mod 2).
Proof. pose proof (Z.mod_pos_bound a 2 ltac:(lia)). unfold is_bit. lia. Qed.

Lemma toggle_spec state light :
  (light < length state)%nat →
  ∃ state', toggle state light = Some state' ∧ length state' = length state ∧
    ∀ i, get state' i = Z.lxor (get state i) (if decide (i = light) then 1 else 0).
Proof.
  intros H. unfold toggle. rewrite decide_True by done.
  eexists. split_and!; [done | by rewrite length_insert |].
  intros i. rewrite get_insert.
  destruct (decide (i = light)) as [-> | Hne].
  - by rewrite decide_True.
  - rewrite decide_False by (intros [-> _]; done). by rewrite Z.lxor_0_r.
Qed.

(** Pressing a button adds, to every light, the parity of the number of
    times the button lists it. *)
Lemma press_spec state button :
  Forall (λ i, (i < length state)%nat) button →
  ∃ state', press state button = Some state' ∧ length state' = length state ∧
    ∀ i, get state' i =
         Z.lxor (get state i) (Z.of_nat (count_occ Nat.eq_dec button i) mod 2).
Proof.
  intros H. revert state H. induction button as [| light rest IH]; intros state H.
  - exists state. split_and!; [done.. |]. intros i. simpl. by rewrite Z.lxor_0_r.
  - apply Forall_cons in H as [Hl Hrest].
    destruct (toggle_spec state light Hl) as (s1 & E1 & Hlen1 & Hget1).
    destruct (IH s1) as (s2 & E2 & Hlen2 & Hget2); [by rewrite Hlen1 |].
    exists s2. cbn [press]. rewrite E1. simpl. rewrite E2.
    split_and!; [done | congruence |]. intros i.
    rewrite Hget2, Hget1, Z.lxor_assoc. f_equal.
    cbn [count_occ]. destruct (Nat.eq_dec light i) as [-> | Hne].
    + rewrite decide_True by done. rewrite Nat2Z.inj_succ.
      change 1 with (1 mod 2) at 1. rewrite lxor_mod2. f_equal. lia.
    + rewrite decide_False by done. apply Z.lxor_0_l.
Qed.

Lemma parse_line_part1_spec target buttons :
  wf_buttons (length target) buttons →
  ∃ A, parse_line_part1 target buttons = Some (target, A) ∧
       parity_rows (length target) buttons A.
Proof.
  intros Hwf. unfold parse_line_part1.
  assert (∃ A, mapM (press (replicate (length target) 0)) buttons = Some A ∧
               parity_rows (length target) buttons A) as (A & -> & HA);
    [| by exists A].
  induction Hwf as [| button rest Hb Hrest (A & E & HA)].
  - exists []. split; [done | constructor].
  - destruct (press_spec (replicate (length target) 0) button) as (row & Er & Hlen & Hget).
    { by rewrite length_replicate. }
    exists (row :: A). cbn [mapM]. rewrite Er. simpl. rewrite E. simpl.
    split; [done |]. constructor; [| done]. split.
    + by rewrite Hlen, length_replicate.
    + intros i. by rewrite Hget, get_replicate, Z.lxor_0_l.
Qed.

Lemma parity_rows_props n buttons A :
  parity_rows n buttons A →
  length A = length buttons ∧ Forall (λ row, length row = n) A ∧
  Forall (Forall is_bit) A.
Proof.
  induction 1 as [| button row rest A [Hlen Hget] _ (IH1 & IH2 & IH3)].
  - done.
  - split_and!; [simpl; congruence | by constructor |].
    constructor; [| done]. apply Forall_forall. intros z Hz.
    apply list_elem_of_In, (In_nth _ _ 0) in Hz. destruct Hz as (j & _ & <-).
    fold (get row j). rewrite Hget. apply is_bit_mod2.
Qed.

(** Column [i] of the matrix against [x]: the parity of the hits on [i]. *)
Lemma xdot_column n buttons A x i :
  parity_rows n buttons A → Forall is_bit x →
  xdot (map (λ row, get row i) A) x = hits buttons x i mod 2.
Proof.
  unfold xdot, hits. intros HA. revert x.
  induction HA as [| button row rest A [Hlen Hget] _ IH]; intros x Hx.
  - done.
  - destruct Hx as [| xj x Hxj Hx]; [done |]. cbn [map zip_with xsum zsum foldr].
    fold (xsum (zip_with Z.land (map (λ row, get row i) A) x)).
    fold (zsum (zip_with (λ button xj, xj * Z.of_nat (count_occ Nat.eq_dec button i)) rest x)).
    rewrite IH, Hget by done. destruct Hxj as [-> | ->].
    + rewrite Z.land_0_r, Z.lxor_0_l. f_equal.
    + rewrite land_bit_1 by apply is_bit_mod2. rewrite lxor_mod2. f_equal. lia.
Qed.

Lemma xdot_app_r row t x :
  (length x <= length row)%nat → xdot (row ++ [t]) x = xdot row x.
Proof.
  unfold xdot. revert x. induction row as [| a row IH]; intros [| b x] Hlen;
    simpl in *; try done; try lia.
  rewrite IH; [done | lia].
Qed.

Lemma system_solution_toggle target buttons A x :
  parity_rows (length target) buttons A →
  system_solution A target x ↔ toggle_solution target buttons x.
Proof.
  intros HA. destruct (parity_rows_props _ _ _ HA) as (HlA & Hrows & Hbits).
  unfold system_solution, toggle_solution. rewrite HlA.
  split; intros (Hlx & Hbx & H); (split_and!; [done.. |]).
  - intros i Hi. specialize (H i). rewrite length_augment in H.
    specialize (H Hi). unfold ent in H. rewrite nth_augment in H by done.
    rewrite xdot_app_r in H by (rewrite length_map; lia).
    rewrite (xdot_column _ buttons) in H by done. rewrite H.
    unfold get at 1. rewrite app_nth2; rewrite length_map, HlA; [| lia].
    by rewrite Nat.sub_diag.
  - intros i Hi. rewrite length_augment in Hi.
    unfold ent. rewrite nth_augment by done.
    rewrite xdot_app_r by (rewrite length_map; lia).
    rewrite (xdot_column _ buttons) by done. rewrite (H i Hi).
    unfold get at 2. rewrite app_nth2; rewrite length_map, HlA; [| lia].
    by rewrite Nat.sub_diag.
Qed.

Lemma least_sum_unique P R1 R2 : least_sum P R1 → least_sum P R2 → R1 = R2.
Proof.
  intros [(x1 & H1 & <-) Hmin1] [(x2 & H2 & <-) Hmin2].
  specialize (Hmin1 _ H2). specialize (Hmin2 _ H1). lia.
Qed.

Lemma least_sum_iff P Q R : (∀ x, P x ↔ Q x) → least_sum P R → least_sum Q R.
Proof.
  intros H [(x & Hx & Hs) Hmin]. split.
  - exists x. split; [by apply H | done].
  - intros y Hy. by apply Hmin, H.
Qed.

(** [parse_line_part1] followed by [gf2_solve_minweight], on a machine
    with at least one button. *)
Lemma gf2_machine_spec target buttons :
  buttons ≠ [] → Forall is_bit target → wf_buttons (length target) buttons →
  ∃ A, parse_line_part1 target buttons = Some (target, A) ∧
    ((∃ R, gf2_solve_minweight target A = Some (Int R) ∧
           least_sum (toggle_solution target buttons) R) ∨
     (gf2_solve_minweight target A = Some Inf ∧
      ∀ x, ¬ toggle_solution target buttons x)).
Proof.
  intros Hne Hb Hwf.
  destruct (parse_line_part1_spec target buttons Hwf) as (A & E & HA).
  exists A. split; [done |].
  destruct (parity_rows_props _ _ _ HA) as (HlA & Hrows & Hbits).
  assert (A ≠ []) as HneA.
  { intros ->. destruct buttons; [done | simpl in HlA; lia]. }
  pose proof (gf2_matrix_spec target A HneA Hrows Hbits Hb) as H.
  destruct (gf2_solve_minweight target A) as [[R |] |]; [| | done].
  - left. exists R. split; [done |].
    eapply least_sum_iff; [| exact H]. intros x. by apply system_solution_toggle.
  - right. split; [done |]. intros x Hx. apply (H x).
    by eapply system_solution_toggle.
Qed.

(** ** [solve_gf2]: the enumeration of the masks *)

Lemma land_shiftl_1 a n :
  0 <= n → (Z.land a (Z.shiftl 1 n) =? 0) = negb (Z.testbit a n).
Proof.
  intros Hn. rewrite Z.shiftl_1_l.
  destruct (Z.testbit a n) eqn:E; simpl.
  - apply Z.eqb_neq. intros H.
    apply (f_equal (λ z, Z.testbit z n)) in H.
    rewrite Z.land_spec, E, Z.pow2_bits_true, Z.bits_0 in H by done. done.
  - apply Z.eqb_eq, Z.bits_inj'. intros k Hk.
    rewrite Z.land_spec, Z.bits_0, Z.pow2_bits_eqb by done.
    destruct (Z.eqb_spec n k) as [<- | _]; [by rewrite E | apply andb_false_r].
Qed.

Lemma bits_mask_bits mask idx len : Forall is_bit (mask_bits mask idx len).
Proof.
  unfold mask_bits. apply Forall_fmap, Forall_forall. intros j _. simpl.
  destruct (Z.testbit _ _); [by right | by left].
Qed.

Lemma length_mask_bits mask idx len : length (mask_bits mask idx len) = len.
Proof. unfold mask_bits. by rewrite length_map, length_seq. Qed.

Lemma run_mask_spec mask buttons idx state presses :
  wf_buttons (length state) buttons →
  let x := mask_bits mask idx (length buttons) in
  ∃ state', run_mask mask buttons idx state presses = Some (state', presses + zsum x) ∧
    length state' = length state ∧
    ∀ i, get state' i = Z.lxor (get state i) (hits buttons x i mod 2).
Proof.
  intros Hwf. revert idx state presses Hwf.
  induction buttons as [| button rest IH]; intros idx state presses Hwf; cbn zeta.
  - exists state. simpl. rewrite Z.add_0_r. split_and!; [done.. |].
    intros i. by rewrite Z.lxor_0_r.
  - apply Forall_cons in Hwf as [Hb Hrest].
    cbn [run_mask length mask_bits seq map]. fold (mask_bits mask (S idx) (length rest)).
    rewrite land_shiftl_1 by lia.
    unfold hits. cbn [zip_with zsum foldr].
    fold (zsum (mask_bits mask (S idx) (length rest))).
    destruct (Z.testbit mask (Z.of_nat idx)); simpl negb; cbn [Z.b2z].
    + destruct (press_spec state button Hb) as (s1 & E1 & Hlen1 & Hget1).
      rewrite E1. simpl.
      destruct (IH (S idx) s1 (presses + 1)) as (s2 & E2 & Hlen2 & Hget2);
        [by rewrite Hlen1 |].
      exists s2. rewrite E2. split_and!; [f_equal; f_equal; lia | congruence |].
      intros i. rewrite Hget2, Hget1, Z.lxor_assoc, lxor_mod2. unfold hits, zsum.
      do 2 f_equal. lia.
    + destruct (IH (S idx) state presses Hrest) as (s2 & E2 & Hlen2 & Hget2).
      exists s2. rewrite E2. split_and!; [done.. |].
      intros i. rewrite Hget2. unfold hits, zsum. by do 2 f_equal.
Qed.

(** A mask passes the test [state == target] exactly when its press vector
    solves the toggle system. *)
Lemma run_mask_target mask target buttons :
  wf_buttons (length target) buttons →
  let x := mask_bits mask 0 (length buttons) in
  ∃ state, run_mask mask buttons 0 (replicate (length target) 0) 0 = Some (state, zsum x) ∧
           (state = target ↔ toggle_solution target buttons x).
Proof.
  intros Hwf. cbn zeta.
  destruct (run_mask_spec mask buttons 0 (replicate (length target) 0) 0)
    as (state & E & Hlen & Hget); [by rewrite length_replicate |].
  rewrite length_replicate in Hlen.
  exists state. split; [done |]. unfold toggle_solution.
  rewrite length_mask_bits. split.
  - intros <-. split_and!; [done | apply bits_mask_bits |].
    intros i _. by rewrite Hget, get_replicate, Z.lxor_0_l.
  - intros (_ & _ & H). apply list_eq_get; [done |]. intros i Hi.
    rewrite Hget, get_replicate, Z.lxor_0_l. apply H. lia.
Qed.

Lemma scan_masks_spec masks target buttons b :
  wf_buttons (length target) buttons →
  let X mask := mask_bits (Z.of_nat mask) 0 (length buttons) in
  ∃ res, scan_masks masks target buttons b = Some res ∧
    match res with
    | Inf => b = Inf ∧ ∀ mask, mask ∈ masks → ¬ toggle_solution target buttons (X mask)
    | Int R =>
        (b = Int R ∨
         ∃ mask, mask ∈ masks ∧ toggle_solution target buttons (X mask) ∧ zsum (X mask) = R) ∧
        (∀ z, b = Int z → R <= z) ∧
        ∀ mask, mask ∈ masks → toggle_solution target buttons (X mask) → R <= zsum (X mask)
    end.
Proof.
  intros Hwf X. revert b. induction masks as [| mask masks IH]; intros b.
  - exists b. split; [done |]. destruct b as [z |].
    + split_and!; [by left | intros ? [= <-]; lia |].
      intros ? Hin. by apply elem_of_nil in Hin.
    + split; [done |]. intros ? Hin. by apply elem_of_nil in Hin.
  - cbn [scan_masks].
    destruct (run_mask_target (Z.of_nat mask) target buttons Hwf) as (state & E & Hst).
    rewrite E. simpl. fold (X mask) in Hst |- *.
    set (b' := if decide (state = target) then num_min b (Int (zsum (X mask))) else b).
    destruct (IH b') as (res & Eres & Hres). exists res. split; [done |].
    assert (Hb' : match b' with
                  | Inf => b = Inf ∧ ¬ toggle_solution target buttons (X mask)
                  | Int z' =>
                      (b = Int z' ∨ toggle_solution target buttons (X mask) ∧ zsum (X mask) = z') ∧
                      (∀ z, b = Int z → z' <= z) ∧
                      (toggle_solution target buttons (X mask) → z' <= zsum (X mask))
                  end).
    { subst b'. case_decide as Hd.
      - apply Hst in Hd. unfold num_min. destruct b as [z |]; simpl.
        + destruct (Z.ltb_spec (zsum (X mask)) z).
          * split_and!; [by right | intros ? [= <-]; lia | done].
          * split_and!; [by left | intros ? [= <-]; lia | intros; lia].
        + split_and!; [by right | done | done].
      - rewrite Hst in Hd. destruct b as [z |].
        + split_and!; [by left | intros ? [= <-]; lia | done].
        + done. }
    destruct res as [R |].
    + destruct Hres as (Hatt & Hle & Hmin).
      destruct b' as [z' |].
      * destruct Hb' as (Hatt' & Hle' & Hmin'). specialize (Hle _ eq_refl).
        split_and!.
        -- destruct Hatt as [[= <-] | (mk & Hin & Hsol & Hsum)].
           ++ destruct Hatt' as [-> | [Hsol Hsum]]; [by left |].
              right. exists mask. split_and!; [left | done..].
           ++ right. exists mk. split_and!; [by right | done..].
        -- intros z Hz. specialize (Hle' _ Hz). lia.
        -- intros mk [-> | Hin]%elem_of_cons Hsol; [| by apply Hmin].
           specialize (Hmin' Hsol). lia.
      * destruct Hb' as [-> Hno]. split_and!; [| done |].
        -- destruct Hatt as [? | (mk & Hin & Hsol & Hsum)]; [done |].
           right. exists mk. split_and!; [by right | done..].
        -- intros mk [-> | Hin]%elem_of_cons Hsol; [done | by apply Hmin].
    + destruct Hres as [Eb' Hno]. rewrite Eb' in Hb'.
      destruct Hb' as [-> Hnot]. split; [done |].
      intros mk [-> | Hin]%elem_of_cons; [done | by apply Hno].
Qed.

(** *** Every press vector is a mask of the range *)

Lemma mask_of_range x : Forall is_bit x → 0 <= mask_of x < 2 ^ Z.of_nat (length x).
Proof.
  induction 1 as [| b x Hb Hx IH]; [simpl; lia |].
  cbn [mask_of foldr length]. fold (mask_of x).
  rewrite Nat2Z.inj_succ, Z.pow_succ_r by lia.
  apply is_bit_range in Hb. lia.
Qed.

Lemma mask_bits_shift b k idx len :
  is_bit b → mask_bits (b + 2 * k) (S idx) len = mask_bits k idx len.
Proof.
  intros Hb. unfold mask_bits. rewrite <- seq_shift, map_map.
  apply map_ext. intros j. f_equal.
  rewrite Nat2Z.inj_succ.
  replace (b + 2 * k) with (2 * k + Z.b2z (b =? 1)) by (destruct Hb as [-> | ->]; simpl; lia).
  apply Z.testbit_succ_r. lia.
Qed.

Lemma mask_bits_mask_of x :
  Forall is_bit x → mask_bits (mask_of x) 0 (length x) = x.
Proof.
  induction 1 as [| b x Hb Hx IH]; [done |].
  cbn [mask_of foldr length]. fold (mask_of x).
  unfold mask_bits. cbn [seq map]. fold (mask_bits (b + 2 * mask_of x) 1 (length x)).
  rewrite mask_bits_shift, IH by done. f_equal.
  replace (b + 2 * mask_of x) with (2 * mask_of x + Z.b2z (b =? 1))
    by (destruct Hb as [-> | ->]; simpl; lia).
  change (Z.of_nat 0) with 0. rewrite Z.testbit_0_r.
  by destruct Hb as [-> | ->].
Qed.

(** [solve_gf2] returns the least number of presses, and 0 when no press
    vector reaches the target. *)
Lemma solve_gf2_spec target buttons :
  wf_buttons (length target) buttons →
  ∃ R, solve_gf2 target buttons = Some (Int R) ∧
       (least_sum (toggle_solution target buttons) R ∨
        (R = 0 ∧ ∀ x, ¬ toggle_solution target buttons x)).
Proof.
  intros Hwf. unfold solve_gf2. cbn zeta.
  set (masks := range _).
  destruct (scan_masks_spec masks target buttons Inf Hwf) as (res & -> & Hres).
  simpl.
  assert (Hall : ∀ x, toggle_solution target buttons x →
            ∃ mask, mask ∈ masks ∧ mask_bits (Z.of_nat mask) 0 (length buttons) = x).
  { intros x (Hlen & Hb & _). exists (Z.to_nat (mask_of x)).
    pose proof (mask_of_range x Hb) as Hr. rewrite Hlen in Hr.
    rewrite Z2Nat.id by lia. split.
    - subst masks. unfold range. apply elem_of_seq.
      rewrite Z.shiftl_1_l. split; [lia |]. simpl. apply Z2Nat.inj_lt; lia.
    - rewrite <- Hlen. by apply mask_bits_mask_of. }
  destruct res as [R |].
  - exists R. rewrite decide_False by done. split; [done |]. left.
    destruct Hres as ([? | (mask & _ & Hsol & Hsum)] & _ & Hmin); [done |]. split.
    + eauto.
    + intros x Hx. destruct (Hall x Hx) as (mk & Hin & E).
      rewrite <- E in Hx |- *. by apply Hmin.
  - exists 0. rewrite decide_True by done. split; [done |]. right. split; [done |].
    destruct Hres as [_ Hno]. intros x Hx.
    destruct (Hall x Hx) as (mk & Hin & E). rewrite <- E in Hx. by apply (Hno mk).
Qed.

(** ** The rounding fast path of [solve_joltage] *)

Lemma qsum_injZ y : (qsum (injZ y) == inject_Z (zsum y))%Q.
Proof.
  induction y as [| z y IH]; simpl; [reflexivity |].
  rewrite IH, inject_Z_plus. reflexivity.
Qed.

Lemma dotQ_injZ a y : (dotQ a (injZ y) == inject_Z (dotZ a y))%Q.
Proof.
  unfold dotQ, dotZ, injZ. revert y.
  induction a as [| c a IH]; intros [| z y]; simpl; try reflexivity.
  rewrite IH, inject_Z_plus, inject_Z_mult. reflexivity.
Qed.

Lemma qsum_nudge e x y :
  length x = length y →
  (qsum (nudge e x y) == qsum x - e * (qsum (injZ y) - qsum x))%Q.
Proof.
  unfold nudge. revert y.
  induction x as [| q x IH]; intros [| z y] Hlen; simplify_eq/=; [ring |].
  rewrite IH by done. ring.
Qed.

Lemma dotQ_nudge a e x y :
  length x = length y →
  (dotQ a (nudge e x y) == dotQ a x - e * (dotQ a (injZ y) - dotQ a x))%Q.
Proof.
  unfold dotQ, nudge. revert x y.
  induction a as [| c a IH]; intros [| q x] [| z y] Hlen; simplify_eq/=; try ring.
  rewrite IH by done. ring.
Qed.

Lemma step_of_pos x : (0 < step_of x <= 1)%Q.
Proof.
  induction x as [| q x IH]; simpl; [lra |].
  destruct (Qlt_le_dec 0 q); [| done].
  destruct (Qlt_le_dec q (step_of x)); lra.
Qed.

Lemma step_of_le x : Forall (λ q, (0 < q → step_of x <= q)%Q) x.
Proof.
  induction x as [| q x IH]; [constructor |]. simpl. constructor.
  - intros Hq. destruct (Qlt_le_dec 0 q); [| lra].
    destruct (Qlt_le_dec q (step_of x)); lra.
  - eapply Forall_impl; [exact IH |]. simpl. intros q' H Hq'. specialize (H Hq').
    destruct (Qlt_le_dec 0 q); [| done].
    destruct (Qlt_le_dec q (step_of x)); lra.
Qed.

Lemma nudge_nonneg e x y :
  (0 <= e)%Q → Forall (λ q, (0 < q → e <= q)%Q) x →
  Forall (λ q, (0 <= q)%Q) x →
  Forall2 (λ q z, ((q == 0)%Q → z = 0) ∧ (-1 <= inject_Z z - q <= 1)%Q) x y →
  Forall (λ q, (0 <= q)%Q) (nudge e x y).
Proof.
  intros He Hstep Hx Hxy. unfold nudge.
  induction Hxy as [| q z x y [H0 Hd] _ IH]; [constructor |].
  apply Forall_cons in Hstep as [Hq Hstep]. apply Forall_cons in Hx as [Hq0 Hx].
  simpl. constructor; [| by apply IH].
  destruct (Qlt_le_dec 0 q) as [Hpos | Hle].
  - specialize (Hq Hpos). nra.
  - assert (q == 0)%Q as Hz by lra. rewrite (H0 Hz). rewrite Hz. ring_simplify. lra.
Qed.

Lemma ilp_lp_feasible m constraints y :
  ilp_feasible m constraints y → lp_feasible m constraints (injZ y).
Proof.
  intros (Hlen & Hpos & Hc). split_and!.
  - unfold injZ. by rewrite length_map.
  - unfold injZ. apply Forall_fmap. eapply Forall_impl; [exact Hpos |].
    intros z Hz. simpl. change 0%Q with (inject_Z 0). by rewrite <- Zle_Qle.
  - eapply Forall_impl; [exact Hc |]. intros [a t] H. simpl in *.
    rewrite dotQ_injZ, H. reflexivity.
Qed.

(** A feasible integer vector obtained by moving only the positive entries
    of an optimum of the relaxation, each by at most 1, is an optimum of the
    integer program: otherwise the point on the other side of the optimum
    would be feasible and cheaper. *)
Lemma rounded_candidate_optimal m constraints x y :
  lp_contract m constraints (Some x) →
  ilp_feasible m constraints y →
  Forall2 (λ q z, ((q == 0)%Q → z = 0) ∧ (-1 <= inject_Z z - q <= 1)%Q) x y →
  (qsum x == inject_Z (zsum y))%Q ∧
  ∀ w, ilp_feasible m constraints w → zsum y <= zsum w.
Proof.
  intros [(Hlx & Hx0 & Hxc) Hopt] Hy Hxy.
  pose proof (ilp_lp_feasible _ _ _ Hy) as Hyq.
  assert (Hlen : length x = length y) by (by eapply Forall2_length).
  pose proof (step_of_pos x) as He.
  assert (Hz : lp_feasible m constraints (nudge (step_of x) x y)).
  { split_and!.
    - unfold nudge. rewrite length_zip_with. lia.
    - apply nudge_nonneg; [lra | apply step_of_le | done..].
    - destruct Hyq as (_ & _ & Hyc).
      rewrite Forall_forall in Hxc, Hyc |- *. intros c Hc.
      rewrite dotQ_nudge, (Hxc c Hc), (Hyc c Hc) by done. ring. }
  pose proof (Hopt _ Hz) as H1. rewrite qsum_nudge in H1 by done.
  pose proof (Hopt _ Hyq) as H2.
  rewrite qsum_injZ in H1, H2.
  assert (Heq : (qsum x == inject_Z (zsum y))%Q) by nra.
  split; [done |]. intros w Hw.
  pose proof (Hopt _ (ilp_lp_feasible _ _ _ Hw)) as H3.
  rewrite qsum_injZ, Heq in H3. by rewrite Zle_Qle.
Qed.

(** The three rounding modes. *)
Lemma Qfloor_rounds : rounds Qfloor.
Proof.
  intros q. pose proof (Qfloor_le q). pose proof (Qlt_floor q) as Hlt.
  rewrite inject_Z_plus in Hlt. change (inject_Z 1) with 1%Q in Hlt.
  split; [| lra].
  intros Hq. rewrite Hq. apply (Qfloor_Z 0).
Qed.

Lemma Qceiling_rounds : rounds Qceiling.
Proof.
  intros q. pose proof (Qle_ceiling q). pose proof (Qceiling_lt q) as Hlt.
  unfold Z.sub in Hlt. rewrite inject_Z_plus in Hlt.
  change (inject_Z (- (1))) with (-1)%Q in Hlt. split; [| lra].
  intros Hq. rewrite Hq. apply (Qceiling_Z 0).
Qed.

Lemma Qround_even_rounds : rounds Qround_even.
Proof.
  intros q. pose proof (Qfloor_le q). pose proof (Qlt_floor q) as Hlt.
  rewrite inject_Z_plus in Hlt. change (inject_Z 1) with 1%Q in Hlt.
  unfold Qround_even. split.
  - intros Hq.
    assert (Qfloor q = 0) as -> by (rewrite Hq; apply (Qfloor_Z 0)).
    change (inject_Z 0) with 0%Q.
    destruct (Qcompare_spec (q - 0) (1 # 2)); [lra | done | lra].
  - destruct (Qcompare_spec (q - inject_Z (Qfloor q)) (1 # 2));
      [destruct (Z.even _) | |]; rewrite ?inject_Z_plus;
      change (inject_Z 1) with 1%Q; lra.
Qed.

Lemma rounds_Forall2 rnd x :
  rounds rnd →
  Forall2 (λ q z, ((q == 0)%Q → z = 0) ∧ (-1 <= inject_Z z - q <= 1)%Q) x (map rnd x).
Proof.
  intros H. induction x as [| q x IH]; simpl; constructor; [apply H | done].
Qed.

(** ** The matrix of [solve_joltage] *)

Lemma set_one_spec A i j :
  (i < length A)%nat →
  ∃ A', set_one A i j = Some A' ∧ length A' = length A ∧
    ∀ i', nth i' A' [] = if decide (i' = i) then <[j := 1]> (nth i A []) else nth i' A [].
Proof.
  intros Hi. unfold set_one. rewrite decide_True by done.
  eexists. split_and!; [done | by rewrite length_insert |].
  intros i'. rewrite nth_insert_row.
  destruct (decide (i' = i)) as [-> | Hne].
  - by rewrite decide_True.
  - rewrite decide_False; [done |]. intros [-> _]. done.
Qed.

Lemma mark_button_spec A j button :
  Forall (λ i, (i < length A)%nat) button →
  ∃ A', mark_button A j button = Some A' ∧ length A' = length A ∧
    ∀ i, nth i A' [] = if bool_decide (i ∈ button) then <[j := 1]> (nth i A []) else nth i A [].
Proof.
  intros H. revert A H. induction button as [| i0 rest IH]; intros A H.
  - exists A. split_and!; done.
  - apply Forall_cons in H as [Hi0 Hrest].
    destruct (set_one_spec A i0 j Hi0) as (A1 & E1 & Hlen1 & Hrow1).
    destruct (IH A1) as (A2 & E2 & Hlen2 & Hrow2); [by rewrite Hlen1 |].
    exists A2. cbn [mark_button]. rewrite E1. simpl. rewrite E2.
    split_and!; [done | congruence |]. intros i. rewrite Hrow2, Hrow1.
    destruct (decide (i = i0)) as [-> | Hne].
    + rewrite (bool_decide_eq_true_2 (i0 ∈ i0 :: rest)) by left.
      destruct (bool_decide (i0 ∈ rest)); [| done].
      by rewrite list_insert_insert_eq.
    + destruct (bool_decide (i ∈ rest)) eqn:E.
      * apply bool_decide_eq_true in E.
        by rewrite (bool_decide_eq_true_2 (i ∈ i0 :: rest)) by (by right).
      * apply bool_decide_eq_false in E.
        rewrite (bool_decide_eq_false_2 (i ∈ i0 :: rest)); [done |].
        rewrite elem_of_cons. tauto.
Qed.

Lemma mark_buttons_spec A seen rest :
  wf_buttons (length A) rest →
  (∀ i, (i < length A)%nat → nth i A [] = marks seen i ++ replicate (length rest) 0) →
  ∃ A', mark_buttons A (length seen) rest = Some A' ∧ length A' = length A ∧
    ∀ i, (i < length A)%nat → nth i A' [] = marks (seen ++ rest) i.
Proof.
  intros Hwf. revert A seen Hwf.
  induction rest as [| button rest IH]; intros A seen Hwf HA.
  - exists A. split_and!; [done.. |]. intros i Hi.
    rewrite HA by done. simpl. by rewrite !app_nil_r.
  - apply Forall_cons in Hwf as [Hb Hrest].
    destruct (mark_button_spec A (length seen) button Hb) as (A1 & E1 & Hlen1 & Hrow1).
    destruct (IH A1 (seen ++ [button])) as (A2 & E2 & Hlen2 & Hrow2).
    + by rewrite Hlen1.
    + intros i Hi. rewrite Hlen1 in Hi. rewrite Hrow1, HA by done.
      unfold marks. rewrite map_app. simpl. rewrite <- app_assoc. simpl.
      destruct (bool_decide (i ∈ button)); [| done].
      rewrite insert_app_r_alt by (rewrite length_map; lia).
      by rewrite length_map, Nat.sub_diag.
    + exists A2. cbn [mark_buttons]. rewrite E1. simpl.
      rewrite length_app, Nat.add_1_r in E2. rewrite E2.
      split_and!; [done | congruence |]. intros i Hi.
      rewrite Hrow2 by congruence. by rewrite <- app_assoc.
Qed.

Lemma joltage_matrix_spec n buttons :
  wf_buttons n buttons →
  ∃ A, joltage_matrix n buttons = Some A ∧ length A = n ∧
       ∀ i, (i < n)%nat → nth i A [] = marks buttons i.
Proof.
  intros Hwf. unfold joltage_matrix.
  destruct (mark_buttons_spec (replicate n (replicate (length buttons) 0)) [] buttons)
    as (A & E & Hlen & Hrow).
  - by rewrite length_replicate.
  - intros i Hi. rewrite length_replicate in Hi. simpl.
    rewrite nth_lookup, lookup_replicate_2; done.
  - rewrite length_replicate in Hlen, Hrow. exists A. done.
Qed.

(** ** [accepts] and the integer program *)

Lemma matvec_zip A x b :
  length A = length b →
  matvec A x = b ↔ Forall (λ c, dotZ (fst c) x = snd c) (zip A b).
Proof.
  unfold matvec. revert b. induction A as [| row A IH]; intros [| t b] Hlen; simplify_eq/=.
  - split; [constructor | done].
  - rewrite Forall_cons. simpl. rewrite <- IH by done. split.
    + by intros [= -> ->].
    + by intros [-> ->].
Qed.

Lemma accepts_feasible A x b :
  length A = length b →
  accepts A x b = true ↔ ilp_feasible (length x) (zip A b) x.
Proof.
  intros Hlen. unfold accepts, ilp_feasible.
  rewrite andb_true_iff, bool_decide_eq_true, matvec_zip by done. split.
  - intros [H1 H2]. split_and!; [done | | done].
    apply Forall_forall. intros v Hv. apply Z.leb_le.
    rewrite forallb_forall in H2. by apply H2, list_elem_of_In.
  - intros (_ & H1 & H2). split; [done |].
    apply forallb_forall. intros v Hv. apply Z.leb_le.
    rewrite Forall_forall in H1. by apply H1, list_elem_of_In.
Qed.

(** ** [solve_joltage] against the integer program it builds *)

Lemma fast_path_optimal rnd A target x_lp :
  rounds rnd → length A = length target →
  lp_contract (length x_lp) (zip A target) (Some x_lp) →
  accepts A (map rnd x_lp) target = true →
  least_sum (ilp_feasible (length x_lp) (zip A target)) (zsum (map rnd x_lp)).
Proof.
  intros Hrnd Hlen Hlp Hacc. apply accepts_feasible in Hacc; [| done].
  rewrite length_map in Hacc.
  destruct (rounded_candidate_optimal _ _ _ _ Hlp Hacc (rounds_Forall2 rnd x_lp Hrnd))
    as [_ Hmin].
  split; [by exists (map rnd x_lp) | done].
Qed.

Lemma ilp_contract_least m constraints answer :
  ilp_contract m constraints answer →
  match answer with
  | Some x => least_sum (ilp_feasible m constraints) (zsum x)
  | None => ∀ y, ¬ ilp_feasible m constraints y
  end.
Proof.
  destruct answer as [x |]; [| done]. intros [Hx Hmin].
  split; [by exists x | done].
Qed.

Lemma call_linprog_buttons linprog (buttons : list (list nat)) A target :
  buttons ≠ [] →
  call_linprog linprog (length buttons) A target = Some (linprog A target).
Proof. intros Hne. unfold call_linprog. by destruct buttons. Qed.


Lemma Qtruncate_inject_Z q z : (q == inject_Z z)%Q → Qtruncate q = z.
Proof.
  intros H. unfold Qtruncate. destruct (Qlt_le_dec q 0); rewrite H.
  - apply Qceiling_Z.
  - apply Qfloor_Z.
Qed.

Lemma Qtruncate_exact y : Qtruncate (qsum (injZ y)) = zsum y.
Proof. apply Qtruncate_inject_Z, qsum_injZ. Qed.

Lemma milp_contract_least m constraints result :
  milp_contract m constraints result →
  match result with
  | Some x => least_sum (ilp_feasible m constraints) (Qtruncate (qsum x))
  | None => ∀ y, ¬ ilp_feasible m constraints y
  end.
Proof.
  intros (answer & -> & H). apply ilp_contract_least in H.
  destruct answer as [y |]; simpl; [| done]. by rewrite Qtruncate_exact.
Qed.

Lemma solve_joltage_spec linprog milp target buttons A :
  buttons ≠ [] →
  joltage_matrix (length target) buttons = Some A → length A = length target →
  lp_contract (length buttons) (zip A target) (linprog A target) →
  milp_contract (length buttons) (zip A target) (milp A target) →
  match solve_joltage linprog milp target buttons with
  | Some (Int R) => least_sum (ilp_feasible (length buttons) (zip A target)) R
  | Some Inf => ∀ y, ¬ ilp_feasible (length buttons) (zip A target) y
  | None => False
  end.
Proof.
  intros Hne EA Hlen Hlp Hilp. unfold solve_joltage. rewrite EA. simpl.
  rewrite call_linprog_buttons by done. simpl.
  destruct (linprog A target) as [x_lp |] eqn:Elp.
  2: { intros y Hy. apply (Hlp (injZ y)). by apply ilp_lp_feasible. }
  assert (Hlx : length x_lp = length buttons) by apply Hlp.
  rewrite Hlx, Nat.eqb_refl. simpl. rewrite <- Hlx in Hlp |- *.
  destruct (accepts A (map Qround_even x_lp) target) eqn:E1.
  { by apply fast_path_optimal; [apply Qround_even_rounds | ..]. }
  destruct (accepts A (map Qceiling x_lp) target) eqn:E2.
  { by apply fast_path_optimal; [apply Qceiling_rounds | ..]. }
  destruct (accepts A (map Qfloor x_lp) target) eqn:E3.
  { by apply fast_path_optimal; [apply Qfloor_rounds | ..]. }
  rewrite <- Hlx in Hilp. apply milp_contract_least in Hilp.
  by destruct (milp A target).
Qed.

Lemma solve_joltage_without_rounding_spec linprog milp target buttons A :
  buttons ≠ [] →
  joltage_matrix (length target) buttons = Some A →
  lp_contract (length buttons) (zip A target) (linprog A target) →
  milp_contract (length buttons) (zip A target) (milp A target) →
  match solve_joltage_without_rounding linprog milp target buttons with
  | Some (Int R) => least_sum (ilp_feasible (length buttons) (zip A target)) R
  | Some Inf => ∀ y, ¬ ilp_feasible (length buttons) (zip A target) y
  | None => False
  end.
Proof.
  intros Hne EA Hlp Hilp. unfold solve_joltage_without_rounding. rewrite EA. simpl.
  rewrite call_linprog_buttons by done. simpl.
  destruct (linprog A target) as [x_lp |] eqn:Elp.
  2: { intros y Hy. apply (Hlp (injZ y)). by apply ilp_lp_feasible. }
  apply milp_contract_least in Hilp. by destruct (milp A target).
Qed.

(** ** [parse_line_part2] and [solve_machine_minpresses] *)

Lemma count_row_spec row btn :
  Forall (λ i, (i < length row)%nat) btn →
  ∃ row', count_row row btn = Some row' ∧ length row' = length row ∧
    ∀ i, get row' i = get row i + Z.of_nat (count_occ Nat.eq_dec btn i).
Proof.
  intros H. revert row H. induction btn as [| idx rest IH]; intros row H.
  - exists row. split_and!; [done.. |]. intros i. simpl. lia.
  - apply Forall_cons in H as [Hidx Hrest].
    cbn [count_row]. unfold bump at 1. rewrite decide_True by done. simpl.
    destruct (IH (<[idx := get row idx + 1]> row)) as (row' & E & Hlen & Hget);
      [by rewrite length_insert |].
    exists row'. rewrite length_insert in Hlen. split_and!; [done.. |].
    intros i. rewrite Hget, get_insert. cbn [count_occ].
    destruct (Nat.eq_dec idx i) as [-> | Hne].
    + rewrite decide_True by done. lia.
    + rewrite decide_False by (intros [? _]; done). lia.
Qed.

Lemma parse_line_part2_spec target buttons :
  wf_buttons (length target) buttons →
  ∃ A, parse_line_part2 target buttons = Some (target, A) ∧
       count_rows (length target) buttons A.
Proof.
  intros Hwf. unfold parse_line_part2.
  assert (∃ A, mapM (count_row (replicate (length target) 0)) buttons = Some A ∧
               count_rows (length target) buttons A) as (A & -> & HA);
    [| by exists A].
  induction Hwf as [| button rest Hb Hrest (A & E & HA)].
  - exists []. split; [done | constructor].
  - destruct (count_row_spec (replicate (length target) 0) button) as (row & Er & Hlen & Hget).
    { by rewrite length_replicate. }
    exists (row :: A). cbn [mapM]. rewrite Er. simpl. rewrite E. simpl.
    split; [done |]. constructor; [| done]. split.
    + by rewrite Hlen, length_replicate.
    + intros i. by rewrite Hget, get_replicate.
Qed.

Lemma count_rows_length n buttons A :
  count_rows n buttons A →
  length A = length buttons ∧ Forall (λ row, length row = n) A.
Proof.
  induction 1 as [| button row rest A [Hlen _] _ [IH1 IH2]]; [done |].
  split; [simpl; congruence | by constructor].
Qed.

Lemma constraint_spec target A j :
  Forall (λ row, length row = length target) A → (j < length target)%nat →
  constraint target A j = Some (map (λ row, get row j) A, get target j).
Proof.
  intros HA Hj. unfold constraint.
  assert (mapM (λ row : list Z, row !! j) A = Some (map (λ row, get row j) A)) as ->.
  { induction HA as [| row A Hrow HA IH]; [done |]. cbn [mapM map].
    destruct (lookup_lt_is_Some_2 row j) as [v Hv]; [lia |].
    rewrite Hv, IH. simpl. unfold get. by rewrite nth_lookup, Hv. }
  simpl. destruct (lookup_lt_is_Some_2 target j Hj) as [t Ht].
  rewrite Ht. simpl. unfold get. by rewrite (nth_lookup target), Ht.
Qed.

Lemma minpresses_constraints_spec target buttons A :
  buttons ≠ [] → count_rows (length target) buttons A →
  minpresses_constraints target A =
    Some (map (λ j, (map (λ row, get row j) A, get target j)) (seq 0 (length target))).
Proof.
  intros Hne HA. destruct (count_rows_length _ _ _ HA) as [HlA Hrows].
  unfold minpresses_constraints. destruct A as [| row0 A'].
  { destruct buttons; [done | simpl in HlA; lia]. }
  assert (length row0 = length target) as -> by (by apply Forall_cons in Hrows as [? _]).
  unfold range. generalize (row0 :: A') Hrows. intros A Hrows'.
  assert (Hall : Forall (λ j, (j < length target)%nat) (seq 0 (length target))).
  { apply Forall_forall. intros j Hj%elem_of_seq. lia. }
  induction Hall as [| j l Hj Hl IH]; [done |].
  cbn [mapM map]. rewrite constraint_spec by done. simpl. by rewrite IH.
Qed.

Lemma dotZ_column n buttons A x j :
  count_rows n buttons A →
  dotZ (map (λ row, get row j) A) x = hits buttons x j.
Proof.
  unfold dotZ, hits. intros HA. revert x.
  induction HA as [| button row rest A [Hlen Hget] _ IH]; intros x; [done |].
  destruct x as [| xj x]; [done |]. cbn [map zip_with zsum foldr].
  fold (zsum (zip_with Z.mul (map (λ row, get row j) A) x)).
  rewrite IH, Hget. unfold zsum. lia.
Qed.

Lemma minpresses_feasible target buttons A x :
  count_rows (length target) buttons A →
  ilp_feasible (length A)
    (map (λ j, (map (λ row, get row j) A, get target j)) (seq 0 (length target))) x ↔
  counter_solution target buttons x.
Proof.
  intros HA. destruct (count_rows_length _ _ _ HA) as [HlA _].
  unfold ilp_feasible, counter_solution. rewrite HlA.
  split; intros (Hlen & Hpos & H); (split_and!; [done.. |]).
  - intros i Hi. rewrite Forall_fmap, Forall_forall in H.
    specialize (H i). simpl in H.
    rewrite (dotZ_column _ buttons) in H by done. apply H, elem_of_seq. lia.
  - rewrite Forall_fmap, Forall_forall.
    intros j Hj%elem_of_seq. simpl. rewrite (dotZ_column _ buttons) by done.
    apply H. lia.
Qed.

(** [parse_line_part2] followed by [solve_machine_minpresses], on a machine
    with at least one button, given an answer of CBC that meets the
    contract. *)
Lemma minpresses_machine_spec cbc target buttons :
  buttons ≠ [] → wf_buttons (length target) buttons →
  cbc_meets_contract cbc target buttons →
  ∃ A, parse_line_part2 target buttons = Some (target, A) ∧
    match solve_machine_minpresses cbc target A with
    | Some (Int R) => least_sum (counter_solution target buttons) R
    | Some Inf => False
    | None => ∀ x, ¬ counter_solution target buttons x
    end.
Proof.
  intros Hne Hwf Hcbc.
  destruct (parse_line_part2_spec target buttons Hwf) as (A & E & HA).
  exists A. split; [done |].
  pose proof (minpresses_constraints_spec target buttons A Hne HA) as Ec.
  specialize (Hcbc A _ E Ec). apply ilp_contract_least in Hcbc.
  unfold solve_machine_minpresses. rewrite Ec. simpl.
  destruct (cbc (length A) _) as [x |].
  - eapply least_sum_iff; [| exact Hcbc]. intros y. by apply minpresses_feasible.
  - intros y Hy. apply (Hcbc y). by apply (minpresses_feasible target buttons).
Qed.

(** ** The program of [solve_joltage] and the increment system *)

Lemma count_occ_NoDup (button : list nat) i :
  NoDup button →
  Z.of_nat (count_occ Nat.eq_dec button i) = if bool_decide (i ∈ button) then 1 else 0.
Proof.
  intros Hnd. apply NoDup_ListNoDup in Hnd. case_bool_decide as Hin.
  - apply list_elem_of_In in Hin.
    by rewrite (proj1 (NoDup_count_occ' Nat.eq_dec button) Hnd i Hin).
  - rewrite list_elem_of_In in Hin.
    by rewrite (proj1 (count_occ_not_In Nat.eq_dec button i) Hin).
Qed.

Lemma dotZ_marks buttons x i :
  distinct_indices buttons → dotZ (marks buttons i) x = hits buttons x i.
Proof.
  unfold dotZ, hits, marks. intros Hnd. revert x.
  induction Hnd as [| button rest Hb _ IH]; intros x; [done |].
  destruct x as [| xj x]; [done |]. cbn [map zip_with zsum foldr].
  fold (zsum (zip_with Z.mul (map (λ b : list nat, if bool_decide (i ∈ b) then 1 else 0) rest) x)).
  rewrite IH, count_occ_NoDup by done. unfold zsum. lia.
Qed.

Lemma Forall_zip_nth (P : list Z * Z → Prop) (A : list (list Z)) (b : list Z) :
  length A = length b →
  Forall P (zip A b) ↔ ∀ i, (i < length b)%nat → P (nth i A [], get b i).
Proof.
  revert b. induction A as [| row A IH]; intros [| t b] Hlen; simplify_eq/=.
  - split; [intros _ i Hi; lia | constructor].
  - rewrite Forall_cons, IH by done. split.
    + intros [H0 H] [| i] Hi; [done |]. apply H. lia.
    + intros H. split; [apply (H 0%nat); lia |].
      intros i Hi. apply (H (S i)). lia.
Qed.

Lemma joltage_program_counter target buttons A x :
  joltage_matrix (length target) buttons = Some A →
  wf_buttons (length target) buttons → distinct_indices buttons →
  ilp_feasible (length buttons) (zip A target) x ↔ counter_solution target buttons x.
Proof.
  intros EA Hwf Hnd.
  destruct (joltage_matrix_spec _ _ Hwf) as (A' & EA' & Hlen & Hrow).
  assert (A' = A) as -> by congruence.
  unfold ilp_feasible, counter_solution.
  rewrite Forall_zip_nth by done.
  split; intros (Hlx & Hpos & H); (split_and!; [done.. |]); intros i Hi;
    specialize (H i Hi); simpl in *; rewrite Hrow, dotZ_marks in *; done.
Qed.

(** ** Weights, and the all-zero press vector *)

Lemma zsum_ones x : Forall is_bit x → zsum x = ones x.
Proof.
  unfold ones. induction 1 as [| b x Hb Hx IH]; [done |].
  cbn [zsum foldr count_occ]. fold (zsum x). rewrite IH.
  destruct Hb as [-> | ->]; simpl; lia.
Qed.

Lemma least_sum_ones target buttons R :
  least_sum (toggle_solution target buttons) R ↔
  least_ones (toggle_solution target buttons) R.
Proof.
  unfold least_sum, least_ones. split; intros [(x & Hx & Hs) Hmin]; split.
  - exists x. split; [done |]. rewrite <- zsum_ones; [done | apply Hx].
  - intros y Hy. rewrite <- zsum_ones; [by apply Hmin | apply Hy].
  - exists x. split; [done |]. rewrite zsum_ones; [done | apply Hx].
  - intros y Hy. rewrite zsum_ones; [by apply Hmin | apply Hy].
Qed.

Lemma zsum_replicate_0 m : zsum (replicate m 0) = 0.
Proof. induction m as [| m IH]; [done |]. simpl. by rewrite IH. Qed.

Lemma zsum_nonneg x : Forall (λ v, 0 <= v) x → 0 <= zsum x.
Proof. induction 1 as [| v x Hv Hx IH]; simpl; lia. Qed.

Lemma hits_replicate_0 buttons i : hits buttons (replicate (length buttons) 0) i = 0.
Proof.
  unfold hits. induction buttons as [| button rest IH]; [done |].
  simpl. by rewrite IH.
Qed.

Lemma toggle_solution_zeros n buttons :
  toggle_solution (replicate n 0) buttons (replicate (length buttons) 0).
Proof.
  split_and!.
  - apply length_replicate.
  - apply Forall_replicate. by left.
  - intros i _. by rewrite hits_replicate_0, get_replicate.
Qed.

Lemma counter_solution_zeros n buttons :
  counter_solution (replicate n 0) buttons (replicate (length buttons) 0).
Proof.
  split_and!.
  - apply length_replicate.
  - by apply Forall_replicate.
  - intros i _. by rewrite hits_replicate_0, get_replicate.
Qed.

Lemma least_sum_zero_toggle n buttons R :
  least_sum (toggle_solution (replicate n 0) buttons) R → R = 0.
Proof.
  intros [(x & Hx & <-) Hmin].
  specialize (Hmin _ (toggle_solution_zeros n buttons)).
  rewrite zsum_replicate_0 in Hmin.
  destruct Hx as (_ & Hb & _).
  assert (0 <= zsum x); [| lia]. apply zsum_nonneg.
  eapply Forall_impl; [exact Hb |]. intros v Hv. simpl. apply is_bit_range in Hv. lia.
Qed.

Lemma least_sum_zero_counter n buttons R :
  least_sum (counter_solution (replicate n 0) buttons) R → R = 0.
Proof.
  intros [(x & Hx & <-) Hmin].
  specialize (Hmin _ (counter_solution_zeros n buttons)).
  rewrite zsum_replicate_0 in Hmin.
  destruct Hx as (_ & Hb & _).
  assert (0 <= zsum x); [| lia]. by apply zsum_nonneg.
Qed.

(** ** The shape of the matrix of [solve_joltage] *)

Lemma mark_button_length A j button A' :
  mark_button A j button = Some A' → length A' = length A.
Proof.
  revert A. induction button as [| i rest IH]; intros A; cbn [mark_button].
  - by intros [= ->].
  - unfold set_one at 1. case_decide; [| done]. simpl.
    intros Hr%IH. by rewrite length_insert in Hr.
Qed.

Lemma mark_buttons_length A j buttons A' :
  mark_buttons A j buttons = Some A' → length A' = length A.
Proof.
  revert A j. induction buttons as [| button rest IH]; intros A j; cbn [mark_buttons].
  - by intros [= ->].
  - destruct (mark_button A j button) as [A1 |] eqn:E; [| done]. simpl.
    intros H%IH. apply mark_button_length in E. congruence.
Qed.

Lemma joltage_matrix_length n buttons A :
  joltage_matrix n buttons = Some A → length A = n.
Proof.
  unfold joltage_matrix. intros H%mark_buttons_length.
  by rewrite length_replicate in H.
Qed.

Lemma solve_joltage_raises linprog milp target buttons :
  joltage_matrix (length target) buttons = None →
  solve_joltage linprog milp target buttons = None.
Proof. intros H. unfold solve_joltage. by rewrite H. Qed.

(** ** [solve_joltage] returns, and returns [inf] on an infeasible program *)

Lemma solve_joltage_returns linprog milp target buttons :
  buttons ≠ [] → wf_buttons (length target) buttons →
  linprog_meets_contract linprog target buttons →
  milp_meets_contract milp target buttons →
  ∃ v, solve_joltage linprog milp target buttons = Some v.
Proof.
  intros Hne Hwf Hlp Hilp.
  destruct (joltage_matrix_spec _ _ Hwf) as (A & EA & HlA & _).
  pose proof (solve_joltage_spec linprog milp target buttons A Hne EA HlA
                (Hlp A EA) (Hilp A EA)) as H.
  destruct (solve_joltage linprog milp target buttons) as [v |]; [eauto | done].
Qed.

Lemma solve_joltage_infeasible linprog milp target buttons :
  buttons ≠ [] → wf_buttons (length target) buttons →
  linprog_meets_contract linprog target buttons →
  milp_meets_contract milp target buttons →
  relaxation_infeasible target buttons ∨ program_infeasible target buttons →
  solve_joltage linprog milp target buttons = Some Inf.
Proof.
  intros Hne Hwf Hlp Hilp Hinf.
  destruct (joltage_matrix_spec _ _ Hwf) as (A & EA & HlA & _).
  pose proof (solve_joltage_spec linprog milp target buttons A Hne EA HlA
                (Hlp A EA) (Hilp A EA)) as H.
  destruct (solve_joltage linprog milp target buttons) as [[R |] |]; [| done..].
  destruct H as [(x & Hx & _) _]. destruct Hinf as [Hinf | Hinf].
  - destruct (Hinf A (injZ x) EA). by apply ilp_lp_feasible.
  - destruct (Hinf x). by exists A.
Qed.

(** * The properties of the specification *)

(** Closes a goal [Forall is_bit l] or [wf_buttons n l] on a literal list. *)
Ltac solve_literal :=
  unfold wf_buttons;
  repeat first
    [ apply Forall_nil_2
    | apply Forall_cons_2
    | (left; reflexivity)
    | (right; reflexivity)
    | (simpl; lia) ].

(** Closes a goal [distinct_indices l] on a literal list. *)
Ltac solve_distinct :=
  unfold distinct_indices;
  repeat first [ apply Forall_nil_2 | apply Forall_cons_2 ];
  apply NoDup_ListNoDup;
  repeat (constructor; [simpl; intuition lia |]); constructor.

(** ** C1 *)

(** X22.  For every machine whose toggle system is feasible, [solve_gf2]
    returns the minimum Hamming weight [R]: some press vector of bits with
    exactly [R] ones hits every light with the parity of its target bit,
    and none with fewer ones does.  When the machine has at least one
    button, [gf2_solve_minweight], run on the matrix of [parse_line_part1],
    returns the same [R]. *)
Theorem binary_solver_minimum_weight (target : list Z) (buttons : list (list nat)) :
  Forall is_bit target → wf_buttons (length target) buttons →
  (∃ x, toggle_solution target buttons x) →
  ∃ R, least_ones (toggle_solution target buttons) R ∧
       solve_gf2 target buttons = Some (Int R) ∧
       (buttons ≠ [] →
        ∃ A, parse_line_part1 target buttons = Some (target, A) ∧
             gf2_solve_minweight target A = Some (Int R)).
Proof.
  intros Hb Hwf [x Hx].
  destruct (solve_gf2_spec target buttons Hwf) as (R & E & [HR | [_ Hno]]);
    [| by destruct (Hno x)].
  exists R. split_and!; [by apply least_sum_ones | done |].
  intros Hne.
  destruct (gf2_machine_spec target buttons Hne Hb Hwf)
    as (A & EA & [(R' & ER & HR') | [_ Hno]]); [| by destruct (Hno x)].
  exists A. split; [done |]. by rewrite (least_sum_unique _ _ _ HR HR').
Qed.

(** The single-machine scenario of the spec: [.##.] with the buttons
    [(3) (1,3) (2) (2,3) (0,2) (0,1)], solved by pressing [(0,2)] and [(0,1)]. *)
Lemma binary_solver_minimum_weight_witness :
  ∃ R, least_ones (toggle_solution [0;1;1;0]
                     [[3]; [1;3]; [2]; [2;3]; [0;2]; [0;1]]%nat) R ∧
       solve_gf2 [0;1;1;0] [[3]; [1;3]; [2]; [2;3]; [0;2]; [0;1]]%nat = Some (Int R) ∧
       ([[3]; [1;3]; [2]; [2;3]; [0;2]; [0;1]]%nat ≠ [] →
        ∃ A, parse_line_part1 [0;1;1;0] [[3]; [1;3]; [2]; [2;3]; [0;2]; [0;1]]%nat
               = Some ([0;1;1;0], A) ∧
             gf2_solve_minweight [0;1;1;0] A = Some (Int R)).
Proof.
  apply (binary_solver_minimum_weight [0;1;1;0]
           [[3]; [1;3]; [2]; [2;3]; [0;2]; [0;1]]%nat).
  - solve_literal.
  - solve_literal.
  - exists [0;0;0;0;1;1]. split_and!; [reflexivity | solve_literal |].
    intros i Hi. destruct i as [| [| [| [| i]]]]; try reflexivity. simpl in Hi. lia.
Defined.

(** C1, the failing input.  The line [[.] {0}] has one light, switched
    off, and no button.  Its toggle system is feasible and the minimum
    Hamming weight is 0 (press nothing), which is what [solve_gf2] returns;
    but [parse_line_part1] hands [gf2_solve_minweight] the empty matrix,
    whose shape [(0,)] the unguarded [m, n = A.shape] cannot unpack: the
    Binary Solver raises instead of returning 0. *)
Theorem binary_solver_raises_without_buttons :
  parse_machine ["["; "."; "]"; " "; "{"; "0"; "}"]%char = Some ([0], []) ∧
  parse_line_part1_text ["["; "."; "]"; " "; "{"; "0"; "}"]%char = Some ([0], []) ∧
  least_ones (toggle_solution [0] []) 0 ∧
  solve_gf2 [0] [] = Some (Int 0) ∧
  parse_line_part1 [0] [] = Some ([0], []) ∧
  gf2_solve_minweight [0] [] = None ∧
  compute_total_part1 [([0], [])] = None.
Proof.
  split_and!; try reflexivity.
  split.
  - exists []. split; [| reflexivity]. exact (toggle_solution_zeros 1 []).
  - intros x _. unfold ones. lia.
Qed.

(** ** C3 *)

(** C3, as amended.  For every machine with at least one button whose
    toggle system is feasible, [solve_gf2] and [gf2_solve_minweight] return
    the same value; on an infeasible system [solve_gf2] returns 0 and
    [gf2_solve_minweight] returns [inf]. *)
Theorem oracle_agrees_with_elimination (target : list Z) (buttons : list (list nat)) :
  buttons ≠ [] → Forall is_bit target → wf_buttons (length target) buttons →
  ∃ A, parse_line_part1 target buttons = Some (target, A) ∧
    ((∃ x, toggle_solution target buttons x) →
       solve_gf2 target buttons = gf2_solve_minweight target A) ∧
    ((∀ x, ¬ toggle_solution target buttons x) →
       solve_gf2 target buttons = Some (Int 0) ∧
       gf2_solve_minweight target A = Some Inf).
Proof.
  intros Hne Hb Hwf.
  destruct (gf2_machine_spec target buttons Hne Hb Hwf) as (A & EA & HA).
  destruct (solve_gf2_spec target buttons Hwf) as (R & E & HR).
  exists A. split_and!; [done | |].
  - intros [x Hx].
    destruct HR as [HR | [_ Hno]]; [| by destruct (Hno x)].
    destruct HA as [(R' & ER & HR') | [_ Hno]]; [| by destruct (Hno x)].
    by rewrite E, ER, (least_sum_unique _ _ _ HR HR').
  - intros Hno.
    destruct HR as [[(x & Hx & _) _] | [-> _]]; [by destruct (Hno x) |].
    destruct HA as [(R' & _ & [(x & Hx & _) _]) | [EInf _]]; [by destruct (Hno x) |].
    done.
Qed.

Lemma oracle_agrees_with_elimination_witness :
  ∃ A, parse_line_part1 [0;1;1;0] [[3]; [1;3]; [2]; [2;3]; [0;2]; [0;1]]%nat
         = Some ([0;1;1;0], A) ∧
    ((∃ x, toggle_solution [0;1;1;0] [[3]; [1;3]; [2]; [2;3]; [0;2]; [0;1]]%nat x) →
       solve_gf2 [0;1;1;0] [[3]; [1;3]; [2]; [2;3]; [0;2]; [0;1]]%nat
         = gf2_solve_minweight [0;1;1;0] A) ∧
    ((∀ x, ¬ toggle_solution [0;1;1;0] [[3]; [1;3]; [2]; [2;3]; [0;2]; [0;1]]%nat x) →
       solve_gf2 [0;1;1;0] [[3]; [1;3]; [2]; [2;3]; [0;2]; [0;1]]%nat = Some (Int 0) ∧
       gf2_solve_minweight [0;1;1;0] A = Some Inf).
Proof.
  apply (oracle_agrees_with_elimination [0;1;1;0]
           [[3]; [1;3]; [2]; [2;3]; [0;2]; [0;1]]%nat).
  - discriminate.
  - solve_literal.
  - solve_literal.
Defined.

(** Two lights, the second one to be switched on, and one button for the
    first light: no press vector reaches the target, [solve_gf2] returns 0
    and [gf2_solve_minweight] returns [inf].  With no button at all
    [solve_gf2] returns 0 and [gf2_solve_minweight] raises. *)
Lemma oracle_disagrees_when_infeasible :
  (solve_gf2 [0;1] [[0%nat]] = Some (Int 0) ∧
   parse_line_part1 [0;1] [[0%nat]] = Some ([0;1], [[1;0]]) ∧
   gf2_solve_minweight [0;1] [[1;0]] = Some Inf) ∧
  (solve_gf2 [0] [] = Some (Int 0) ∧
   parse_line_part1 [0] [] = Some ([0], []) ∧
   gf2_solve_minweight [0] [] = None).
Proof. vm_compute. done. Qed.

(** ** C4 *)

(** C4, as amended.  On a machine with no solution: [solve_gf2] returns 0
    when no press vector reaches the target lights; when no non-negative
    integer press counts reach the target counters,
    [solve_machine_minpresses] (run on the matrix of [parse_line_part2])
    raises, whereas [solve_joltage] returns [float('inf')], on a machine
    with at least one button, none of which lists an index twice.  The
    external solvers meet their contracts on the machine's program. *)
Theorem infeasible_machine_policies (linprog : lp_solver) (milp : ilp_solver)
    (cbc : cbc_solver)
    (target_bits target_counts : list Z) (buttons : list (list nat)) :
  wf_buttons (length target_bits) buttons →
  wf_buttons (length target_counts) buttons →
  linprog_meets_contract linprog target_counts buttons →
  milp_meets_contract milp target_counts buttons →
  cbc_meets_contract cbc target_counts buttons →
  ((∀ x, ¬ toggle_solution target_bits buttons x) →
     solve_gf2 target_bits buttons = Some (Int 0)) ∧
  ((∀ x, ¬ counter_solution target_counts buttons x) →
     (∃ A, parse_line_part2 target_counts buttons = Some (target_counts, A) ∧
           solve_machine_minpresses cbc target_counts A = None) ∧
     (buttons ≠ [] → distinct_indices buttons →
      solve_joltage linprog milp target_counts buttons = Some Inf)).
Proof.
  intros Hwf1 Hwf2 Hlp Hilp Hcbc. split.
  - intros Hno.
    destruct (solve_gf2_spec target_bits buttons Hwf1)
      as (R & E & [[(x & Hx & _) _] | [-> _]]); [by destruct (Hno x) | done].
  - intros Hno. split.
    + destruct buttons as [| button rest]; [by exists [] |].
      destruct (minpresses_machine_spec cbc target_counts (button :: rest))
        as (A & EA & HA); [done.. |].
      exists A. split; [done |].
      destruct (solve_machine_minpresses cbc target_counts A) as [[R |] |];
        [| done..].
      destruct HA as [(x & Hx & _) _]. by destruct (Hno x).
    + intros Hne Hnd. apply solve_joltage_infeasible; [done.. |]. right.
      intros x (A & EA & Hx). apply (Hno x).
      by apply (joltage_program_counter target_counts buttons A x EA Hwf2 Hnd).
Qed.

Lemma no_counter_solution_example : ∀ x, ¬ counter_solution [0;1] [[0%nat]] x.
Proof.
  intros x (Hl & _ & H). destruct x as [| x0 [| ? ?]]; try discriminate.
  specialize (H 1%nat ltac:(simpl; lia)). unfold hits in H. simpl in H.
  rewrite Z.mul_0_r in H. discriminate.
Qed.

Lemma no_contract_answers_example :
  linprog_meets_contract (λ _ _, None) [0;1] [[0%nat]] ∧
  milp_meets_contract (λ _ _, None) [0;1] [[0%nat]] ∧
  cbc_meets_contract (λ _ _, None) [0;1] [[0%nat]].
Proof.
  split_and!.
  - intros A HA. vm_compute in HA. injection HA as <-.
    intros y (Hl & Hpos & Hy). destruct y as [| q [| ? ?]]; try discriminate.
    simpl in Hy. apply Forall_cons in Hy as [_ Hy]. apply Forall_inv in Hy.
    unfold dotQ in Hy. simpl in *. unfold inject_Z in *. lra.
  - intros A HA. vm_compute in HA. injection HA as <-.
    exists None. split; [reflexivity |].
    intros y (Hl & Hpos & Hy). destruct y as [| z [| ? ?]]; try discriminate.
    simpl in Hy. apply Forall_cons in Hy as [_ Hy]. apply Forall_inv in Hy.
    unfold dotZ in Hy. simpl in *. lia.
  - intros A constraints HA Hc. vm_compute in HA. injection HA as <-.
    vm_compute in Hc. injection Hc as <-.
    intros y (Hl & _ & Hy). destruct y as [| y0 [| ? ?]]; try discriminate.
    apply Forall_cons in Hy as [_ Hy]. apply Forall_cons in Hy as [Hy _].
    vm_compute in Hy. destruct y0; discriminate.
Qed.

(** Two lights and two counters, one button for index 0 only: the second
    light cannot be switched on and the second counter cannot be raised. *)
Lemma infeasible_machine_policies_witness :
  solve_gf2 [0;1] [[0%nat]] = Some (Int 0) ∧
  (∃ A, parse_line_part2 [0;1] [[0%nat]] = Some ([0;1], A) ∧
        solve_machine_minpresses (λ _ _, None) [0;1] A = None) ∧
  solve_joltage (λ _ _, None) (λ _ _, None) [0;1] [[0%nat]] = Some Inf.
Proof.
  destruct no_contract_answers_example as (Hlp & Hilp & Hcbc).
  destruct (infeasible_machine_policies (λ _ _, None) (λ _ _, None) (λ _ _, None)
              [0;1] [0;1] [[0%nat]]) as [H1 H2]; [solve_literal | solve_literal | done.. |].
  destruct (H2 no_counter_solution_example) as [H3 H4].
  split_and!.
  - apply H1. intros x (Hl & _ & H). destruct x as [| x0 [| ? ?]]; try discriminate.
    specialize (H 1%nat ltac:(simpl; lia)). unfold hits in H. simpl in H.
    rewrite Z.mul_0_r in H. discriminate.
  - exact H3.
  - apply H4; [discriminate | solve_distinct].
Defined.

(** The same machine, the line [[.#] (0) {0,1}]: its integer program is
    infeasible, and [solve_joltage] raises nothing; it returns
    [float('inf')], whatever solvers meet their contracts. *)
Lemma counter_solver_returns_infinity :
  parse_machine ["["; "."; "#"; "]"; " "; "("; "0"; ")"; " "; "{"; "0"; ","; "1"; "}"]%char
    = Some ([0;1], [[0%nat]]) ∧
  parse_joltage ["["; "."; "#"; "]"; " "; "("; "0"; ")"; " "; "{"; "0"; ","; "1"; "}"]%char
    = Some [0;1] ∧
  (∀ x, ¬ counter_solution [0;1] [[0%nat]] x) ∧
  (∀ linprog milp,
     linprog_meets_contract linprog [0;1] [[0%nat]] →
     milp_meets_contract milp [0;1] [[0%nat]] →
     solve_joltage linprog milp [0;1] [[0%nat]] = Some Inf) ∧
  linprog_meets_contract (λ _ _, None) [0;1] [[0%nat]] ∧
  milp_meets_contract (λ _ _, None) [0;1] [[0%nat]] ∧
  solve_joltage (λ _ _, None) (λ _ _, None) [0;1] [[0%nat]] = Some Inf.
Proof.
  split_and!; try reflexivity.
  - exact no_counter_solution_example.
  - intros linprog milp Hlp Hilp.
    apply solve_joltage_infeasible; [discriminate | solve_literal | done.. |].
    right. intros x (A & EA & Hx). apply (no_counter_solution_example x).
    apply (joltage_program_counter [0;1] [[0%nat]] A x EA); [solve_literal | | done].
    solve_distinct.
  - apply no_contract_answers_example.
  - apply no_contract_answers_example.
Qed.

(** ** C5 *)



(** ** C7 *)

Lemma zeros_replicate (target : list Z) :
  Forall (λ t, t = 0) target → target = replicate (length target) 0.
Proof. induction 1 as [| t l -> _ IH]; [done |]. simpl. by rewrite <- IH. Qed.

Lemma dotZ_zeros row m : dotZ row (replicate m 0) = 0.
Proof.
  unfold dotZ. revert m. induction row as [| a row IH]; intros [| m]; simpl; try done.
  rewrite IH. lia.
Qed.

Lemma ilp_feasible_zeros m A target :
  length A = length target → Forall (λ t, t = 0) target →
  ilp_feasible m (zip A target) (replicate m 0).
Proof.
  intros Hlen H0. split_and!.
  - apply length_replicate.
  - by apply Forall_replicate.
  - apply Forall_zip_nth; [done |]. intros i Hi. simpl. rewrite dotZ_zeros.
    rewrite (zeros_replicate target H0). by rewrite get_replicate.
Qed.

Lemma qsum_zero_all x :
  Forall (λ q, (0 <= q)%Q) x → (qsum x <= 0)%Q → Forall (λ q, (q == 0)%Q) x.
Proof.
  induction 1 as [| q x Hq Hx IH]; intros Hs; [constructor |]. simpl in Hs.
  assert (0 <= qsum x)%Q as Hpos.
  { clear -Hx. induction Hx as [| q' x' Hq' _ IH']; simpl; lra. }
  constructor; [lra | apply IH; lra].
Qed.

Lemma qsum_injZ_zeros m : (qsum (injZ (replicate m 0%Z)) == 0)%Q.
Proof. rewrite qsum_injZ, zsum_replicate_0. reflexivity. Qed.

(** On an all-zero target the relaxation has the single optimum 0, which
    round-to-nearest leaves in place, and [solve_joltage] returns at once. *)
Lemma solve_joltage_zero linprog milp target buttons :
  buttons ≠ [] →
  wf_buttons (length target) buttons → Forall (λ t, t = 0) target →
  linprog_meets_contract linprog target buttons →
  solve_joltage linprog milp target buttons = Some (Int 0).
Proof.
  intros Hne Hwf H0 Hlp.
  destruct (joltage_matrix_spec _ _ Hwf) as (A & EA & HlA & _).
  specialize (Hlp A EA). unfold solve_joltage. rewrite EA. simpl.
  rewrite call_linprog_buttons by done. simpl.
  pose proof (ilp_feasible_zeros (length buttons) A target HlA H0) as Hz.
  destruct (linprog A target) as [x_lp |].
  2: { destruct (Hlp _ (ilp_lp_feasible _ _ _ Hz)). }
  destruct Hlp as [(Hlx & Hpos & _) Hopt].
  rewrite Hlx, Nat.eqb_refl. simpl.
  specialize (Hopt _ (ilp_lp_feasible _ _ _ Hz)). rewrite qsum_injZ_zeros in Hopt.
  pose proof (qsum_zero_all x_lp Hpos Hopt) as Hall.
  assert (map Qround_even x_lp = replicate (length buttons) 0) as ->.
  { rewrite <- Hlx. clear -Hall. induction Hall as [| q x Hq _ IH]; [done |].
    simpl. rewrite IH. f_equal. by apply Qround_even_rounds. }
  rewrite (proj2 (accepts_feasible A _ target HlA)).
  - by rewrite zsum_replicate_0.
  - by rewrite length_replicate.
Qed.

(** X24.  On a machine with at least one button and an all-zero target,
    every solver returns 0: [solve_gf2], [solve_joltage], and
    [gf2_solve_minweight] and [solve_machine_minpresses] on the matrices of
    [parse_line_part1] and [parse_line_part2].  With no button [solve_gf2]
    still returns 0. *)
Theorem all_zero_target_costs_nothing (linprog : lp_solver) (milp : ilp_solver)
    (cbc : cbc_solver) (target : list Z) (buttons : list (list nat)) :
  wf_buttons (length target) buttons → Forall (λ t, t = 0) target →
  linprog_meets_contract linprog target buttons →
  cbc_meets_contract cbc target buttons →
  solve_gf2 target buttons = Some (Int 0) ∧
  (buttons ≠ [] →
     solve_joltage linprog milp target buttons = Some (Int 0) ∧
     (∃ A, parse_line_part1 target buttons = Some (target, A) ∧
           gf2_solve_minweight target A = Some (Int 0)) ∧
     (∃ A, parse_line_part2 target buttons = Some (target, A) ∧
           solve_machine_minpresses cbc target A = Some (Int 0))).
Proof.
  intros Hwf H0 Hlp Hcbc.
  pose proof (zeros_replicate target H0) as Et.
  assert (Hb : Forall is_bit target).
  { eapply Forall_impl; [exact H0 |]. intros t ->. by left. }
  pose proof (toggle_solution_zeros (length target) buttons) as Hsol.
  rewrite <- Et in Hsol.
  pose proof (counter_solution_zeros (length target) buttons) as Hcsol.
  rewrite <- Et in Hcsol.
  split.
  - destruct (solve_gf2_spec target buttons Hwf) as (R & E & [HR | [_ Hno]]);
      [| by destruct (Hno _ Hsol)].
    rewrite Et in HR. apply least_sum_zero_toggle in HR. by subst R.
  - intros Hne. split_and!.
    + by apply solve_joltage_zero.
    + destruct (gf2_machine_spec target buttons Hne Hb Hwf)
        as (A & EA & [(R & ER & HR) | [_ Hno]]); [| by destruct (Hno _ Hsol)].
      exists A. split; [done |].
      rewrite Et in HR. apply least_sum_zero_toggle in HR. by subst R.
    + destruct (minpresses_machine_spec cbc target buttons Hne Hwf Hcbc)
        as (A & EA & HA).
      exists A. split; [done |].
      destruct (solve_machine_minpresses cbc target A) as [[R |] |]; [| done |].
      * rewrite Et in HA. apply least_sum_zero_counter in HA. by subst R.
      * by destruct (HA _ Hcsol).
Qed.

(** Two indices, both with target 0, and one button listing both. *)
Lemma all_zero_target_costs_nothing_witness :
  solve_gf2 [0;0] [[0;1]]%nat = Some (Int 0) ∧
  solve_joltage (λ _ _, Some [inject_Z 0]) (λ _ _, None) [0;0] [[0;1]]%nat = Some (Int 0) ∧
  (∃ A, parse_line_part1 [0;0] [[0;1]]%nat = Some ([0;0], A) ∧
        gf2_solve_minweight [0;0] A = Some (Int 0)) ∧
  (∃ A, parse_line_part2 [0;0] [[0;1]]%nat = Some ([0;0], A) ∧
        solve_machine_minpresses (λ _ _, Some [0]) [0;0] A = Some (Int 0)).
Proof.
  destruct (all_zero_target_costs_nothing (λ _ _, Some [inject_Z 0]) (λ _ _, None)
              (λ _ _, Some [0]) [0;0] [[0;1]]%nat) as [H1 H2].
  - solve_literal.
  - repeat constructor.
  - intros A HA. vm_compute in HA. injection HA as <-. split.
    + split_and!; [reflexivity | | ].
      * apply Forall_singleton. discriminate.
      * repeat constructor.
    + intros y (Hl & Hpos & Hy). destruct y as [| q [| ? ?]]; try discriminate.
      apply Forall_inv in Hpos. simpl in *. unfold inject_Z in *. lra.
  - intros A constraints HA Hc. vm_compute in HA. injection HA as <-.
    vm_compute in Hc. injection Hc as <-. split.
    + split_and!; [reflexivity | | ].
      * apply Forall_singleton. discriminate.
      * repeat constructor.
    + intros y (Hl & Hpos & Hy). destruct y as [| z [| ? ?]]; try discriminate.
      apply Forall_inv in Hpos. simpl in *. lia.
  - split; [exact H1 | apply H2; discriminate].
Defined.

Lemma counter_solution_no_button (target : list Z) :
  Forall (λ t, t = 0) target → counter_solution target [] [].
Proof.
  intros H0. split_and!; [done | constructor |]. intros i _.
  rewrite (zeros_replicate target H0). by rewrite get_replicate.
Qed.

(** C7, the failing input.  The line [[.] {0}] has one light, switched
    off, one counter, at 0, and no button: the target is all-zero under
    both models and pressing nothing reaches it.  [solve_gf2] returns 0; the
    three other solvers raise: [gf2_solve_minweight] on unpacking the shape
    of the empty matrix, [solve_joltage] in [linprog], which rejects an
    objective without entries, and [solve_machine_minpresses] on
    [len(A[0])]. *)
Theorem all_zero_target_raises_without_buttons :
  parse_machine ["["; "."; "]"; " "; "{"; "0"; "}"]%char = Some ([0], []) ∧
  parse_joltage ["["; "."; "]"; " "; "{"; "0"; "}"]%char = Some [0] ∧
  toggle_solution [0] [] [] ∧ counter_solution [0] [] [] ∧
  solve_gf2 [0] [] = Some (Int 0) ∧
  parse_line_part1 [0] [] = Some ([0], []) ∧
  gf2_solve_minweight [0] [] = None ∧
  (∀ linprog milp, solve_joltage linprog milp [0] [] = None) ∧
  parse_line_part2 [0] [] = Some ([0], []) ∧
  (∀ cbc, solve_machine_minpresses cbc [0] [] = None).
Proof.
  split_and!; try reflexivity.
  - pose proof (toggle_solution_zeros 1 []) as H. exact H.
  - apply counter_solution_no_button. by repeat constructor.
Qed.

(** ** C9 *)

Lemma solve_joltage_deterministic linprog1 milp1 linprog2 milp2 target buttons :
  linprog_meets_contract linprog1 target buttons →
  milp_meets_contract milp1 target buttons →
  linprog_meets_contract linprog2 target buttons →
  milp_meets_contract milp2 target buttons →
  solve_joltage linprog1 milp1 target buttons =
  solve_joltage linprog2 milp2 target buttons.
Proof.
  intros Hl1 Hm1 Hl2 Hm2.
  destruct (decide (buttons = [])) as [-> | Hne]; [reflexivity |].
  destruct (joltage_matrix (length target) buttons) as [A |] eqn:EA.
  2: { by rewrite !solve_joltage_raises. }
  pose proof (joltage_matrix_length _ _ _ EA) as HlA.
  pose proof (solve_joltage_spec linprog1 milp1 target buttons A Hne EA HlA
                (Hl1 A EA) (Hm1 A EA)) as H1.
  pose proof (solve_joltage_spec linprog2 milp2 target buttons A Hne EA HlA
                (Hl2 A EA) (Hm2 A EA)) as H2.
  destruct (solve_joltage linprog1 milp1 target buttons) as [[R1 |] |];
    destruct (solve_joltage linprog2 milp2 target buttons) as [[R2 |] |];
    try done.
  - by rewrite (least_sum_unique _ _ _ H1 H2).
  - destruct H1 as [(x & Hx & _) _]. by destruct (H2 x).
  - destruct H2 as [(x & Hx & _) _]. by destruct (H1 x).
Qed.

(** C9.  Solving the same machine twice yields the same value.
    [gf2_solve_minweight] calls no solver and keeps no state, so any two of
    its runs return the same result.  Two runs of [solve_joltage] may be
    answered differently by the external solvers (another optimum of the
    relaxation, another optimum of the integer program); as long as each
    answer meets the solver's contract the returned value is the same. *)
Theorem solvers_deterministic (linprog1 linprog2 : lp_solver) (milp1 milp2 : ilp_solver)
    (target_bits : list Z) (A : list (list Z))
    (target : list Z) (buttons : list (list nat)) :
  linprog_meets_contract linprog1 target buttons →
  milp_meets_contract milp1 target buttons →
  linprog_meets_contract linprog2 target buttons →
  milp_meets_contract milp2 target buttons →
  (∀ run1 run2, run1 = gf2_solve_minweight target_bits A →
                run2 = gf2_solve_minweight target_bits A → run1 = run2) ∧
  solve_joltage linprog1 milp1 target buttons =
  solve_joltage linprog2 milp2 target buttons.
Proof.
  intros Hl1 Hm1 Hl2 Hm2. split.
  - intros run1 run2 -> ->. reflexivity.
  - by apply solve_joltage_deterministic.
Qed.

(** One counter to be brought to 2 and two buttons for it.  The first run
    is answered with the vertex [(2, 0)]; the second with the optimum
    [(1/2, 3/2)] of the relaxation, which round-to-nearest turns into the
    feasible [(0, 2)]. *)
Lemma solvers_deterministic_witness :
  (∀ run1 run2, run1 = gf2_solve_minweight [1] [[1]; [1]] →
                run2 = gf2_solve_minweight [1] [[1]; [1]] → run1 = run2) ∧
  solve_joltage (λ _ _, Some [inject_Z 2; inject_Z 0])
                (λ _ _, Some [inject_Z 2; inject_Z 0])
                [2] [[0]; [0]]%nat =
  solve_joltage (λ _ _, Some [1 # 2; 3 # 2]%Q)
                (λ _ _, Some [inject_Z 0; inject_Z 2])
                [2] [[0]; [0]]%nat.
Proof.
  apply (solvers_deterministic
           (λ _ _, Some [inject_Z 2; inject_Z 0]) (λ _ _, Some [1 # 2; 3 # 2]%Q)
           (λ _ _, Some [inject_Z 2; inject_Z 0])
           (λ _ _, Some [inject_Z 0; inject_Z 2])
           [1] [[1]; [1]] [2] [[0]; [0]]%nat).
  - intros A HA. vm_compute in HA. injection HA as <-. split.
    + split_and!; [reflexivity | repeat constructor; discriminate | repeat constructor].
    + intros y (Hl & Hpos & Hy). destruct y as [| q0 [| q1 [| ? ?]]]; try discriminate.
      simpl in Hy. apply Forall_inv in Hy. unfold dotQ in Hy. simpl in *.
      unfold inject_Z in *. lra.
  - intros A HA. vm_compute in HA. injection HA as <-.
    exists (Some [2; 0]). split; [reflexivity |]. split.
    + split_and!; [reflexivity | repeat constructor; discriminate | repeat constructor].
    + intros y (Hl & Hpos & Hy). destruct y as [| z0 [| z1 [| ? ?]]]; try discriminate.
      simpl in Hy. apply Forall_inv in Hy. unfold dotZ in Hy. simpl in *. lia.
  - intros A HA. vm_compute in HA. injection HA as <-. split.
    + split_and!; [reflexivity | repeat constructor; discriminate | repeat constructor].
    + intros y (Hl & Hpos & Hy). destruct y as [| q0 [| q1 [| ? ?]]]; try discriminate.
      simpl in Hy. apply Forall_inv in Hy. unfold dotQ in Hy. simpl in *.
      unfold inject_Z in *. lra.
  - intros A HA. vm_compute in HA. injection HA as <-.
    exists (Some [0; 2]). split; [reflexivity |]. split.
    + split_and!; [reflexivity | repeat constructor; discriminate | repeat constructor].
    + intros y (Hl & Hpos & Hy). destruct y as [| z0 [| z1 [| ? ?]]]; try discriminate.
      simpl in Hy. apply Forall_inv in Hy. unfold dotZ in Hy. simpl in *. lia.
Defined.

(** ** C10 *)

Lemma num_add_Inf_r total : num_add total Inf = Inf.
Proof. by destruct total. Qed.

Lemma solve_part2_from_Inf linprog milp machines :
  Forall (λ mc, ∃ v, solve_joltage linprog milp mc.1 mc.2 = Some v) machines →
  solve_part2_from linprog milp machines Inf = Some Inf.
Proof.
  induction 1 as [| [t b] rest [v Hv] _ IH]; [done |].
  cbn [solve_part2_from]. simpl in Hv. rewrite Hv. simpl. done.
Qed.

Lemma solve_part2_from_poisoned linprog milp machines total :
  Forall (λ mc, ∃ v, solve_joltage linprog milp mc.1 mc.2 = Some v) machines →
  Exists (λ mc, solve_joltage linprog milp mc.1 mc.2 = Some Inf) machines →
  solve_part2_from linprog milp machines total = Some Inf.
Proof.
  intros Hall Hex. revert total.
  induction Hall as [| [t b] rest [v Hv] Hrest IH]; intros total.
  - by apply Exists_nil in Hex.
  - cbn [solve_part2_from]. simpl in Hv. rewrite Hv. simpl.
    apply Exists_cons in Hex as [Hinf | Hex].
    + simpl in Hinf. assert (v = Inf) as -> by congruence.
      rewrite num_add_Inf_r. by apply solve_part2_from_Inf.
    + by apply IH.
Qed.

(** X25.  On machines with at least one button each: when the program of
    a machine is infeasible (its relaxation, or the integer program, has no
    solution), [solve_joltage] returns [float('inf')] and does not raise,
    and [solve_part2] adds it into the running total: the part-2 answer is
    [inf].  The machines are well-formed and the external solvers meet
    their contracts on each. *)
Theorem infeasible_machine_yields_infinity (linprog : lp_solver) (milp : ilp_solver)
    (machines : list (list Z * list (list nat)))
    (target : list Z) (buttons : list (list nat)) :
  Forall (λ mc, mc.2 ≠ [] ∧ wf_buttons (length mc.1) mc.2 ∧
                linprog_meets_contract linprog mc.1 mc.2 ∧
                milp_meets_contract milp mc.1 mc.2) machines →
  (target, buttons) ∈ machines →
  relaxation_infeasible target buttons ∨ program_infeasible target buttons →
  solve_joltage linprog milp target buttons = Some Inf ∧
  solve_part2 linprog milp machines = Some Inf.
Proof.
  intros Hall Hin Hinf.
  assert (Hres : solve_joltage linprog milp target buttons = Some Inf).
  { rewrite Forall_forall in Hall. destruct (Hall _ Hin) as (Hne & Hwf & Hlp & Hilp).
    by apply solve_joltage_infeasible. }
  split; [done |]. apply solve_part2_from_poisoned.
  - eapply Forall_impl; [exact Hall |]. intros [t b] (Hne & Hwf & Hlp & Hilp).
    by apply solve_joltage_returns.
  - apply Exists_exists. by exists (target, buttons).
Qed.

(** A feasible machine (one counter at 3, one button) followed by an
    infeasible one (the second counter has no button). *)
Lemma infeasible_machine_yields_infinity_witness :
  solve_joltage (λ _ b, if bool_decide (b = [3]) then Some [inject_Z 3] else None)
                (λ _ b, if bool_decide (b = [3]) then Some [inject_Z 3] else None)
                [0;1] [[0%nat]] = Some Inf ∧
  solve_part2 (λ _ b, if bool_decide (b = [3]) then Some [inject_Z 3] else None)
              (λ _ b, if bool_decide (b = [3]) then Some [inject_Z 3] else None)
              [([3], [[0%nat]]); ([0;1], [[0%nat]])] = Some Inf.
Proof.
  apply (infeasible_machine_yields_infinity
           (λ _ b, if bool_decide (b = [3]) then Some [inject_Z 3] else None)
           (λ _ b, if bool_decide (b = [3]) then Some [inject_Z 3] else None)
           [([3], [[0%nat]]); ([0;1], [[0%nat]])] [0;1] [[0%nat]]).
  - apply Forall_cons_2; [| apply Forall_cons_2; [| apply Forall_nil_2]]; simpl.
    + split_and!; [discriminate | solve_literal | |].
      * intros A HA. vm_compute in HA. injection HA as <-. split.
        -- split_and!; [reflexivity | repeat constructor; discriminate | repeat constructor].
        -- intros y (Hl & Hpos & Hy). destruct y as [| q [| ? ?]]; try discriminate.
           simpl in Hy. apply Forall_inv in Hy. unfold dotQ in Hy. simpl in *.
           unfold inject_Z in *. lra.
      * intros A HA. vm_compute in HA. injection HA as <-.
        exists (Some [3]). split; [reflexivity |]. split.
        -- split_and!; [reflexivity | repeat constructor; discriminate | repeat constructor].
        -- intros y (Hl & Hpos & Hy). destruct y as [| z [| ? ?]]; try discriminate.
           simpl in Hy. apply Forall_inv in Hy. unfold dotZ in Hy. simpl in *. lia.
    + split_and!; [discriminate | solve_literal | |].
      * intros A HA. vm_compute in HA. injection HA as <-.
        intros y (Hl & Hpos & Hy). destruct y as [| q [| ? ?]]; try discriminate.
        simpl in Hy. apply Forall_cons in Hy as [_ Hy]. apply Forall_inv in Hy.
        unfold dotQ in Hy. simpl in *. unfold inject_Z in *. lra.
      * intros A HA. vm_compute in HA. injection HA as <-.
        exists None. split; [reflexivity |].
        intros y (Hl & Hpos & Hy). destruct y as [| z [| ? ?]]; try discriminate.
        simpl in Hy. apply Forall_cons in Hy as [_ Hy]. apply Forall_inv in Hy.
        unfold dotZ in Hy. simpl in *. lia.
  - right. left.
  - right. intros x (A & HA & (Hl & Hpos & Hy)). vm_compute in HA. injection HA as <-.
    destruct x as [| z [| ? ?]]; try discriminate.
    simpl in Hy. apply Forall_cons in Hy as [_ Hy]. apply Forall_inv in Hy.
    unfold dotZ in Hy. simpl in *. lia.
Defined.

(** C10, the failing input.  The line [[#] {3}] has one counter, at 3, and
    no button: neither the relaxation nor the integer program has a
    solution.  [solve_joltage] does not return [float('inf')]: the call of
    [linprog] raises on the objective without entries, whatever the
    solvers are, and [solve_part2] ends with that exception instead of the
    total [inf]. *)
Theorem infeasible_without_buttons_raises :
  parse_machine ["["; "#"; "]"; " "; "{"; "3"; "}"]%char = Some ([1], []) ∧
  parse_joltage ["["; "#"; "]"; " "; "{"; "3"; "}"]%char = Some [3] ∧
  relaxation_infeasible [3] [] ∧ program_infeasible [3] [] ∧
  (∀ x, ¬ counter_solution [3] [] x) ∧
  (∀ linprog milp, solve_joltage linprog milp [3] [] = None) ∧
  (∀ linprog milp, solve_part2 linprog milp [([3], [])] = None) ∧
  (∀ linprog milp,
     solve_part2_text linprog milp ["["; "#"; "]"; " "; "{"; "3"; "}"]%char = None).
Proof.
  split_and!; try reflexivity.
  - intros A y HA (Hl & _ & Hy). vm_compute in HA. injection HA as <-.
    destruct y; [| discriminate]. apply Forall_inv in Hy. vm_compute in Hy.
    discriminate.
  - intros x (A & HA & Hl & _ & Hy). vm_compute in HA. injection HA as <-.
    destruct x; [| discriminate]. apply Forall_inv in Hy. vm_compute in Hy.
    discriminate.
  - intros x (Hl & _ & H). destruct x; [| discriminate].
    specialize (H 0%nat ltac:(simpl; lia)). vm_compute in H. discriminate.
Qed.

(** ** The counter solvers against the increment system *)

Lemma solve_joltage_counter linprog milp target buttons R :
  buttons ≠ [] →
  wf_buttons (length target) buttons → distinct_indices buttons →
  linprog_meets_contract linprog target buttons →
  milp_meets_contract milp target buttons →
  least_sum (counter_solution target buttons) R →
  solve_joltage linprog milp target buttons = Some (Int R).
Proof.
  intros Hne Hwf Hnd Hlp Hilp HR.
  destruct (joltage_matrix_spec _ _ Hwf) as (A & EA & HlA & _).
  pose proof (solve_joltage_spec linprog milp target buttons A Hne EA HlA
                (Hlp A EA) (Hilp A EA)) as H.
  assert (Heq : ∀ x, ilp_feasible (length buttons) (zip A target) x ↔
                     counter_solution target buttons x).
  { intros x. by apply joltage_program_counter. }
  destruct (solve_joltage linprog milp target buttons) as [[R' |] |]; [| | done].
  - apply (least_sum_iff _ _ _ Heq) in H. by rewrite (least_sum_unique _ _ _ H HR).
  - destruct HR as [(x & Hx & _) _]. destruct (H x). by apply Heq.
Qed.

Lemma minpresses_counter cbc target buttons R :
  buttons ≠ [] → wf_buttons (length target) buttons →
  cbc_meets_contract cbc target buttons →
  least_sum (counter_solution target buttons) R →
  ∃ A, parse_line_part2 target buttons = Some (target, A) ∧
       solve_machine_minpresses cbc target A = Some (Int R).
Proof.
  intros Hne Hwf Hcbc HR.
  destruct (minpresses_machine_spec cbc target buttons Hne Hwf Hcbc) as (A & EA & HA).
  exists A. split; [done |].
  destruct (solve_machine_minpresses cbc target A) as [[R' |] |]; [| done |].
  - by rewrite (least_sum_unique _ _ _ HA HR).
  - destruct HR as [(x & Hx & _) _]. by destruct (HA x).
Qed.

(** ** C8 *)

(** Splits a vector of a known length into its entries and reads the
    equations of a counter system off it. *)
Ltac counter_equations H :=
  repeat match goal with
         | Hpos : Forall _ (_ :: _) |- _ => apply Forall_cons in Hpos as [? Hpos]
         end;
  repeat match type of H with
         | ∀ i, (i < length ?t)%nat → _ =>
             let n := eval compute in (length t) in
             let rec go k :=
               lazymatch k with
               | O => idtac
               | S ?k' =>
                   let Hk := fresh "Heq" in
                   pose proof (H k' ltac:(simpl; lia)) as Hk;
                   unfold hits, get in Hk; cbn in Hk; go k'
               end in
             go n; clear H
         end.

Lemma example_least_1 :
  least_sum (counter_solution [3;5;4;7] [[3]; [1;3]; [2]; [2;3]; [0;2]; [0;1]]%nat) 10.
Proof.
  split.
  - exists [1;2;0;4;0;3]. split; [| reflexivity].
    split_and!; [reflexivity | repeat (constructor; [lia |]); constructor |].
    intros i Hi. destruct i as [| [| [| [| i]]]]; try reflexivity. simpl in Hi. lia.
  - intros x (Hl & Hpos & H).
    destruct x as [| x0 [| x1 [| x2 [| x3 [| x4 [| x5 [| ? ?]]]]]]]; try discriminate.
    counter_equations H. simpl. lia.
Qed.

Lemma example_least_2 :
  least_sum (counter_solution [7;5;12;7;2]
               [[0;2;3;4]; [2;3]; [0;4]; [0;1;2]; [1;2;3;4]]%nat) 12.
Proof.
  split.
  - exists [2;5;0;5;0]. split; [| reflexivity].
    split_and!; [reflexivity | repeat (constructor; [lia |]); constructor |].
    intros i Hi. destruct i as [| [| [| [| [| i]]]]]; try reflexivity. simpl in Hi. lia.
  - intros x (Hl & Hpos & H).
    destruct x as [| x0 [| x1 [| x2 [| x3 [| x4 [| ? ?]]]]]]; try discriminate.
    counter_equations H. simpl. lia.
Qed.

Lemma example_least_3 :
  least_sum (counter_solution [10;11;11;5;10;5]
               [[0;1;2;3;4]; [0;3;4]; [0;1;2;4;5]; [1;2]]%nat) 11.
Proof.
  split.
  - exists [5;0;5;1]. split; [| reflexivity].
    split_and!; [reflexivity | repeat (constructor; [lia |]); constructor |].
    intros i Hi. destruct i as [| [| [| [| [| [| i]]]]]]; try reflexivity. simpl in Hi. lia.
  - intros x (Hl & Hpos & H).
    destruct x as [| x0 [| x1 [| x2 [| x3 [| ? ?]]]]]; try discriminate.
    counter_equations H. simpl. lia.
Qed.

(** C8.  On the three example lines the binary solvers' minima sum to 7
    (for [solve_part1] and for [compute_total_part1]) and the counter
    solvers' minima sum to 33 (for [solve_part2] and for
    [compute_total_part2]), the external solvers meeting their contracts on
    the three programs. *)
Theorem example_totals (linprog : lp_solver) (milp : ilp_solver) (cbc : cbc_solver) :
  Forall (λ mc, linprog_meets_contract linprog mc.1 mc.2 ∧
                milp_meets_contract milp mc.1 mc.2 ∧
                cbc_meets_contract cbc mc.1 mc.2) example_counts →
  solve_part1 example_bits = Some (Int 7) ∧
  compute_total_part1 example_bits = Some (Int 7) ∧
  solve_part2 linprog milp example_counts = Some (Int 33) ∧
  compute_total_part2 cbc example_counts = Some (Int 33).
Proof.
  intros Hall. unfold example_counts, example_buttons in Hall. cbn [zip zip_with] in Hall.
  apply Forall_cons in Hall as [(Hl1 & Hm1 & Hc1) Hall].
  apply Forall_cons in Hall as [(Hl2 & Hm2 & Hc2) Hall].
  apply Forall_cons in Hall as [(Hl3 & Hm3 & Hc3) _].
  cbn [fst snd] in *.
  split_and!.
  - vm_compute. reflexivity.
  - vm_compute. reflexivity.
  - assert (E1 : solve_joltage linprog milp [3;5;4;7]
                   [[3]; [1;3]; [2]; [2;3]; [0;2]; [0;1]]%nat = Some (Int 10)).
    { apply solve_joltage_counter;
        [discriminate | solve_literal | solve_distinct | done | done
        | exact example_least_1]. }
    assert (E2 : solve_joltage linprog milp [7;5;12;7;2]
                   [[0;2;3;4]; [2;3]; [0;4]; [0;1;2]; [1;2;3;4]]%nat = Some (Int 12)).
    { apply solve_joltage_counter;
        [discriminate | solve_literal | solve_distinct | done | done
        | exact example_least_2]. }
    assert (E3 : solve_joltage linprog milp [10;11;11;5;10;5]
                   [[0;1;2;3;4]; [0;3;4]; [0;1;2;4;5]; [1;2]]%nat = Some (Int 11)).
    { apply solve_joltage_counter;
        [discriminate | solve_literal | solve_distinct | done | done
        | exact example_least_3]. }
    unfold solve_part2, example_counts, example_buttons.
    cbn [zip zip_with solve_part2_from].
    rewrite E1. cbn [mbind option_bind]. rewrite E2. cbn [mbind option_bind].
    rewrite E3. reflexivity.
  - unfold compute_total_part2, example_counts, example_buttons.
    cbn [zip zip_with compute_total_part2_from].
    destruct (λ Hne Hwf, minpresses_counter cbc _ _ 10 Hne Hwf Hc1 example_least_1)
      as (A1 & -> & E1); [done | solve_literal |].
    cbn [mbind option_bind]. rewrite E1. cbn [mbind option_bind].
    destruct (λ Hne Hwf, minpresses_counter cbc _ _ 12 Hne Hwf Hc2 example_least_2)
      as (A2 & -> & E2); [done | solve_literal |].
    cbn [mbind option_bind]. rewrite E2. cbn [mbind option_bind].
    destruct (λ Hne Hwf, minpresses_counter cbc _ _ 11 Hne Hwf Hc3 example_least_3)
      as (A3 & -> & E3); [done | solve_literal |].
    cbn [mbind option_bind]. rewrite E3. reflexivity.
Qed.

Ltac split_vector y := repeat (destruct y as [| ? y]; try discriminate).

Ltac split_foralls :=
  repeat match goal with
         | H : Forall _ (_ :: _) |- _ => apply Forall_cons in H as [? H]
         end.

Ltac example_lp_contract :=
  let A := fresh "A" in let HA := fresh "HA" in
  let y := fresh "y" in let Hl := fresh "Hl" in
  let Hpos := fresh "Hpos" in let Hy := fresh "Hy" in
  intros A HA; vm_compute in HA; injection HA as <-; split;
  [ split_and!;
    [ reflexivity
    | repeat (apply Forall_cons_2; [discriminate |]); apply Forall_nil_2
    | repeat (apply Forall_cons_2; [reflexivity |]); apply Forall_nil_2 ]
  | intros y (Hl & Hpos & Hy); split_vector y; simpl in Hy; split_foralls;
    unfold dotQ in *; simpl in *; unfold inject_Z in *; lra ].

Ltac ilp_contract_for answer :=
  let A := fresh "A" in let HA := fresh "HA" in
  let y := fresh "y" in let Hl := fresh "Hl" in
  let Hpos := fresh "Hpos" in let Hy := fresh "Hy" in
  intros A HA; vm_compute in HA; injection HA as <-;
  exists (Some answer); split; [reflexivity |]; split;
  [ split_and!;
    [ reflexivity
    | repeat (apply Forall_cons_2; [discriminate |]); apply Forall_nil_2
    | repeat (apply Forall_cons_2; [reflexivity |]); apply Forall_nil_2 ]
  | intros y (Hl & Hpos & Hy); split_vector y; simpl in Hy; split_foralls;
    unfold dotZ in *; simpl in *; lia ].

Ltac example_ilp_contract :=
  lazymatch goal with
  | |- milp_meets_contract example_milp ?t _ =>
      let y := eval vm_compute in (example_optimum t) in
      lazymatch y with Some ?v => ilp_contract_for v end
  end.

Ltac example_cbc_contract :=
  let A := fresh "A" in let HA := fresh "HA" in
  let cs := fresh "cs" in let Hc := fresh "Hc" in
  let y := fresh "y" in let Hl := fresh "Hl" in
  let Hpos := fresh "Hpos" in let Hy := fresh "Hy" in
  intros A cs HA Hc; vm_compute in HA; injection HA as <-;
  vm_compute in Hc; injection Hc as <-; split;
  [ split_and!;
    [ reflexivity
    | repeat (apply Forall_cons_2; [discriminate |]); apply Forall_nil_2
    | repeat (apply Forall_cons_2; [reflexivity |]); apply Forall_nil_2 ]
  | intros y (Hl & Hpos & Hy); split_vector y; split_foralls;
    unfold dotZ in *; simpl in *; lia ].

Lemma example_totals_witness :
  solve_part1 example_bits = Some (Int 7) ∧
  compute_total_part1 example_bits = Some (Int 7) ∧
  solve_part2 example_linprog example_milp example_counts = Some (Int 33) ∧
  compute_total_part2 example_cbc example_counts = Some (Int 33).
Proof.
  apply (example_totals example_linprog example_milp example_cbc).
  unfold example_counts, example_buttons. cbn [zip zip_with].
  repeat (apply Forall_cons_2; [cbn [fst snd]; split_and! |]); [.. | apply Forall_nil_2].
  - example_lp_contract.
  - example_ilp_contract.
  - example_cbc_contract.
  - example_lp_contract.
  - example_ilp_contract.
  - example_cbc_contract.
  - example_lp_contract.
  - example_ilp_contract.
  - example_cbc_contract.
Defined.

(** ** C2 *)



Lemma truncation_machine_least :
  least_sum (counter_solution [1;1;1] [[0;1]; [1;2]; [0;2]; [0]; [1]; [2]]%nat) 2.
Proof.
  split.
  - exists [1;0;0;0;0;1]. split; [| reflexivity].
    split_and!; [reflexivity | repeat (constructor; [lia |]); constructor |].
    intros i Hi. destruct i as [| [| [| i]]]; try reflexivity. simpl in Hi. lia.
  - intros x (Hl & Hpos & H).
    destruct x as [| x0 [| x1 [| x2 [| x3 [| x4 [| x5 [| ? ?]]]]]]]; try discriminate.
    counter_equations H. simpl. lia.
Qed.

(** C2, the failing inputs.

    The line [[.] {0}]: one counter, at 0, and no button.  The increment
    system is feasible with the minimum sum 0 (press nothing), but both
    counter solvers raise: [solve_joltage] in [linprog], which rejects an
    objective without entries, and [solve_machine_minpresses] on
    [len(A[0])].

    The line [[...] (0,1) (1,2) (0,2) (0) (1) (2) {1,1,1}]: the relaxation
    has the single optimum [(1/2, 1/2, 1/2, 0, 0, 0)], of which no rounding
    is accepted, so the answer of [milp] decides.  The minimum sum is 2, at
    [(1, 0, 0, 0, 0, 1)] for one.  [milp] answers in floats; when its answer
    is that optimum up to one part in [10^9], a little below it,
    [int(np.sum(result_ilp.x))] cuts the sum down to 1: [solve_joltage]
    returns a value below the minimum, which no press vector attains.

    The line [[.] (0,0) {2}]: the button lists index 0 twice, one press
    reaches the target, and [solve_joltage], whose matrix has the entry 1
    for the button, returns 2 with any solvers that meet their contracts. *)
Theorem counter_solver_misses_minimum :
  (least_sum (counter_solution [0] []) 0 ∧
   (∀ linprog milp, solve_joltage linprog milp [0] [] = None) ∧
   parse_line_part2 [0] [] = Some ([0], []) ∧
   (∀ cbc, solve_machine_minpresses cbc [0] [] = None)) ∧
  (least_sum (counter_solution [1;1;1] [[0;1]; [1;2]; [0;2]; [0]; [1]; [2]]%nat) 2 ∧
   linprog_meets_contract (λ _ _, Some [1 # 2; 1 # 2; 1 # 2; 0; 0; 0]%Q)
     [1;1;1] [[0;1]; [1;2]; [0;2]; [0]; [1]; [2]]%nat ∧
   counter_solution [1;1;1] [[0;1]; [1;2]; [0;2]; [0]; [1]; [2]]%nat [1;0;0;0;0;1] ∧
   within (1 # 1000000000) [999999999 # 1000000000; 0; 0; 0; 0; 1]%Q [1;0;0;0;0;1] ∧
   solve_joltage (λ _ _, Some [1 # 2; 1 # 2; 1 # 2; 0; 0; 0]%Q)
                 (λ _ _, Some [999999999 # 1000000000; 0; 0; 0; 0; 1]%Q)
                 [1;1;1] [[0;1]; [1;2]; [0;2]; [0]; [1]; [2]]%nat = Some (Int 1)) ∧
  (least_sum (counter_solution [2] [[0;0]]%nat) 1 ∧
   (∀ linprog milp,
      linprog_meets_contract linprog [2] [[0;0]]%nat →
      milp_meets_contract milp [2] [[0;0]]%nat →
      solve_joltage linprog milp [2] [[0;0]]%nat = Some (Int 2))).
Proof.
  split_and!; try reflexivity.
  - split.
    + exists []. split; [| reflexivity]. apply counter_solution_no_button.
      by repeat constructor.
    + intros x (Hl & _). by destruct x.
  - exact truncation_machine_least.
  - example_lp_contract.
  - split_and!; [reflexivity | repeat (constructor; [lia |]); constructor |].
    intros i Hi. destruct i as [| [| [| i]]]; try reflexivity. simpl in Hi. lia.
  - repeat (constructor; [split; discriminate |]). constructor.
  - split.
    + exists [1]. split; [| reflexivity].
      split_and!; [reflexivity | repeat constructor; lia |].
      intros i Hi. destruct i; [reflexivity | simpl in Hi; lia].
    + intros x (Hl & Hpos & H). destruct x as [| x0 [| ? ?]]; try discriminate.
      specialize (H 0%nat ltac:(simpl; lia)). unfold hits, get in H.
      simpl in H. simpl. lia.
  - intros linprog milp Hlp Hilp.
    pose proof (solve_joltage_spec linprog milp [2] [[0;0]]%nat [[1]]
                  ltac:(discriminate) eq_refl eq_refl (Hlp _ eq_refl) (Hilp _ eq_refl))
      as H.
    destruct (solve_joltage linprog milp [2] [[0;0]]%nat) as [[R |] |]; [| | done].
    + destruct H as [(x & (Hl & Hpos & Hx) & HR) Hmin].
      destruct x as [| x0 [| ? ?]]; try discriminate.
      apply Forall_inv in Hx. unfold dotZ in Hx. simpl in *. do 2 f_equal. lia.
    + destruct (H [2]). split_and!; [reflexivity | repeat constructor; lia |].
      repeat constructor.
Qed.

(** ** C6 *)

(** The matrix of [parse_line_part2] counts how often a button lists an
    index. *)
Lemma parse_line_part2_counts target buttons :
  wf_buttons (length target) buttons →
  ∃ A, parse_line_part2 target buttons = Some (target, A) ∧
       length A = length buttons ∧
       ∀ i j, ent A j i =
              Z.of_nat (count_occ Nat.eq_dec (nth j buttons []) i).
Proof.
  intros Hwf. destruct (parse_line_part2_spec target buttons Hwf) as (A & EA & HA).
  exists A. split; [done |]. split; [by apply count_rows_length in HA as [? _] |].
  intros i j. unfold ent. clear EA Hwf. revert j.
  induction HA as [| button row rest A' [_ Hget] _ IH]; intros [| j]; simpl;
    rewrite ?get_nil; done.
Qed.

(** The matrix of [solve_joltage] only records whether a button lists an
    index. *)
Lemma joltage_matrix_marks (target : list Z) buttons :
  wf_buttons (length target) buttons →
  ∃ A : list (list Z), joltage_matrix (length target) buttons = Some A ∧
       length A = length target ∧
       ∀ i j, (i < length target)%nat →
              ent A i j = if bool_decide (i ∈ nth j buttons []) then 1 else 0.
Proof.
  intros Hwf. destruct (joltage_matrix_spec _ _ Hwf) as (A & EA & HlA & Hrow).
  exists A. split_and!; [done.. |]. intros i j Hi. unfold ent. rewrite Hrow by done.
  unfold marks, get. clear. revert j.
  induction buttons as [| button rest IH]; intros [| j]; simpl; done.
Qed.

(** C6, the failing input.  On the line [[.] (0,0) {2}] the button lists
    index 0 twice: [parse_line_part2] builds the entry 2, [solve_joltage]
    builds the entry 1.  One press reaches the target, but the program
    [solve_joltage] hands to its solvers has the single solution 2, which
    is what it returns when they answer exactly. *)
Lemma joltage_matrix_repeated_index :
  parse_line_part2 [2] [[0;0]]%nat = Some ([2], [[2]]) ∧
  joltage_matrix 1 [[0;0]]%nat = Some [[1]] ∧
  counter_solution [2] [[0;0]]%nat [1] ∧
  linprog_meets_contract (λ _ _, Some [inject_Z 2]) [2] [[0;0]]%nat ∧
  milp_meets_contract (λ _ _, Some [inject_Z 2]) [2] [[0;0]]%nat ∧
  solve_joltage (λ _ _, Some [inject_Z 2]) (λ _ _, Some [inject_Z 2]) [2] [[0;0]]%nat
    = Some (Int 2).
Proof.
  split_and!; [reflexivity | reflexivity | | | | reflexivity].
  - split_and!; [reflexivity | repeat constructor; lia |].
    intros i Hi. destruct i; [reflexivity | simpl in Hi; lia].
  - example_lp_contract.
  - ilp_contract_for [2].
Qed.

(** * Further properties *)

(** ** Index errors *)

Lemma press_raises state button :
  ¬ Forall (λ i, (i < length state)%nat) button → press state button = None.
Proof.
  revert state. induction button as [| light rest IH]; intros state H.
  - exfalso. apply H. constructor.
  - cbn [press]. unfold toggle at 1. case_decide as Hl; [| done]. simpl.
    apply IH. rewrite length_insert. intros Hrest. apply H. by constructor.
Qed.

Lemma press_Some state button state' :
  press state button = Some state' →
  Forall (λ i, (i < length state)%nat) button ∧ length state' = length state.
Proof.
  intros E. destruct (decide (Forall (λ i, (i < length state)%nat) button)) as [H | H].
  - split; [done |]. destruct (press_spec state button H) as (s & Es & Hl & _).
    congruence.
  - rewrite press_raises in E by done. discriminate.
Qed.

(** With every button pressed, a button with an index out of range makes
    the simulation raise. *)
Lemma run_mask_raises mask buttons idx state presses :
  ¬ wf_buttons (length state) buttons →
  (∀ j, (j < length buttons)%nat → Z.testbit mask (Z.of_nat (idx + j)) = true) →
  run_mask mask buttons idx state presses = None.
Proof.
  revert idx state presses.
  induction buttons as [| button rest IH]; intros idx state presses Hwf Hbits.
  - exfalso. apply Hwf. constructor.
  - cbn [run_mask]. rewrite land_shiftl_1 by lia.
    pose proof (Hbits 0%nat ltac:(simpl; lia)) as H0.
    rewrite Nat.add_0_r in H0. rewrite H0. simpl.
    destruct (press state button) as [state' |] eqn:E; [| done]. simpl.
    apply press_Some in E as [Hb Hlen]. apply IH.
    + rewrite Hlen. intros Hrest. apply Hwf. by constructor.
    + intros j Hj. specialize (Hbits (S j) ltac:(simpl; lia)).
      by replace (S idx + j)%nat with (idx + S j)%nat by lia.
Qed.

Lemma scan_masks_raises masks target buttons b mask :
  mask ∈ masks →
  run_mask (Z.of_nat mask) buttons 0 (replicate (length target) 0) 0 = None →
  scan_masks masks target buttons b = None.
Proof.
  intros Hin Hrun. revert b.
  induction masks as [| mk masks IH]; intros b; [by apply elem_of_nil in Hin |].
  cbn [scan_masks]. apply elem_of_cons in Hin as [<- | Hin].
  - by rewrite Hrun.
  - destruct (run_mask (Z.of_nat mk) _ _ _ _) as [[state presses] |]; [| done].
    simpl. by apply IH.
Qed.

Lemma solve_gf2_raises target buttons :
  ¬ wf_buttons (length target) buttons → solve_gf2 target buttons = None.
Proof.
  intros Hwf. unfold solve_gf2. cbn zeta.
  rewrite (scan_masks_raises _ target buttons Inf
             (Z.to_nat (Z.ones (Z.of_nat (length buttons))))); [done | |].
  - unfold range. apply elem_of_seq. rewrite Z.shiftl_1_l, Z.ones_equiv.
    pose proof (Z.pow_pos_nonneg 2 (Z.of_nat (length buttons))). lia.
  - apply run_mask_raises; [by rewrite length_replicate |].
    intros j Hj. rewrite Z2Nat.id.
    + apply Z.ones_spec_low. lia.
    + rewrite Z.ones_equiv.
      pose proof (Z.pow_pos_nonneg 2 (Z.of_nat (length buttons))). lia.
Qed.

Lemma solve_gf2_range target buttons :
  wf_buttons (length target) buttons →
  ∃ R, solve_gf2 target buttons = Some (Int R) ∧
       0 <= R <= Z.of_nat (length buttons).
Proof.
  intros Hwf.
  destruct (solve_gf2_spec target buttons Hwf) as (R & E & [HR | [-> _]]).
  - exists R. split; [done |]. destruct HR as [(x & (Hl & Hb & _) & <-) _].
    rewrite <- Hl. clear -Hb. induction Hb as [| b x Hb _ IH]; [simpl; lia |].
    cbn [zsum foldr length]. fold (zsum x). apply is_bit_range in Hb. lia.
  - exists 0. split; [done | lia].
Qed.

(** X1.  [solve_gf2] raises exactly when some button lists an index that
    is not below the number of lights; otherwise it returns an integer
    between 0 and the number of buttons (never [inf]). *)
Theorem solve_gf2_raises_iff (target : list Z) (buttons : list (list nat)) :
  (solve_gf2 target buttons = None ↔ ¬ wf_buttons (length target) buttons) ∧
  (wf_buttons (length target) buttons →
   ∃ R, solve_gf2 target buttons = Some (Int R) ∧
        0 <= R <= Z.of_nat (length buttons)).
Proof.
  split; [| apply solve_gf2_range]. split.
  - intros E Hwf. destruct (solve_gf2_range _ _ Hwf) as (R & ER & _). congruence.
  - apply solve_gf2_raises.
Qed.

(** ** Pressing *)

(** X2.  Pressing a button twice restores the state, and pressing two
    buttons gives the same state in either order (on both sides the result
    is an exception when an index is out of range). *)
Theorem press_twice_and_commute (state : list Z) (b1 b2 : list nat) :
  (Forall (λ i, (i < length state)%nat) b1 →
   press state b1 ≫= (λ s, press s b1) = Some state) ∧
  press state b1 ≫= (λ s, press s b2) = press state b2 ≫= (λ s, press s b1).
Proof.
  split.
  - intros H1. destruct (press_spec state b1 H1) as (s1 & E1 & Hl1 & Hg1).
    rewrite E1. simpl.
    destruct (press_spec s1 b1) as (s2 & E2 & Hl2 & Hg2); [by rewrite Hl1 |].
    rewrite E2. f_equal. apply list_eq_get; [congruence |]. intros j _.
    by rewrite Hg2, Hg1, Z.lxor_assoc, Z.lxor_nilpotent, Z.lxor_0_r.
  - destruct (decide (Forall (λ i, (i < length state)%nat) b1)) as [H1 | H1];
      destruct (decide (Forall (λ i, (i < length state)%nat) b2)) as [H2 | H2].
    + destruct (press_spec state b1 H1) as (s1 & E1 & Hl1 & Hg1).
      destruct (press_spec state b2 H2) as (s2 & E2 & Hl2 & Hg2).
      rewrite E1, E2. simpl.
      destruct (press_spec s1 b2) as (s12 & E12 & Hl12 & Hg12); [by rewrite Hl1 |].
      destruct (press_spec s2 b1) as (s21 & E21 & Hl21 & Hg21); [by rewrite Hl2 |].
      rewrite E12, E21. f_equal. apply list_eq_get; [congruence |]. intros j _.
      rewrite Hg12, Hg1, Hg21, Hg2, !Z.lxor_assoc. f_equal. apply Z.lxor_comm.
    + rewrite (press_raises state b2) by done.
      destruct (press_spec state b1 H1) as (s1 & E1 & Hl1 & _).
      rewrite E1. simpl. apply press_raises. by rewrite Hl1.
    + rewrite (press_raises state b1) by done.
      destruct (press_spec state b2 H2) as (s2 & E2 & Hl2 & _).
      rewrite E2. simpl. symmetry. apply press_raises. by rewrite Hl2.
    + by rewrite !press_raises.
Qed.

Lemma press_twice_and_commute_witness :
  (Forall (λ i, (i < length [0; 1; 1])%nat) [0; 2; 0]%nat →
   press [0; 1; 1] [0; 2; 0]%nat ≫= (λ s, press s [0; 2; 0]%nat) = Some [0; 1; 1]) ∧
  press [0; 1; 1] [0; 2; 0]%nat ≫= (λ s, press s [1]%nat) =
  press [0; 1; 1] [1]%nat ≫= (λ s, press s [0; 2; 0]%nat).
Proof. apply (press_twice_and_commute [0; 1; 1] [0; 2; 0]%nat [1]%nat). Defined.

(** ** The sentinel 0 *)

Lemma bits_zsum_0 x : Forall is_bit x → zsum x = 0 → x = replicate (length x) 0.
Proof.
  induction 1 as [| b x Hb Hx IH]; [done |].
  cbn [zsum foldr length replicate]. fold (zsum x). intros H.
  assert (0 <= zsum x).
  { apply zsum_nonneg. eapply Forall_impl; [exact Hx |].
    intros v Hv. simpl. apply is_bit_range in Hv. lia. }
  apply is_bit_range in Hb. assert (b = 0) as -> by lia.
  f_equal. apply IH. lia.
Qed.

(** X3.  A result of 0 is ambiguous: [solve_gf2] returns 0 exactly when
    the target has no light on or no subset of the buttons reaches it. *)
Theorem solve_gf2_zero_iff (target : list Z) (buttons : list (list nat)) :
  wf_buttons (length target) buttons →
  (solve_gf2 target buttons = Some (Int 0) ↔
   target = replicate (length target) 0 ∨ ∀ x, ¬ toggle_solution target buttons x).
Proof.
  intros Hwf. destruct (solve_gf2_spec target buttons Hwf) as (R & E & HR).
  rewrite E. split.
  - intros [= ->].
    destruct HR as [[(x & (Hl & Hb & Hx) & Hs) _] | [_ Hno]]; [left | by right].
    apply bits_zsum_0 in Hs; [| done].
    apply list_eq_get; [by rewrite length_replicate |].
    intros i Hi. by rewrite <- (Hx i Hi), Hs, Hl, hits_replicate_0, get_replicate.
  - intros [Hz | Hno].
    + destruct HR as [HR | [-> _]]; [| done].
      rewrite Hz in HR. by apply least_sum_zero_toggle in HR as ->.
    + destruct HR as [[(x & Hx & _) _] | [-> _]]; [by destruct (Hno x) | done].
Qed.

Lemma solve_gf2_zero_iff_witness :
  solve_gf2 [0; 1] [[0%nat]] = Some (Int 0) ↔
  [0; 1] = replicate (length [0; 1]) 0 ∨ ∀ x, ¬ toggle_solution [0; 1] [[0%nat]] x.
Proof. apply (solve_gf2_zero_iff [0; 1] [[0%nat]]). solve_literal. Defined.

(** ** The matrices of one machine *)

Lemma count_row_raises row btn :
  ¬ Forall (λ i, (i < length row)%nat) btn → count_row row btn = None.
Proof.
  revert row. induction btn as [| idx rest IH]; intros row H.
  - exfalso. apply H. constructor.
  - cbn [count_row]. unfold bump at 1. case_decide as Hl; [| done]. simpl.
    apply IH. rewrite length_insert. intros Hrest. apply H. by constructor.
Qed.

Lemma mark_button_raises A j button :
  ¬ Forall (λ i, (i < length A)%nat) button → mark_button A j button = None.
Proof.
  revert A. induction button as [| i rest IH]; intros A H.
  - exfalso. apply H. constructor.
  - cbn [mark_button]. unfold set_one at 1. case_decide as Hl; [| done]. simpl.
    apply IH. rewrite length_insert. intros Hrest. apply H. by constructor.
Qed.

Lemma mark_buttons_raises A j buttons :
  ¬ wf_buttons (length A) buttons → mark_buttons A j buttons = None.
Proof.
  revert A j. induction buttons as [| button rest IH]; intros A j H.
  - exfalso. apply H. constructor.
  - cbn [mark_buttons].
    destruct (mark_button A j button) as [A1 |] eqn:E; [| done]. simpl.
    apply IH. rewrite (mark_button_length _ _ _ _ E). intros Hrest. apply H.
    constructor; [| done].
    destruct (decide (Forall (λ i, (i < length A)%nat) button)) as [Hb | Hb]; [done |].
    rewrite mark_button_raises in E by done. discriminate.
Qed.

Lemma mapM_raises {X Y : Type} (f : X → option Y) (l : list X) (P : X → Prop)
    `{!∀ x, Decision (P x)} :
  (∀ x, ¬ P x → f x = None) → ¬ Forall P l → mapM f l = None.
Proof.
  intros Hf Hl. destruct (mapM f l) as [k |] eqn:E; [| done].
  exfalso. apply Hl. assert (Hs : is_Some (mapM f l)) by (by rewrite E).
  apply mapM_is_Some in Hs. eapply Forall_impl; [exact Hs |].
  intros x [y Hy]. simpl in Hy.
  destruct (decide (P x)) as [Hp | Hp]; [done |].
  rewrite Hf in Hy by done. discriminate.
Qed.

(** X4.  The three matrix builders raise on the same machines: those with
    a button index that is not below the length of the target. *)
Theorem builders_raise_iff (target : list Z) (buttons : list (list nat)) :
  (joltage_matrix (length target) buttons = None ↔
   ¬ wf_buttons (length target) buttons) ∧
  (parse_line_part1 target buttons = None ↔
   ¬ wf_buttons (length target) buttons) ∧
  (parse_line_part2 target buttons = None ↔
   ¬ wf_buttons (length target) buttons).
Proof.
  split_and!; split.
  - intros E Hwf. destruct (joltage_matrix_spec _ _ Hwf) as (A & EA & _). congruence.
  - intros Hwf. apply mark_buttons_raises.
    by rewrite length_replicate.
  - intros E Hwf. destruct (parse_line_part1_spec _ _ Hwf) as (A & EA & _). congruence.
  - intros Hwf. unfold parse_line_part1.
    rewrite (mapM_raises _ _ (Forall (λ i, (i < length target)%nat))); [done | | done].
    intros button Hb. apply press_raises. by rewrite length_replicate.
  - intros E Hwf. destruct (parse_line_part2_spec _ _ Hwf) as (A & EA & _). congruence.
  - intros Hwf. unfold parse_line_part2.
    rewrite (mapM_raises _ _ (Forall (λ i, (i < length target)%nat))); [done | | done].
    intros button Hb. apply count_row_raises. by rewrite length_replicate.
Qed.

Lemma parse_line_part1_parity target buttons :
  wf_buttons (length target) buttons →
  ∃ A, parse_line_part1 target buttons = Some (target, A) ∧
       length A = length buttons ∧
       ∀ i j, ent A j i =
              Z.of_nat (count_occ Nat.eq_dec (nth j buttons []) i) mod 2.
Proof.
  intros Hwf. destruct (parse_line_part1_spec target buttons Hwf) as (A & EA & HA).
  exists A. split; [done |]. split; [by apply parity_rows_props in HA as (? & _)|].
  intros i j. unfold ent. clear EA Hwf. revert j.
  induction HA as [| button row rest A' [_ Hget] _ IH]; intros [| j]; simpl;
    rewrite ?get_nil; done.
Qed.

(** X5.  The matrices of [parse_line_part2] and [parse_line_part1] have one
    row per button; the entry for button [j] and index [i] is the number
    of times the button lists [i], respectively that number modulo 2. *)
Theorem button_matrices_count_occurrences (target : list Z)
    (buttons : list (list nat)) :
  wf_buttons (length target) buttons →
  ∃ C T, parse_line_part2 target buttons = Some (target, C) ∧
         parse_line_part1 target buttons = Some (target, T) ∧
         length C = length buttons ∧ length T = length buttons ∧
         ∀ i j, ent C j i = Z.of_nat (count_occ Nat.eq_dec (nth j buttons []) i) ∧
                ent T j i = ent C j i mod 2.
Proof.
  intros Hwf.
  destruct (parse_line_part2_counts target buttons Hwf) as (C & EC & HlC & HC).
  destruct (parse_line_part1_parity target buttons Hwf) as (T & ET & HlT & HT).
  exists C, T. split_and!; try done. intros i j. by rewrite HT, HC.
Qed.

Lemma button_matrices_count_occurrences_witness :
  ∃ C T, parse_line_part2 [0; 1] [[0; 1; 0]; [1]]%nat = Some ([0; 1], C) ∧
         parse_line_part1 [0; 1] [[0; 1; 0]; [1]]%nat = Some ([0; 1], T) ∧
         length C = length [[0; 1; 0]; [1]]%nat ∧
         length T = length [[0; 1; 0]; [1]]%nat ∧
         ∀ i j, ent C j i =
                  Z.of_nat (count_occ Nat.eq_dec (nth j [[0; 1; 0]; [1]]%nat []) i) ∧
                ent T j i = ent C j i mod 2.
Proof.
  apply (button_matrices_count_occurrences [0; 1] [[0; 1; 0]; [1]]%nat).
  solve_literal.
Defined.

(** X6.  The matrix of [solve_joltage] is the transpose of the matrix of
    [parse_line_part2] with every entry clipped at 1; the two are
    transposes of each other when no button lists an index twice. *)
Theorem joltage_matrix_clips_counts (target : list Z) (buttons : list (list nat)) :
  wf_buttons (length target) buttons →
  ∃ J C, joltage_matrix (length target) buttons = Some J ∧
         parse_line_part2 target buttons = Some (target, C) ∧
         length J = length target ∧
         (∀ i j, (i < length target)%nat → ent J i j = Z.min 1 (ent C j i)) ∧
         (distinct_indices buttons →
          ∀ i j, (i < length target)%nat → ent J i j = ent C j i).
Proof.
  intros Hwf.
  destruct (joltage_matrix_marks target buttons Hwf) as (J & EJ & HlJ & HJ).
  destruct (parse_line_part2_counts target buttons Hwf) as (C & EC & HlC & HC).
  exists J, C. split_and!; try done.
  - intros i j Hi. rewrite (HJ i j Hi), HC. case_bool_decide as Hin.
    + apply list_elem_of_In, (count_occ_In Nat.eq_dec) in Hin. lia.
    + rewrite list_elem_of_In, (count_occ_not_In Nat.eq_dec) in Hin. rewrite Hin. done.
  - intros Hd i j Hi. rewrite (HJ i j Hi), HC.
    assert (Hnd : List.NoDup (nth j buttons [])).
    { apply NoDup_ListNoDup. destruct (decide (j < length buttons)%nat) as [Hj | Hj].
      - eapply Forall_forall; [exact Hd |]. apply list_elem_of_In, nth_In. lia.
      - rewrite nth_overflow by lia. constructor. }
    pose proof (proj1 (NoDup_count_occ Nat.eq_dec _) Hnd i) as Hle.
    case_bool_decide as Hin.
    + apply list_elem_of_In, (count_occ_In Nat.eq_dec) in Hin. lia.
    + rewrite list_elem_of_In, (count_occ_not_In Nat.eq_dec) in Hin. by rewrite Hin.
Qed.

Lemma joltage_matrix_clips_counts_witness :
  ∃ J C, joltage_matrix (length [2; 1]) [[0; 1; 0]; [1]]%nat = Some J ∧
         parse_line_part2 [2; 1] [[0; 1; 0]; [1]]%nat = Some ([2; 1], C) ∧
         length J = length [2; 1] ∧
         (∀ i j, (i < length [2; 1])%nat → ent J i j = Z.min 1 (ent C j i)) ∧
         (distinct_indices [[0; 1; 0]; [1]]%nat →
          ∀ i j, (i < length [2; 1])%nat → ent J i j = ent C j i).
Proof.
  apply (joltage_matrix_clips_counts [2; 1] [[0; 1; 0]; [1]]%nat). solve_literal.
Defined.

(** ** Totals *)

Lemma num_add_swap t a b : num_add (num_add t a) b = num_add (num_add t b) a.
Proof. destruct t, a, b; simpl; try done. f_equal. lia. Qed.

Lemma total_loop_perm {M : Type} (f : M → option num) (ms ms' : list M) :
  ms ≡ₚ ms' → ∀ total, total_loop f ms total = total_loop f ms' total.
Proof.
  induction 1 as [| mc ms ms' _ IH | mc1 mc2 ms | ms1 ms2 ms3 _ IH1 _ IH2];
    intros total; cbn [total_loop].
  - done.
  - destruct (f mc) as [v |]; [simpl; apply IH | done].
  - destruct (f mc1) as [v1 |], (f mc2) as [v2 |]; simpl; try done.
    by rewrite num_add_swap.
  - by rewrite IH1.
Qed.

Lemma solve_part1_from_loop machines total :
  solve_part1_from machines total =
  total_loop (λ mc, solve_gf2 mc.1 mc.2) machines total.
Proof.
  revert total. induction machines as [| [t b] rest IH]; intros total; [done |].
  cbn [solve_part1_from total_loop]. simpl.
  destruct (solve_gf2 t b); simpl; [apply IH | done].
Qed.

Lemma solve_part2_from_loop linprog milp machines total :
  solve_part2_from linprog milp machines total =
  total_loop (λ mc, solve_joltage linprog milp mc.1 mc.2) machines total.
Proof.
  revert total. induction machines as [| [t b] rest IH]; intros total; [done |].
  cbn [solve_part2_from total_loop]. simpl.
  destruct (solve_joltage linprog milp t b); simpl; [apply IH | done].
Qed.

Lemma compute_total_part1_from_loop machines total :
  compute_total_part1_from machines total =
  total_loop elimination_pipeline machines total.
Proof.
  revert total. induction machines as [| [t b] rest IH]; intros total; [done |].
  cbn [compute_total_part1_from total_loop].
  assert (E : elimination_pipeline (t, b) =
              parse_line_part1 t b ≫= λ '(t0, A), gf2_solve_minweight t0 A) by done.
  rewrite E. clear E.
  destruct (parse_line_part1 t b) as [[t' A] |]; simpl; [| done].
  destruct (gf2_solve_minweight t' A); simpl; [apply IH | done].
Qed.

Lemma compute_total_part2_from_loop cbc machines total :
  compute_total_part2_from cbc machines total =
  total_loop (minpresses_pipeline cbc) machines total.
Proof.
  revert total. induction machines as [| [t b] rest IH]; intros total; [done |].
  cbn [compute_total_part2_from total_loop].
  assert (E : minpresses_pipeline cbc (t, b) =
              parse_line_part2 t b ≫= λ '(t0, A), solve_machine_minpresses cbc t0 A)
    by done.
  rewrite E. clear E.
  destruct (parse_line_part2 t b) as [[t' A] |]; simpl; [| done].
  destruct (solve_machine_minpresses cbc t' A); simpl; [apply IH | done].
Qed.

(** X7.  The four totals do not depend on the order of the machines: a
    permutation of the lines gives the same total, or an exception on both
    sides. *)
Theorem totals_order_independent (linprog : lp_solver) (milp : ilp_solver)
    (cbc : cbc_solver) (machines machines' : list (list Z * list (list nat))) :
  machines ≡ₚ machines' →
  solve_part1 machines = solve_part1 machines' ∧
  solve_part2 linprog milp machines = solve_part2 linprog milp machines' ∧
  compute_total_part1 machines = compute_total_part1 machines' ∧
  compute_total_part2 cbc machines = compute_total_part2 cbc machines'.
Proof.
  intros Hp. unfold solve_part1, solve_part2, compute_total_part1, compute_total_part2.
  rewrite !solve_part1_from_loop, !solve_part2_from_loop,
    !compute_total_part1_from_loop, !compute_total_part2_from_loop.
  split_and!; by apply total_loop_perm.
Qed.

Lemma totals_order_independent_witness :
  solve_part1 [([0; 1], [[1]; [0; 1]]%nat); ([1], [[0%nat]])] =
  solve_part1 [([1], [[0%nat]]); ([0; 1], [[1]; [0; 1]]%nat)] ∧
  solve_part2 example_linprog example_milp
    [([0; 1], [[1]; [0; 1]]%nat); ([1], [[0%nat]])] =
  solve_part2 example_linprog example_milp
    [([1], [[0%nat]]); ([0; 1], [[1]; [0; 1]]%nat)] ∧
  compute_total_part1 [([0; 1], [[1]; [0; 1]]%nat); ([1], [[0%nat]])] =
  compute_total_part1 [([1], [[0%nat]]); ([0; 1], [[1]; [0; 1]]%nat)] ∧
  compute_total_part2 example_cbc [([0; 1], [[1]; [0; 1]]%nat); ([1], [[0%nat]])] =
  compute_total_part2 example_cbc [([1], [[0%nat]]); ([0; 1], [[1]; [0; 1]]%nat)].
Proof.
  apply (totals_order_independent example_linprog example_milp example_cbc
           [([0; 1], [[1]; [0; 1]]%nat); ([1], [[0%nat]])]
           [([1], [[0%nat]]); ([0; 1], [[1]; [0; 1]]%nat)]).
  apply perm_swap.
Defined.

Lemma total_loop_Int {M : Type} (f g : M → option num) (ms : list M) :
  Forall (λ mc, ∃ R, f mc = Some (Int R) ∧ g mc = Some (Int R)) ms →
  ∀ t, ∃ T, total_loop f ms (Int t) = Some (Int T) ∧
            total_loop g ms (Int t) = Some (Int T).
Proof.
  induction 1 as [| mc ms (R & Ef & Eg) _ IH]; intros t; cbn [total_loop].
  - by exists t.
  - rewrite Ef, Eg. simpl. apply IH.
Qed.

Lemma total_loop_Inf {M : Type} (g : M → option num) (ms : list M) :
  Forall (λ mc, is_Some (g mc)) ms → total_loop g ms Inf = Some Inf.
Proof.
  induction 1 as [| mc ms [v Ev] _ IH]; cbn [total_loop]; [done |].
  rewrite Ev. simpl. done.
Qed.

Lemma total_loop_poisoned {M : Type} (g : M → option num) (ms : list M) :
  Forall (λ mc, is_Some (g mc)) ms → Exists (λ mc, g mc = Some Inf) ms →
  ∀ total, total_loop g ms total = Some Inf.
Proof.
  intros Hall Hex. induction Hall as [| mc ms [v Ev] Hms IH]; intros total.
  - by apply Exists_nil in Hex.
  - cbn [total_loop]. rewrite Ev. simpl.
    apply Exists_cons in Hex as [Hinf | Hex].
    + assert (v = Inf) as -> by congruence.
      rewrite num_add_Inf_r. by apply total_loop_Inf.
    + by apply IH.
Qed.

Lemma machine_results target buttons :
  buttons ≠ [] → Forall is_bit target → wf_buttons (length target) buttons →
  ∃ R, solve_gf2 target buttons = Some (Int R) ∧
       ((∃ x, toggle_solution target buttons x) →
        elimination_pipeline (target, buttons) = Some (Int R)) ∧
       ((∀ x, ¬ toggle_solution target buttons x) →
        elimination_pipeline (target, buttons) = Some Inf).
Proof.
  intros Hne Hb Hwf.
  destruct (solve_gf2_spec target buttons Hwf) as (R & E & HR).
  exists R. split; [done |]. unfold elimination_pipeline. simpl.
  destruct (gf2_machine_spec target buttons Hne Hb Hwf)
    as (A & EA & [(R' & ER' & HR') | [EInf Hno]]); rewrite EA; simpl.
  - split.
    + intros _. rewrite ER'. f_equal. f_equal.
      destruct HR as [HR | [_ Hno]].
      * by apply (least_sum_unique _ _ _ HR' HR).
      * destruct HR' as [(x & Hx & _) _]. by destruct (Hno x).
    + intros Hno. destruct HR' as [(x & Hx & _) _]. by destruct (Hno x).
  - split; [| done]. intros (x & Hx). by destruct (Hno x).
Qed.

(** X8.  On machines with at least one button each, the total of
    [solve_part1] is an integer; [compute_total_part1] returns the same
    integer when every target can be reached, and [inf] as soon as one
    cannot. *)
Theorem totals_agree_unless_unreachable
    (machines : list (list Z * list (list nat))) :
  Forall (λ mc, mc.2 ≠ [] ∧ Forall is_bit mc.1 ∧ wf_buttons (length mc.1) mc.2)
         machines →
  ∃ T, solve_part1 machines = Some (Int T) ∧
       (Forall (λ mc, ∃ x, toggle_solution mc.1 mc.2 x) machines →
        compute_total_part1 machines = Some (Int T)) ∧
       (Exists (λ mc, ∀ x, ¬ toggle_solution mc.1 mc.2 x) machines →
        compute_total_part1 machines = Some Inf).
Proof.
  intros Hall. unfold solve_part1, compute_total_part1.
  rewrite solve_part1_from_loop, compute_total_part1_from_loop.
  assert (H1 : ∃ T, total_loop (λ mc, solve_gf2 mc.1 mc.2) machines (Int 0) =
                    Some (Int T)).
  { destruct (total_loop_Int (λ mc, solve_gf2 mc.1 mc.2) (λ mc, solve_gf2 mc.1 mc.2)
                machines) with (t := 0) as (T & ET & _); [| by exists T].
    eapply Forall_impl; [exact Hall |]. intros [t b] (Hne & Hb & Hwf). simpl in *.
    destruct (machine_results t b Hne Hb Hwf) as (R & ER & _). by exists R. }
  destruct H1 as (T & ET). exists T. split_and!; [done | |].
  - intros Hfeas.
    destruct (total_loop_Int (λ mc, solve_gf2 mc.1 mc.2) elimination_pipeline
                machines) with (t := 0) as (T' & ET' & EP); [| congruence].
    apply Forall_forall. intros [t b] Hin.
    pose proof (proj1 (Forall_forall _ _) Hall _ Hin) as (Hne & Hb & Hwf).
    pose proof (proj1 (Forall_forall _ _) Hfeas _ Hin) as Hx. simpl in *.
    destruct (machine_results t b Hne Hb Hwf) as (R & ER & HR & _).
    exists R. split; [done | by apply HR].
  - intros Hex. apply total_loop_poisoned.
    + eapply Forall_impl; [exact Hall |]. intros [t b] (Hne & Hb & Hwf). simpl in *.
      destruct (machine_results t b Hne Hb Hwf) as (R & ER & HR & HI).
      destruct (gf2_machine_spec t b Hne Hb Hwf)
        as (A & EA & [(R' & ER' & _) | [EInf _]]);
        unfold elimination_pipeline; simpl; rewrite EA; simpl; eauto.
    + apply Exists_exists in Hex as ([t b] & Hin & Hno).
      apply Exists_exists. exists (t, b). split; [done |].
      pose proof (proj1 (Forall_forall _ _) Hall _ Hin) as (Hne & Hb & Hwf).
      simpl in *. destruct (machine_results t b Hne Hb Hwf) as (R & _ & _ & HI).
      by apply HI.
Qed.

Lemma totals_agree_unless_unreachable_witness :
  ∃ T, solve_part1 [([0; 1], [[1]; [0; 1]]%nat); ([1; 1], [[0%nat]])] = Some (Int T) ∧
       compute_total_part1 [([0; 1], [[1]; [0; 1]]%nat); ([1; 1], [[0%nat]])] =
       Some Inf.
Proof.
  destruct (totals_agree_unless_unreachable
              [([0; 1], [[1]; [0; 1]]%nat); ([1; 1], [[0%nat]])])
    as (T & E & _ & HInf).
  - apply Forall_cons. split; [split_and!; [discriminate | solve_literal ..] |].
    apply Forall_singleton. split_and!; [discriminate | solve_literal ..].
  - exists T. split; [exact E |]. apply HInf.
    apply Exists_cons. right. apply Exists_cons. left. simpl.
    intros x (Hl & _ & Hh). specialize (Hh 1%nat ltac:(simpl; lia)).
    destruct x as [| b [| b' x]]; try discriminate.
    unfold hits, get in Hh. cbn in Hh. rewrite Z.mul_0_r in Hh. discriminate.
Defined.

(** ** The elimination *)

Lemma NoDup_below_length (cs : list nat) (m : nat) :
  NoDup cs → Forall (λ j, (j < m)%nat) cs → (length cs <= m)%nat.
Proof.
  intros Hnd Hlt.
  assert (H : (length cs <= length (seq 0 m))%nat); [| by rewrite length_seq in H].
  apply submseteq_length.
  apply NoDup_submseteq; [done |]. intros j Hj. apply elem_of_seq.
  rewrite Forall_forall in Hlt. specialize (Hlt j Hj). lia.
Qed.

(** X10.  The elimination loop of [gf2_solve_minweight] keeps the solution
    set of the system and leaves a reduced matrix: the first [r] rows have
    a pivot column below [m] each, which is zero in every other row; the
    other rows have no pivot ([-1]) and only zero coefficients. *)
Theorem elimination_reduced_form (M : list (list Z)) (m rows : nat) :
  bit_matrix rows (S m) M →
  let s := elim_loop M m rows in
  bit_matrix rows (S m) (es_M s) ∧
  (∀ x, sat m (es_M s) x ↔ sat m M x) ∧
  (es_r s <= rows)%nat ∧ (es_r s <= m)%nat ∧
  length (es_pivot_cols s) = rows ∧
  (∀ i, (i < es_r s)%nat →
        0 <= get (es_pivot_cols s) i < Z.of_nat m ∧
        ∀ i', (i' < rows)%nat →
              ent (es_M s) i' (Z.to_nat (get (es_pivot_cols s) i)) =
              if decide (i' = i) then 1 else 0) ∧
  (∀ i, (es_r s <= i < rows)%nat →
        get (es_pivot_cols s) i = -1 ∧
        ∀ j, (j < m)%nat → ent (es_M s) i j = 0).
Proof.
  intros Hb0. destruct (elim_inv_loop m rows M m Hb0) as [cs Hinv].
  fold (range m) in Hinv. fold (elim_loop M m rows) in Hinv.
  intros s. fold s in Hinv.
  destruct Hinv as [Hbs Hsat Hrank Hle Hpc Hseen Hnd Hunit Hzero _].
  split_and!; try done.
  - rewrite <- Hrank. by apply NoDup_below_length.
  - rewrite Hpc, length_app, length_map, length_replicate. lia.
  - intros i Hi. rewrite <- Hrank in Hi.
    destruct (lookup_lt_is_Some_2 cs i Hi) as [j Hj].
    assert (Hget : get (es_pivot_cols s) i = Z.of_nat j).
    { unfold get. rewrite Hpc, nth_lookup, lookup_app_l
        by (by rewrite length_map).
      by rewrite list_lookup_fmap, Hj. }
    rewrite Hget, Nat2Z.id. split.
    + pose proof (Forall_lookup_1 _ _ _ _ Hseen Hj) as Hlt. simpl in Hlt. lia.
    + by apply Hunit.
  - intros i Hi. split; [| intros j Hj; by apply Hzero].
    unfold get. rewrite Hpc, nth_lookup, lookup_app_r
      by (rewrite length_map; lia).
    rewrite lookup_replicate_2; [done |]. rewrite length_map. lia.
Qed.

Lemma elimination_reduced_form_witness :
  let M := [[1; 1; 0]; [1; 1; 1]] in
  let s := elim_loop M 2 2 in
  bit_matrix 2 3 (es_M s) ∧
  (∀ x, sat 2 (es_M s) x ↔ sat 2 M x) ∧
  (es_r s <= 2)%nat ∧ (es_r s <= 2)%nat ∧
  length (es_pivot_cols s) = 2%nat ∧
  (∀ i, (i < es_r s)%nat →
        0 <= get (es_pivot_cols s) i < Z.of_nat 2 ∧
        ∀ i', (i' < 2)%nat →
              ent (es_M s) i' (Z.to_nat (get (es_pivot_cols s) i)) =
              if decide (i' = i) then 1 else 0) ∧
  (∀ i, (es_r s <= i < 2)%nat →
        get (es_pivot_cols s) i = -1 ∧
        ∀ j, (j < 2)%nat → ent (es_M s) i j = 0).
Proof.
  apply (elimination_reduced_form [[1; 1; 0]; [1; 1; 1]] 2 2).
  split; [done |]. intros [| [| i]] Hi; [| | lia]; (split; [done | solve_literal]).
Defined.

(** X11.  The contract of [gf2_solve_minweight] on any matrix of bits: it
    raises exactly when the matrix is empty or a row has not the length of
    the target; otherwise it returns the least number of ones of a
    solution of the system over the two-element field, or [inf] when the
    system has none. *)
Theorem gf2_solve_minweight_contract (target : list Z) (A : list (list Z)) :
  Forall (Forall is_bit) A → Forall is_bit target →
  (gf2_solve_minweight target A = None ↔
   A = [] ∨ ¬ Forall (λ row, length row = length target) A) ∧
  match gf2_solve_minweight target A with
  | Some (Int R) => least_sum (system_solution A target) R
  | Some Inf => ∀ x, ¬ system_solution A target x
  | None => True
  end.
Proof.
  intros HA Hb.
  destruct (decide (A = [])) as [-> | Hne]; [split; [split; eauto | done] |].
  destruct (decide (Forall (λ row, length row = length target) A)) as [Hs | Hs].
  - pose proof (gf2_matrix_spec target A Hne Hs HA Hb) as H.
    destruct (gf2_solve_minweight target A) as [[R |] |]; [| | done].
    + split; [| done]. split; [done | by intros [? | ?]].
    + split; [| done]. split; [done | by intros [? | ?]].
  - assert (E : gf2_solve_minweight target A = None).
    { unfold gf2_solve_minweight.
      destruct (shape A) as [[m n] |] eqn:E; [| done]. simpl.
      apply shape_Some in E as (_ & _ & Hrows).
      destruct (Nat.eqb (length target) n) eqn:En; [| done].
      apply Nat.eqb_eq in En. by subst n. }
    rewrite E. split; [| done]. split; eauto.
Qed.

Lemma gf2_solve_minweight_contract_witness :
  (gf2_solve_minweight [0; 1] [[1; 1]; [0; 1]] = None ↔
   [[1; 1]; [0; 1]] = [] ∨
   ¬ Forall (λ row : list Z, length row = length [0; 1]) [[1; 1]; [0; 1]]) ∧
  match gf2_solve_minweight [0; 1] [[1; 1]; [0; 1]] with
  | Some (Int R) => least_sum (system_solution [[1; 1]; [0; 1]] [0; 1]) R
  | Some Inf => ∀ x, ¬ system_solution [[1; 1]; [0; 1]] [0; 1] x
  | None => True
  end.
Proof.
  apply (gf2_solve_minweight_contract [0; 1] [[1; 1]; [0; 1]]).
  - apply Forall_cons. split; [solve_literal |]. apply Forall_singleton. solve_literal.
  - solve_literal.
Defined.

(** X12.  On a machine with at least one button, [gf2_solve_minweight]
    returns [inf] exactly when no press vector reaches the target. *)
Theorem elimination_reports_inconsistency (target : list Z) (buttons : list (list nat)) :
  buttons ≠ [] → Forall is_bit target → wf_buttons (length target) buttons →
  ∃ A, parse_line_part1 target buttons = Some (target, A) ∧
       (gf2_solve_minweight target A = Some Inf ↔
        ∀ x, ¬ toggle_solution target buttons x).
Proof.
  intros Hne Hb Hwf.
  destruct (gf2_machine_spec target buttons Hne Hb Hwf)
    as (A & EA & [(R & ER & HR) | [EInf Hno]]); exists A; (split; [done |]).
  - split; [congruence |]. intros Hno.
    destruct HR as [(x & Hx & _) _]. by destruct (Hno x).
  - done.
Qed.

Lemma elimination_reports_inconsistency_witness :
  ∃ A, parse_line_part1 [0;1] [[0%nat]] = Some ([0;1], A) ∧
       (gf2_solve_minweight [0;1] A = Some Inf ↔
        ∀ x, ¬ toggle_solution [0;1] [[0%nat]] x).
Proof.
  apply (elimination_reports_inconsistency [0;1] [[0%nat]]).
  - discriminate.
  - solve_literal.
  - solve_literal.
Defined.

(** ** One more button *)

Lemma hits_snoc buttons button x i :
  length x = length buttons →
  hits (buttons ++ [button]) (x ++ [0]) i = hits buttons x i.
Proof.
  unfold hits. revert x. induction buttons as [| b rest IH]; intros [| v x] Hl;
    try discriminate; simpl.
  - done.
  - rewrite IH; [done |]. simpl in Hl. lia.
Qed.

Lemma zsum_snoc_0 x : zsum (x ++ [0]) = zsum x.
Proof. induction x as [| v x IH]; simpl; [done |]. fold (zsum (x ++ [0])). rewrite IH. done. Qed.

(** X13.  When the target can be reached, one more button never raises the
    result of [solve_gf2]. *)
Theorem extra_button_never_costs (target : list Z) (buttons : list (list nat))
    (button : list nat) :
  wf_buttons (length target) (buttons ++ [button]) →
  (∃ x, toggle_solution target buttons x) →
  ∃ R R', solve_gf2 target buttons = Some (Int R) ∧
          solve_gf2 target (buttons ++ [button]) = Some (Int R') ∧ R' <= R.
Proof.
  intros Hwf' (x0 & Hx0).
  pose proof (proj1 (Forall_app _ _ _) Hwf') as [Hwf _].
  destruct (solve_gf2_spec target buttons Hwf) as (R & E & HR).
  destruct (solve_gf2_spec target _ Hwf') as (R' & E' & HR').
  exists R, R'. split_and!; [done.. |].
  destruct HR as [[(x & Hx & <-) _] | [_ Hno]]; [| by destruct (Hno x0)].
  assert (Hx' : toggle_solution target (buttons ++ [button]) (x ++ [0])).
  { destruct Hx as (Hl & Hb & Hh). split_and!.
    - rewrite !length_app, Hl. done.
    - apply Forall_app. split; [done |]. apply Forall_singleton. by left.
    - intros i Hi. rewrite hits_snoc by done. by apply Hh. }
  destruct HR' as [[_ Hmin] | [_ Hno]]; [| by destruct (Hno _ Hx')].
  specialize (Hmin _ Hx'). by rewrite zsum_snoc_0 in Hmin.
Qed.

Lemma extra_button_never_costs_witness :
  ∃ R R', solve_gf2 [1; 1] [[0]; [1]]%nat = Some (Int R) ∧
          solve_gf2 [1; 1] ([[0]; [1]] ++ [[0; 1]])%nat = Some (Int R') ∧ R' <= R.
Proof.
  apply (extra_button_never_costs [1; 1] [[0]; [1]]%nat [0; 1]%nat).
  - solve_literal.
  - exists [1; 1]. split_and!; [done | solve_literal |].
    intros [| [| i]] Hi; [done | done | simpl in Hi; lia].
Defined.

(** ** Text: patterns *)

Lemma run_class cls g c tail :
  Forall (λ a, cls a = true) g → cls c = false →
  run cls (g ++ c :: tail) = (g, c :: tail).
Proof.
  induction 1 as [| a g Ha _ IH]; intros Hc; simpl.
  - by rewrite Hc.
  - by rewrite Ha, IH.
Qed.

Lemma run_Forall cls s : Forall (λ a, cls a = true) (run cls s).1.
Proof.
  induction s as [| b rest IH]; simpl; [done |].
  destruct (cls b) eqn:Eb; [| done].
  destruct (run cls rest) as [g2 t2]. simpl in *. by constructor.
Qed.

Lemma match_here_group o e cls g tail :
  g ≠ [] → Forall (λ a, cls a = true) g → cls e = false →
  match_here o e cls (o :: g ++ e :: tail) = Some (g, tail).
Proof.
  intros Hne Hg He. unfold match_here.
  rewrite Ascii.eqb_refl, run_class by done.
  destruct g as [| a g]; [done |]. by rewrite Ascii.eqb_refl.
Qed.

Lemma match_here_other o e cls c s : c ≠ o → match_here o e cls (c :: s) = None.
Proof.
  intros Hc. unfold match_here.
  destruct (Ascii.eqb c o) eqn:E; [by apply Ascii.eqb_eq in E | done].
Qed.

Lemma match_here_Some o e cls s g tail :
  match_here o e cls s = Some (g, tail) → g ≠ [] ∧ Forall (λ a, cls a = true) g.
Proof.
  destruct s as [| c rest]; [done |]. unfold match_here.
  destruct (Ascii.eqb c o); [| done].
  destruct (run cls rest) as [g' tail'] eqn:E.
  destruct g' as [| a g']; [done |]. destruct tail' as [| c' tail']; [done |].
  destruct (Ascii.eqb c' e); [| done]. intros [= <- <-]. split; [done |].
  pose proof (run_Forall cls rest) as H. by rewrite E in H.
Qed.

Lemma re_search_skip o e cls pre s :
  Forall (λ c, c ≠ o) pre → re_search o e cls (pre ++ s) = re_search o e cls s.
Proof.
  induction 1 as [| c pre Hc _ IH]; [done |].
  cbn [app re_search]. by rewrite match_here_other.
Qed.

Lemma re_search_none o e cls s :
  Forall (λ c, c ≠ o) s → re_search o e cls s = None.
Proof.
  intros H. rewrite <- (app_nil_r s). by rewrite re_search_skip.
Qed.

Lemma re_search_group o e cls pre g tail :
  Forall (λ c, c ≠ o) pre → g ≠ [] → Forall (λ a, cls a = true) g → cls e = false →
  re_search o e cls (pre ++ o :: g ++ e :: tail) = Some g.
Proof.
  intros Hpre Hne Hg He. rewrite re_search_skip by done.
  cbn [re_search]. by rewrite match_here_group.
Qed.

Lemma re_search_Some o e cls s g :
  re_search o e cls s = Some g → g ≠ [] ∧ Forall (λ a, cls a = true) g.
Proof.
  induction s as [| c rest IH]; [done |]. cbn [re_search].
  destruct (match_here o e cls (c :: rest)) as [[g' tail] |] eqn:E; [| done].
  intros [= <-]. by apply match_here_Some in E.
Qed.

Lemma re_findall_pass o e cls pre s :
  re_findall o e cls (length pre) (pre ++ s) = re_findall o e cls 0 s.
Proof. induction pre as [| c pre IH]; [done |]. done. Qed.

Lemma re_findall_skip o e cls pre s :
  Forall (λ c, c ≠ o) pre →
  re_findall o e cls 0 (pre ++ s) = re_findall o e cls 0 s.
Proof.
  induction 1 as [| c pre Hc _ IH]; [done |].
  cbn [app re_findall]. by rewrite match_here_other.
Qed.

Lemma re_findall_other o e cls c s :
  c ≠ o → re_findall o e cls 0 (c :: s) = re_findall o e cls 0 s.
Proof. intros Hc. cbn [re_findall]. by rewrite match_here_other. Qed.

Lemma re_findall_none o e cls s :
  Forall (λ c, c ≠ o) s → re_findall o e cls 0 s = [].
Proof.
  intros H. rewrite <- (app_nil_r s). by rewrite re_findall_skip.
Qed.

Lemma re_findall_group o e cls g tail :
  g ≠ [] → Forall (λ a, cls a = true) g → cls e = false →
  re_findall o e cls 0 (o :: g ++ e :: tail) = g :: re_findall o e cls 0 tail.
Proof.
  intros Hne Hg He. cbn [re_findall]. rewrite match_here_group by done.
  f_equal. replace (S (length g)) with (length (g ++ [e]))
    by (rewrite length_app; simpl; lia).
  replace (g ++ e :: tail) with ((g ++ [e]) ++ tail) by (by rewrite <- app_assoc).
  apply re_findall_pass.
Qed.

Lemma re_findall_groups o e cls skip s :
  Forall (λ g, g ≠ [] ∧ Forall (λ a, cls a = true) g) (re_findall o e cls skip s).
Proof.
  revert skip. induction s as [| c rest IH]; intros skip; [constructor |].
  cbn [re_findall]. destruct skip as [| k]; [| apply IH].
  destruct (match_here o e cls (c :: rest)) as [[g tail] |] eqn:E; [| apply IH].
  constructor; [by apply match_here_Some in E | apply IH].
Qed.

(** ** Text: numbers and lists of numbers *)

Lemma forallb_intro {X : Type} (f : X → bool) (l : list X) :
  Forall (λ c, f c = true) l → forallb f l = true.
Proof. induction 1 as [| c l Hc _ IH]; simpl; [done |]. by rewrite Hc, IH. Qed.

Lemma class_avoids (cls : ascii → bool) (o : ascii) (l : str) :
  cls o = false → Forall (λ c, cls c = true) l → Forall (λ c, c ≠ o) l.
Proof.
  intros Ho Hl. eapply Forall_impl; [exact Hl |]. intros c Hc ->. simpl in Hc. congruence.
Qed.

Lemma code_digit d : 0 <= d < 10 → code (ascii_of_N (Z.to_N (48 + d))) = 48 + d.
Proof. intros Hd. unfold code. rewrite N_ascii_embedding by lia. lia. Qed.

Lemma digits_value_snoc ds c :
  digits_value (ds ++ [c]) = 10 * digits_value ds + (code c - 48).
Proof. unfold digits_value. by rewrite foldl_app. Qed.

Lemma dec_fuel_spec fuel n acc :
  (0 < fuel)%nat → 0 <= n < 2 ^ Z.of_nat fuel →
  ∃ ds, dec_fuel fuel n acc = ds ++ acc ∧ ds ≠ [] ∧
        Forall (λ c, is_digit c = true) ds ∧ digits_value ds = n.
Proof.
  revert n acc. induction fuel as [| fuel IH]; intros n acc Hf Hn; [lia |].
  cbn [dec_fuel]. pose proof (Z.mod_pos_bound n 10 ltac:(lia)) as Hm.
  assert (Hd : is_digit (ascii_of_N (Z.to_N (48 + n mod 10))) = true).
  { unfold is_digit. rewrite code_digit by done.
    apply andb_true_iff. split; apply Z.leb_le; lia. }
  destruct (n <? 10) eqn:E.
  - apply Z.ltb_lt in E. exists [ascii_of_N (Z.to_N (48 + n mod 10))].
    split_and!; [done | done | by apply Forall_singleton |].
    unfold digits_value. simpl. rewrite code_digit by done.
    rewrite Z.mod_small by lia. lia.
  - apply Z.ltb_ge in E.
    assert (Hpow : 2 ^ Z.of_nat (S fuel) = 2 * 2 ^ Z.of_nat fuel).
    { rewrite Nat2Z.inj_succ, Z.pow_succ_r by lia. done. }
    assert (Hfuel : (0 < fuel)%nat).
    { destruct fuel; [| lia]. simpl in Hpow. lia. }
    destruct (IH (n / 10) (ascii_of_N (Z.to_N (48 + n mod 10)) :: acc) Hfuel)
      as (ds & Eds & Hne & Hds & Hv).
    { split; [apply Z.div_pos; lia |]. apply Z.div_lt_upper_bound; lia. }
    exists (ds ++ [ascii_of_N (Z.to_N (48 + n mod 10))]).
    rewrite Eds, <- app_assoc. split_and!; [done | | |].
    + by destruct ds.
    + apply Forall_app. split; [done | by apply Forall_singleton].
    + rewrite digits_value_snoc, Hv, code_digit by done.
      pose proof (Z.div_mod n 10 ltac:(lia)). lia.
Qed.

Lemma dec_spec n :
  0 <= n →
  dec n ≠ [] ∧ Forall (λ c, is_digit c = true) (dec n) ∧ digits_value (dec n) = n.
Proof.
  intros Hn. unfold dec.
  destruct (dec_fuel_spec (S (Z.to_nat (Z.log2 n))) n []) as (ds & -> & Hne & Hd & Hv).
  - lia.
  - split; [done |]. rewrite Nat2Z.inj_succ, Z2Nat.id by apply Z.log2_nonneg.
    destruct (decide (n = 0)) as [-> | Hn0]; [done |].
    apply Z.log2_spec. lia.
  - by rewrite app_nil_r.
Qed.

Lemma int_dec n : printable n → int (dec n) = Some n.
Proof.
  intros [Hn Hlen]. destruct (dec_spec n Hn) as (Hne & Hd & Hv).
  unfold int. rewrite forallb_intro by done.
  rewrite bool_decide_false by done. rewrite bool_decide_true by done.
  simpl. by rewrite Hv.
Qed.

Lemma int_Some x v :
  int x = Some v → x ≠ [] ∧ 0 <= v.
Proof.
  unfold int. destruct (forallb is_digit x) eqn:Hd; [| done].
  case_bool_decide as Hne; [done |]. case_bool_decide; [| done]. simpl.
  intros [= <-]. split; [done |]. clear -Hd. unfold digits_value.
  assert (H : ∀ acc, 0 <= acc → 0 <= foldl (λ acc c, 10 * acc + (code c - 48)) acc x);
    [| by apply H].
  induction x as [| c x IH]; intros acc Hacc; [done |]. simpl in *.
  apply andb_true_iff in Hd as [Hc Hx]. apply IH; [done |].
  unfold is_digit in Hc. apply andb_true_iff in Hc as [Hc _]. apply Z.leb_le in Hc. lia.
Qed.

Lemma split_on_piece sep p :
  Forall (λ c, c ≠ sep) p → split_on sep p = [p].
Proof.
  induction 1 as [| c p Hc _ IH]; [done |]. cbn [split_on].
  rewrite (proj2 (Ascii.eqb_neq c sep)) by done. by rewrite IH.
Qed.

Lemma split_on_app sep p s :
  Forall (λ c, c ≠ sep) p → split_on sep (p ++ sep :: s) = p :: split_on sep s.
Proof.
  induction 1 as [| c p Hc _ IH]; cbn [app split_on].
  - by rewrite Ascii.eqb_refl.
  - rewrite (proj2 (Ascii.eqb_neq c sep)) by done. by rewrite IH.
Qed.

Lemma split_on_nonempty sep s : split_on sep s ≠ [].
Proof.
  induction s as [| c s IH]; [done |]. cbn [split_on].
  destruct (Ascii.eqb c sep); [done |]. by destruct (split_on sep s).
Qed.

Lemma split_on_join sep ps :
  ps ≠ [] → Forall (Forall (λ c, c ≠ sep)) ps → split_on sep (join [sep] ps) = ps.
Proof.
  induction ps as [| p ps IH]; [done |]. intros _ H.
  apply Forall_cons in H as [Hp Hps]. destruct ps as [| q ps].
  - by apply split_on_piece.
  - cbn [join]. change ([sep] ++ ?x) with (sep :: x).
    rewrite split_on_app by done. f_equal. by apply IH.
Qed.

Lemma join_class (cls : ascii → bool) (sep : ascii) (ps : list str) :
  cls sep = true → Forall (Forall (λ c, cls c = true)) ps →
  Forall (λ c, cls c = true) (join [sep] ps).
Proof.
  intros Hsep. induction 1 as [| p ps Hp Hps IH]; [constructor |].
  destruct ps as [| q ps]; [done |]. cbn [join].
  apply Forall_app. split; [done |]. by constructor.
Qed.

Lemma is_digit_is_index c : is_digit c = true → is_index c = true.
Proof. intros H. unfold is_index. by rewrite H. Qed.

(** The text of a group of numbers, and what the parsers read off it. *)
Lemma group_text (vs : list Z) :
  vs ≠ [] → Forall printable vs →
  let g := join [","%char] (map dec vs) in
  g ≠ [] ∧ Forall (λ c, is_index c = true) g ∧ ints g = Some vs.
Proof.
  intros Hne Hvs. cbn zeta.
  assert (Hd : Forall (λ v, dec v ≠ [] ∧ Forall (λ c, is_digit c = true) (dec v)) vs).
  { eapply Forall_impl; [exact Hvs |]. intros v [Hv _]. simpl.
    by destruct (dec_spec v Hv) as (? & ? & _). }
  split_and!.
  - destruct vs as [| v vs]; [done |]. apply Forall_cons in Hd as [[Hv _] _].
    cbn [map join]. destruct (map dec vs); [done |]. by destruct (dec v).
  - apply join_class; [done |]. apply Forall_fmap.
    eapply Forall_impl; [exact Hd |]. intros v [_ Hv]. simpl.
    eapply Forall_impl; [exact Hv |]. apply is_digit_is_index.
  - unfold ints. rewrite split_on_join.
    + apply mapM_Some. apply Forall2_fmap_l, Forall_Forall2_diag.
      eapply Forall_impl; [exact Hvs |]. intros v Hv. by apply int_dec.
    + by destruct vs.
    + apply Forall_fmap. eapply Forall_impl; [exact Hd |]. intros v [_ Hv]. simpl.
      by apply (class_avoids is_digit).
Qed.

Lemma indices_text (button : list nat) :
  button ≠ [] → Forall (λ i, printable (Z.of_nat i)) button →
  indices (join [","%char] (map dec (map Z.of_nat button))) = Some button.
Proof.
  intros Hne Hb. unfold indices.
  destruct (group_text (map Z.of_nat button)) as (_ & _ & ->).
  - by destruct button.
  - by apply Forall_fmap.
  - simpl. f_equal. rewrite <- list_fmap_compose.
    rewrite <- (list_fmap_id button) at 2. apply list_fmap_ext.
    intros i x _. simpl. apply Nat2Z.id.
Qed.

(** ** Text: one line *)

Lemma render_lights_class bits : Forall (λ c, is_light c = true) (render_lights bits).
Proof.
  unfold render_lights. apply Forall_fmap, Forall_forall. intros b _. simpl.
  by destruct (b =? 1).
Qed.

Lemma light_bits bits : Forall is_bit bits → map light_bit (render_lights bits) = bits.
Proof.
  unfold render_lights. induction 1 as [| b bits [-> | ->] _ IH]; [done | |];
    simpl; by rewrite IH.
Qed.

Lemma buttons_text_avoids (o : ascii) buttons :
  o ≠ " "%char → o ≠ "("%char → o ≠ ")"%char → is_index o = false →
  writable_buttons buttons → Forall (λ c, c ≠ o) (buttons_text buttons).
Proof.
  intros H1 H2 H3 Ho. unfold buttons_text.
  induction 1 as [| button rest [Hne Hb] _ IH]; [constructor |].
  cbn [map concat]. apply Forall_app. split; [| done].
  unfold render_group. constructor; [done |]. constructor; [done |].
  apply Forall_app. split; [| by apply Forall_singleton].
  destruct (group_text (map Z.of_nat button)) as (_ & Hg & _).
  - by destruct button.
  - by apply Forall_fmap.
  - by apply (class_avoids is_index).
Qed.

Lemma re_findall_buttons buttons tail :
  writable_buttons buttons → Forall (λ c, c ≠ "("%char) tail →
  mapM indices (re_findall "(" ")" is_index 0 (buttons_text buttons ++ tail)) =
  Some buttons.
Proof.
  intros Hb Htail. unfold buttons_text.
  induction Hb as [| button rest [Hne Hi] _ IH].
  - simpl. by rewrite re_findall_none.
  - cbn [map concat]. unfold render_group at 1. rewrite <- app_assoc.
    cbn [app]. rewrite re_findall_other by done.
    destruct (group_text (map Z.of_nat button)) as (Hg & Hc & _).
    { by destruct button. }
    { by apply Forall_fmap. }
    rewrite <- app_assoc. cbn [app].
    rewrite re_findall_group by done.
    cbn [mapM]. rewrite indices_text by done.
    rewrite IH. done.
Qed.

Lemma render_line_parts mc :
  render_line mc =
  "["%char :: render_lights (m_lights mc) ++ "]"%char ::
  buttons_text (m_buttons mc) ++
  " "%char :: "{"%char :: join [","%char] (map dec (m_joltage mc)) ++ ["}"%char].
Proof. reflexivity. Qed.

Lemma render_line_app mc after :
  render_line mc ++ after =
  "["%char :: render_lights (m_lights mc) ++ "]"%char ::
  buttons_text (m_buttons mc) ++
  " "%char :: "{"%char :: join [","%char] (map dec (m_joltage mc)) ++ "}"%char :: after.
Proof.
  rewrite render_line_parts.
  repeat first [progress cbn [app] | rewrite <- app_assoc]. done.
Qed.

Lemma parse_machine_text before mc after :
  writable mc →
  Forall (λ c, c ≠ "["%char ∧ c ≠ "("%char) before →
  Forall (λ c, c ≠ "("%char) after →
  parse_machine (before ++ render_line mc ++ after) = Some (binary_view mc).
Proof.
  intros (Hl & Hbits & Hb & Hj & Hjp) Hbefore Hafter. unfold parse_machine.
  rewrite render_line_app.
  rewrite re_search_group; [| | | apply render_lights_class | done].
  2: { eapply Forall_impl; [exact Hbefore |]. by intros c [? _]. }
  2: { unfold render_lights. by destruct (m_lights mc). }
  rewrite re_findall_skip.
  2: { eapply Forall_impl; [exact Hbefore |]. by intros c [_ ?]. }
  rewrite re_findall_other by done.
  rewrite (re_findall_skip _ _ _ (render_lights (m_lights mc))).
  2: { apply (class_avoids is_light); [done | apply render_lights_class]. }
  rewrite re_findall_other by done.
  rewrite re_findall_buttons; [| done |].
  - simpl. by rewrite light_bits.
  - constructor; [done |]. constructor; [done |].
    apply Forall_app. split; [| by constructor].
    destruct (group_text (m_joltage mc) Hj Hjp) as (_ & Hc & _).
    by apply (class_avoids is_index).
Qed.

Lemma parse_joltage_text before mc after :
  writable mc → Forall (λ c, c ≠ "{"%char) before →
  parse_joltage (before ++ render_line mc ++ after) = Some (m_joltage mc).
Proof.
  intros (Hl & Hbits & Hb & Hj & Hjp) Hbefore. unfold parse_joltage.
  destruct (group_text (m_joltage mc) Hj Hjp) as (Hg & Hc & Hints).
  assert (Eline : before ++ render_line mc ++ after =
                  (before ++ "["%char :: render_lights (m_lights mc) ++ "]"%char ::
                   buttons_text (m_buttons mc) ++ [" "%char]) ++
                  "{"%char :: join [","%char] (map dec (m_joltage mc)) ++
                  "}"%char :: after).
  { rewrite render_line_app.
    repeat first [progress cbn [app] | rewrite <- app_assoc]. done. }
  rewrite Eline, re_search_group; [done | | done..].
  apply Forall_app. split; [done |].
  constructor; [done |]. apply Forall_app. split.
  - apply (class_avoids is_light); [done | apply render_lights_class].
  - constructor; [done |]. apply Forall_app. split.
    + by apply buttons_text_avoids.
    + by apply Forall_singleton.
Qed.

Lemma parse_machine_render mc :
  writable mc → parse_machine (render_line mc) = Some (binary_view mc).
Proof.
  intros Hw. rewrite <- (parse_machine_text [] mc []) by done.
  by rewrite app_nil_r.
Qed.

Lemma parse_joltage_render mc :
  writable mc → parse_joltage (render_line mc) = Some (m_joltage mc).
Proof.
  intros Hw. rewrite <- (parse_joltage_text [] mc []) by done.
  by rewrite app_nil_r.
Qed.

(** X14.  On the line written out from a machine (with at least one light,
    one index per button and one counter), [parse_machine] returns its
    lights and buttons and [parse_joltage] its counters; so they do with
    any text before the line that holds none of the characters [[], [(]
    and [{], and any text behind it that holds no [(]. *)
Theorem parsers_read_back (before after : str) (mc : machine) :
  writable mc →
  Forall (λ c, c ≠ "["%char ∧ c ≠ "("%char ∧ c ≠ "{"%char) before →
  Forall (λ c, c ≠ "("%char) after →
  parse_machine (before ++ render_line mc ++ after) =
    Some (m_lights mc, m_buttons mc) ∧
  parse_joltage (before ++ render_line mc ++ after) = Some (m_joltage mc).
Proof.
  intros Hw Hbefore Hafter. split.
  - apply parse_machine_text; [done | | done].
    eapply Forall_impl; [exact Hbefore |]. by intros c (? & ? & _).
  - apply parse_joltage_text; [done |].
    eapply Forall_impl; [exact Hbefore |]. by intros c (_ & _ & ?).
Qed.

(** Closes [writable_buttons l] and [Forall printable l] on literal lists. *)
Ltac solve_printable :=
  repeat first [ apply Forall_nil_2
               | apply Forall_cons_2
               | split; [lia | apply Nat.leb_le; vm_compute; reflexivity]
               | split; [discriminate |] ].

Lemma parsers_read_back_witness :
  parse_machine
    ([" "%char] ++
     render_line (Machine [0; 1; 1; 0] [[3]; [1; 3]; [10; 2]]%nat [3; 5; 40; 7]) ++
     ["{"%char; "010"%char]) =
    Some ([0; 1; 1; 0], [[3]; [1; 3]; [10; 2]]%nat) ∧
  parse_joltage
    ([" "%char] ++
     render_line (Machine [0; 1; 1; 0] [[3]; [1; 3]; [10; 2]]%nat [3; 5; 40; 7]) ++
     ["{"%char; "010"%char]) =
    Some [3; 5; 40; 7].
Proof.
  apply (parsers_read_back [" "%char] ["{"%char; "010"%char]
           (Machine [0; 1; 1; 0] [[3]; [1; 3]; [10; 2]]%nat [3; 5; 40; 7])).
  - split_and!; [done | solve_literal | | done |]; solve_printable.
  - by apply Forall_singleton.
  - apply Forall_cons. split; [done |]. by apply Forall_singleton.
Defined.

Lemma ints_Some g vs : ints g = Some vs → vs ≠ [] ∧ Forall (λ v, 0 <= v) vs.
Proof.
  unfold ints. intros H%mapM_Some. split.
  - intros ->. apply Forall2_nil_inv_r in H. by apply split_on_nonempty in H.
  - clear -H. induction H as [| x v xs vs Hx _ IH]; constructor; [| done].
    by apply int_Some in Hx as [_ ?].
Qed.

(** X15.  What the parsers return is well shaped: [parse_machine] gives
    at least one light, every light a bit, and no button without an index;
    [parse_joltage] gives at least one counter and none below 0. *)
Theorem parsed_shape (line : str) :
  (∀ target buttons, parse_machine line = Some (target, buttons) →
     target ≠ [] ∧ Forall is_bit target ∧ Forall (λ button, button ≠ []) buttons) ∧
  (∀ target, parse_joltage line = Some target →
     target ≠ [] ∧ Forall (λ v, 0 <= v) target).
Proof.
  split.
  - intros target buttons. unfold parse_machine.
    destruct (re_search "[" "]" is_light line) as [lights |] eqn:E; [| done]. simpl.
    destruct (mapM indices _) as [bs |] eqn:Eb; [| done]. simpl.
    intros [= <- <-]. apply re_search_Some in E as [Hne _]. split_and!.
    + by destruct lights.
    + apply Forall_fmap, Forall_forall. intros c _. simpl. unfold light_bit.
      destruct (Ascii.eqb c "#"); [by right | by left].
    + apply mapM_Some in Eb. clear -Eb.
      induction Eb as [| g b gs bs Hg _ IH]; constructor; [| done].
      unfold indices in Hg. destruct (ints g) as [vs |] eqn:Ev; [| done].
      simpl in Hg. injection Hg as <-. apply ints_Some in Ev as [Hne _].
      by destruct vs.
  - intros target. unfold parse_joltage.
    destruct (re_search "{" "}" is_index line) as [g |]; [| done]. simpl.
    apply ints_Some.
Qed.

(** ** Text: whitespace and lines *)

Lemma lstrip_blank ws s : blank ws → lstrip (ws ++ s) = lstrip s.
Proof. induction 1 as [| c ws Hc _ IH]; [done |]. cbn [app lstrip]. by rewrite Hc. Qed.

Lemma lstrip_all_blank ws : blank ws → lstrip ws = [].
Proof. intros H. rewrite <- (app_nil_r ws). by rewrite lstrip_blank. Qed.

Lemma lstrip_text s x :
  Exists (λ c, is_space c = false) s → lstrip (s ++ x) = lstrip s ++ x.
Proof.
  induction s as [| c s IH]; intros H; [by apply Exists_nil in H |].
  cbn [app lstrip]. destruct (is_space c) eqn:Ec; [| done].
  apply IH. apply Exists_cons in H as [H | H]; [congruence | done].
Qed.

Lemma rstrip_blank s ws : blank ws → rstrip (s ++ ws) = rstrip s.
Proof.
  intros H. unfold rstrip. rewrite reverse_app, lstrip_blank; [done |].
  unfold blank. by apply Forall_reverse.
Qed.

Lemma rstrip_text x s :
  Exists (λ c, is_space c = false) s → rstrip (x ++ s) = x ++ rstrip s.
Proof.
  intros H. unfold rstrip. rewrite reverse_app, lstrip_text.
  - by rewrite reverse_app, reverse_involutive.
  - apply Exists_exists in H as (c & Hin & Hc). apply Exists_exists.
    exists c. split; [by apply elem_of_reverse | done].
Qed.

Lemma strip_blank s : blank s → strip s = [].
Proof. intros H. unfold strip. by rewrite lstrip_all_blank. Qed.

Lemma strip_core before c mid d after :
  blank before → blank after → is_space c = false → is_space d = false →
  strip (before ++ (c :: mid ++ [d]) ++ after) = c :: mid ++ [d].
Proof.
  intros Hb Ha Hc Hd. unfold strip. rewrite lstrip_blank by done.
  cbn [app lstrip]. rewrite Hc.
  change (c :: (mid ++ [d]) ++ after) with ((c :: mid ++ [d]) ++ after).
  rewrite rstrip_blank by done. unfold rstrip.
  change (c :: mid ++ [d]) with ((c :: mid) ++ [d]).
  rewrite reverse_snoc. cbn [lstrip]. rewrite Hd.
  by rewrite reverse_cons, reverse_involutive.
Qed.

Lemma split_on_app_any sep a s :
  split_on sep (a ++ sep :: s) = split_on sep a ++ split_on sep s.
Proof.
  induction a as [| c a IH]; cbn [app split_on].
  - by rewrite Ascii.eqb_refl.
  - destruct (Ascii.eqb c sep); [by rewrite IH |].
    rewrite IH. pose proof (split_on_nonempty sep a).
    by destruct (split_on sep a).
Qed.

Lemma render_line_ends mc :
  ∃ mid, render_line mc = "["%char :: mid ++ ["}"%char].
Proof.
  rewrite render_line_parts.
  exists (render_lights (m_lights mc) ++ "]"%char :: buttons_text (m_buttons mc) ++
          " "%char :: "{"%char :: join [","%char] (map dec (m_joltage mc))).
  f_equal. repeat (rewrite <- app_assoc; cbn [app]). done.
Qed.

Lemma render_line_avoids (o : ascii) mc :
  writable mc → is_light o = false → is_index o = false →
  o ≠ "["%char → o ≠ "]"%char → o ≠ "("%char → o ≠ ")"%char →
  o ≠ "{"%char → o ≠ "}"%char → o ≠ " "%char →
  Forall (λ c, c ≠ o) (render_line mc).
Proof.
  intros (Hl & Hbits & Hb & Hj & Hjp) H1 H2 H3 H4 H5 H6 H7 H8 H9.
  rewrite render_line_parts. constructor; [done |].
  apply Forall_app. split.
  { apply (class_avoids is_light); [done | apply render_lights_class]. }
  constructor; [done |]. apply Forall_app. split.
  { by apply buttons_text_avoids. }
  constructor; [done |]. constructor; [done |].
  apply Forall_app. split; [| by apply Forall_singleton].
  destruct (group_text (m_joltage mc) Hj Hjp) as (_ & Hc & _).
  by apply (class_avoids is_index).
Qed.

Lemma render_data_ends machines :
  machines ≠ [] → ∃ mid, render_data machines = "["%char :: mid ++ ["}"%char].
Proof.
  unfold render_data. induction machines as [| mc rest IH]; [done |]. intros _.
  destruct (render_line_ends mc) as (mid & Emid).
  destruct rest as [| mc' rest].
  - exists mid. done.
  - destruct IH as (mid' & Emid'); [done |].
    change (map render_line (mc :: mc' :: rest))
      with (render_line mc :: map render_line (mc' :: rest)).
    cbn [join]. cbn [map] in *. rewrite Emid', Emid.
    exists (mid ++ "}"%char :: "010"%char :: "["%char :: mid').
    cbn [app]. f_equal. repeat (rewrite <- app_assoc; cbn [app]). done.
Qed.

Lemma lines_of_render_data before after machines :
  machines ≠ [] → Forall writable machines → blank before → blank after →
  split_on "010" (strip (before ++ render_data machines ++ after)) =
  map render_line machines.
Proof.
  intros Hne Hw Hb Ha.
  destruct (render_data_ends machines Hne) as (mid & E).
  rewrite E, strip_core by done. rewrite <- E. unfold render_data.
  apply split_on_join; [by destruct machines |].
  apply Forall_fmap. eapply Forall_impl; [exact Hw |]. intros mc Hmc. simpl.
  by apply render_line_avoids.
Qed.

(** ** Text: the totals *)

Lemma solve_part1_lines_render machines total :
  Forall writable machines →
  solve_part1_lines (map render_line machines) total =
  solve_part1_from (map binary_view machines) total.
Proof.
  intros Hw. revert total. induction Hw as [| mc rest Hmc _ IH]; intros total; [done |].
  cbn [map solve_part1_lines solve_part1_from].
  rewrite parse_machine_render by done. unfold binary_view at 1. simpl.
  destruct (solve_gf2 (m_lights mc) (m_buttons mc)); simpl; [apply IH | done].
Qed.

Lemma solve_part2_lines_render linprog milp machines total :
  Forall writable machines →
  solve_part2_lines linprog milp (map render_line machines) total =
  solve_part2_from linprog milp (map counter_view machines) total.
Proof.
  intros Hw. revert total. induction Hw as [| mc rest Hmc _ IH]; intros total; [done |].
  cbn [map solve_part2_lines solve_part2_from].
  rewrite parse_machine_render, parse_joltage_render by done.
  unfold binary_view, counter_view at 1. simpl.
  destruct (solve_joltage linprog milp (m_joltage mc) (m_buttons mc)); simpl;
    [apply IH | done].
Qed.

(** X16.  From the text to the machines: on the text of one or more
    machines, one per line, with any whitespace before and after,
    [solve_part1] and [solve_part2] return what the solvers total on the
    machines themselves. *)
Theorem text_totals (linprog : lp_solver) (milp : ilp_solver)
    (before after : str) (machines : list machine) :
  machines ≠ [] → Forall writable machines → blank before → blank after →
  solve_part1_text (before ++ render_data machines ++ after) =
    solve_part1 (map binary_view machines) ∧
  solve_part2_text linprog milp (before ++ render_data machines ++ after) =
    solve_part2 linprog milp (map counter_view machines).
Proof.
  intros Hne Hw Hb Ha. unfold solve_part1_text, solve_part2_text.
  rewrite lines_of_render_data by done. split.
  - by apply solve_part1_lines_render.
  - by apply solve_part2_lines_render.
Qed.

Lemma text_totals_witness :
  solve_part1_text
    (["010"%char] ++
     render_data [Machine [0; 1] [[1]; [0; 1]]%nat [2; 3]; Machine [1] [[0%nat]] [12]] ++
     ["010"%char]) =
    solve_part1 (map binary_view
      [Machine [0; 1] [[1]; [0; 1]]%nat [2; 3]; Machine [1] [[0%nat]] [12]]) ∧
  solve_part2_text example_linprog example_milp
    (["010"%char] ++
     render_data [Machine [0; 1] [[1]; [0; 1]]%nat [2; 3]; Machine [1] [[0%nat]] [12]] ++
     ["010"%char]) =
    solve_part2 example_linprog example_milp (map counter_view
      [Machine [0; 1] [[1]; [0; 1]]%nat [2; 3]; Machine [1] [[0%nat]] [12]]).
Proof.
  apply (text_totals example_linprog example_milp ["010"%char] ["010"%char]
           [Machine [0; 1] [[1]; [0; 1]]%nat [2; 3]; Machine [1] [[0%nat]] [12]]).
  - discriminate.
  - apply Forall_cons. split.
    + split_and!; [done | solve_literal | | done |]; solve_printable.
    + apply Forall_singleton.
      split_and!; [done | solve_literal | | done |]; solve_printable.
  - by apply Forall_singleton.
  - by apply Forall_singleton.
Defined.

Lemma solve_part1_lines_raises lines line :
  line ∈ lines → parse_machine line = None →
  ∀ total, solve_part1_lines lines total = None.
Proof.
  intros Hin Hline. induction lines as [| l rest IH]; intros total;
    [by apply elem_of_nil in Hin |].
  cbn [solve_part1_lines]. apply elem_of_cons in Hin as [<- | Hin].
  - by rewrite Hline.
  - destruct (parse_machine l) as [[t b] |]; [| done]. simpl.
    destruct (solve_gf2 t b); [| done]. simpl. by apply IH.
Qed.

Lemma solve_part2_lines_raises linprog milp lines line :
  line ∈ lines → parse_machine line = None →
  ∀ total, solve_part2_lines linprog milp lines total = None.
Proof.
  intros Hin Hline. induction lines as [| l rest IH]; intros total;
    [by apply elem_of_nil in Hin |].
  cbn [solve_part2_lines]. apply elem_of_cons in Hin as [<- | Hin].
  - by rewrite Hline.
  - destruct (parse_machine l) as [[t b] |]; [| done]. simpl.
    destruct (parse_joltage l) as [j |]; [| done]. simpl.
    destruct (solve_joltage linprog milp j b); [| done]. simpl. by apply IH.
Qed.

Lemma parse_machine_no_lights line :
  Forall (λ c, c ≠ "["%char) line → parse_machine line = None.
Proof. intros H. unfold parse_machine. by rewrite re_search_none. Qed.

(** X17.  [solve_part1] and [solve_part2] raise on a text that is empty or
    blank, and on a text with a line that holds no opening bracket (an
    empty line between two machines, say). *)
Theorem line_without_lights_raises (linprog : lp_solver) (milp : ilp_solver) :
  (∀ data, blank data →
     solve_part1_text data = None ∧ solve_part2_text linprog milp data = None) ∧
  (∀ above line below,
     Exists (λ c, is_space c = false) above →
     Exists (λ c, is_space c = false) below →
     Forall (λ c, c ≠ "["%char ∧ c ≠ "010"%char) line →
     solve_part1_text (above ++ "010"%char :: line ++ "010"%char :: below) = None ∧
     solve_part2_text linprog milp
       (above ++ "010"%char :: line ++ "010"%char :: below) = None).
Proof.
  split.
  - intros data Hb. unfold solve_part1_text, solve_part2_text.
    by rewrite strip_blank.
  - intros above line below Ha Hb Hline.
    assert (Hin : line ∈ split_on "010"
                    (strip (above ++ "010"%char :: line ++ "010"%char :: below))).
    { unfold strip. rewrite lstrip_text by done.
      replace (lstrip above ++ "010"%char :: line ++ "010"%char :: below)
        with ((lstrip above ++ "010"%char :: line ++ ["010"%char]) ++ below)
        by (repeat (rewrite <- app_assoc; cbn [app]); done).
      rewrite rstrip_text by done.
      repeat (rewrite <- app_assoc; cbn [app]).
      rewrite split_on_app_any, split_on_app.
      - apply elem_of_app. right. apply elem_of_cons. by left.
      - eapply Forall_impl; [exact Hline |]. by intros c [_ ?]. }
    assert (Hp : parse_machine line = None).
    { apply parse_machine_no_lights. eapply Forall_impl; [exact Hline |].
      by intros c [? _]. }
    unfold solve_part1_text, solve_part2_text. split.
    + by apply (solve_part1_lines_raises _ line).
    + by apply (solve_part2_lines_raises _ _ _ line).
Qed.

Lemma parse_line_part1_text_machine line target buttons :
  parse_machine line = Some (target, buttons) →
  parse_line_part1_text line = parse_line_part1 target buttons.
Proof.
  unfold parse_machine, parse_line_part1_text.
  destruct (re_search "[" "]" is_light line) as [lights |]; [| done]. simpl.
  destruct (mapM indices _) as [bs |]; [| done]. simpl. by intros [= <- <-].
Qed.

Lemma parse_line_part2_text_machine line lights buttons target :
  parse_machine line = Some (lights, buttons) → parse_joltage line = Some target →
  parse_line_part2_text line = parse_line_part2 target buttons.
Proof.
  unfold parse_machine, parse_joltage, parse_line_part2_text.
  destruct (re_search "[" "]" is_light line) as [ls |]; [| done]. simpl.
  destruct (mapM indices _) as [bs |]; [| done]. simpl. intros [= <- <-].
  destruct (re_search "{" "}" is_index line) as [g |]; [| done]. simpl.
  by intros ->.
Qed.

Lemma strip_file_line before mc after :
  blank before → blank after →
  strip (before ++ render_line mc ++ after) = render_line mc.
Proof.
  intros Hb Ha. destruct (render_line_ends mc) as (mid & E).
  rewrite E. by apply strip_core.
Qed.

Lemma render_line_nonempty mc : render_line mc ≠ [].
Proof. by rewrite render_line_parts. Qed.

(** X18.  From a file to the machines: [compute_total_part1] and
    [compute_total_part2] skip the blank lines, ignore the whitespace
    around a machine (the line end included), and return what the solvers
    total on the machines themselves; a file without machines gives 0. *)
Theorem file_totals (cbc : cbc_solver) (lines : list str)
    (contents : list (option machine)) :
  Forall2 file_line lines contents →
  compute_total_part1_text lines =
    compute_total_part1 (map binary_view (machines_of contents)) ∧
  compute_total_part2_text cbc lines =
    compute_total_part2 cbc (map counter_view (machines_of contents)).
Proof.
  intros H. unfold compute_total_part1_text, compute_total_part2_text,
    compute_total_part1, compute_total_part2.
  generalize (Int 0). induction H as [| line [mc |] lines contents Hl _ IH];
    intros total; [done | |].
  - destruct Hl as (Hw & before & after & Hb & Ha & ->).
    change (machines_of (Some mc :: contents)) with (mc :: machines_of contents).
    cbn [map compute_total_part1_lines compute_total_part2_lines
         compute_total_part1_from compute_total_part2_from].
    rewrite strip_file_line by done.
    rewrite bool_decide_false by apply render_line_nonempty.
    rewrite (parse_line_part1_text_machine _ _ _ (parse_machine_render mc Hw)).
    rewrite (parse_line_part2_text_machine _ _ _ _ (parse_machine_render mc Hw)
               (parse_joltage_render mc Hw)).
    unfold binary_view at 1. unfold counter_view at 1. cbn beta iota.
    split.
    + destruct (parse_line_part1 (m_lights mc) (m_buttons mc)) as [[t A] |]; [| done].
      simpl. destruct (gf2_solve_minweight t A); [| done]. simpl. apply IH.
    + destruct (parse_line_part2 (m_joltage mc) (m_buttons mc)) as [[t A] |]; [| done].
      simpl. destruct (solve_machine_minpresses cbc t A); [| done]. simpl. apply IH.
  - change (machines_of (None :: contents)) with (machines_of contents).
    cbn [compute_total_part1_lines compute_total_part2_lines].
    rewrite strip_blank by done. rewrite bool_decide_true by done. apply IH.
Qed.

Lemma file_totals_witness :
  compute_total_part1_text
    [render_line (Machine [0; 1] [[1]; [0; 1]]%nat [2; 3]) ++ ["010"%char];
     ["010"%char];
     [" "%char] ++ render_line (Machine [1] [[0%nat]] [12]) ++ []] =
    compute_total_part1 (map binary_view (machines_of
      [Some (Machine [0; 1] [[1]; [0; 1]]%nat [2; 3]); None;
       Some (Machine [1] [[0%nat]] [12])])) ∧
  compute_total_part2_text example_cbc
    [render_line (Machine [0; 1] [[1]; [0; 1]]%nat [2; 3]) ++ ["010"%char];
     ["010"%char];
     [" "%char] ++ render_line (Machine [1] [[0%nat]] [12]) ++ []] =
    compute_total_part2 example_cbc (map counter_view (machines_of
      [Some (Machine [0; 1] [[1]; [0; 1]]%nat [2; 3]); None;
       Some (Machine [1] [[0%nat]] [12])])).
Proof.
  apply (file_totals example_cbc
           [render_line (Machine [0; 1] [[1]; [0; 1]]%nat [2; 3]) ++ ["010"%char];
            ["010"%char];
            [" "%char] ++ render_line (Machine [1] [[0%nat]] [12]) ++ []]
           [Some (Machine [0; 1] [[1]; [0; 1]]%nat [2; 3]); None;
            Some (Machine [1] [[0%nat]] [12])]).
  apply Forall2_cons. split.
  { split.
    - split_and!; [done | solve_literal | | done |]; solve_printable.
    - exists [], ["010"%char]. split_and!; [constructor | by apply Forall_singleton | done]. }
  apply Forall2_cons. split; [by apply Forall_singleton |].
  apply Forall2_cons. split; [| constructor].
  split.
  - split_and!; [done | solve_literal | | done |]; solve_printable.
  - exists [" "%char], []. split_and!; [by apply Forall_singleton | constructor | done].
Defined.

(** ** Text: malformed groups *)

Lemma mapM_None_elem {X Y : Type} (f : X → option Y) (l : list X) (x : X) :
  x ∈ l → f x = None → mapM f l = None.
Proof.
  intros Hin Hx. induction l as [| y l IH]; [by apply elem_of_nil in Hin |].
  cbn [mapM]. apply elem_of_cons in Hin as [<- | Hin].
  - by rewrite Hx.
  - destruct (f y); [| done]. simpl. by rewrite IH.
Qed.

Lemma stray_comma_ints group : stray_comma group → group ≠ [] ∧ ints group = None.
Proof.
  intros H. split.
  - destruct H as [(b & ->) | [(a & ->) | (a & b & ->)]]; [done | |];
      by destruct a.
  - unfold ints. apply (mapM_None_elem _ _ []); [| done].
    destruct H as [(b & ->) | [(a & ->) | (a & b & ->)]].
    + cbn [split_on]. rewrite Ascii.eqb_refl. apply elem_of_cons. by left.
    + rewrite split_on_app_any. apply elem_of_app. right. apply elem_of_cons. by left.
    + rewrite split_on_app_any. apply elem_of_app. right.
      cbn [split_on]. rewrite Ascii.eqb_refl. apply elem_of_cons. by left.
Qed.

Lemma run_app cls o b rest :
  cls o = false →
  run cls (b ++ o :: rest) = ((run cls b).1, (run cls b).2 ++ o :: rest).
Proof.
  intros Ho. induction b as [| a b IH]; simpl.
  - by rewrite Ho.
  - destruct (cls a); [| done]. rewrite IH. by destruct (run cls b).
Qed.

Lemma run_split cls s : (run cls s).1 ++ (run cls s).2 = s.
Proof.
  induction s as [| a s IH]; simpl; [done |].
  destruct (cls a); [| done]. destruct (run cls s) as [g t]. simpl in *. by rewrite IH.
Qed.

(** A match that starts before an opening character ends before it. *)
Lemma match_here_app o e cls s rest :
  cls o = false → o ≠ e → s ≠ [] →
  match_here o e cls (s ++ o :: rest) =
  (λ gt : str * str, (gt.1, gt.2 ++ o :: rest)) <$> match_here o e cls s.
Proof.
  intros Ho Hoe Hs. destruct s as [| c b]; [done |]. cbn [app match_here].
  destruct (Ascii.eqb c o); [| done]. rewrite run_app by done.
  destruct (run cls b) as [[| a g] [| c' tail]]; simpl; try done.
  - by rewrite (proj2 (Ascii.eqb_neq o e)).
  - by destruct (Ascii.eqb c' e).
Qed.

Lemma match_here_length o e cls s g tail :
  match_here o e cls s = Some (g, tail) → length s = S (S (length g + length tail)).
Proof.
  destruct s as [| c b]; [done |]. cbn [match_here].
  destruct (Ascii.eqb c o); [| done].
  pose proof (run_split cls b) as E.
  destruct (run cls b) as [[| a g'] [| c' tail']]; try done.
  destruct (Ascii.eqb c' e); [| done]. intros [= <- <-]. simpl in *.
  rewrite <- E. simpl. rewrite length_app. simpl. lia.
Qed.

Lemma re_search_app o e cls before rest :
  cls o = false → o ≠ e →
  re_search o e cls (before ++ o :: rest) =
  match re_search o e cls before with
  | Some g => Some g
  | None => re_search o e cls (o :: rest)
  end.
Proof.
  intros Ho Hoe. induction before as [| c b IH]; [done |].
  change ((c :: b) ++ o :: rest) with (c :: (b ++ o :: rest)).
  cbn [re_search]. change (c :: (b ++ o :: rest)) with ((c :: b) ++ o :: rest).
  rewrite match_here_app by done.
  destruct (match_here o e cls (c :: b)) as [[g tail] |]; [done |]. simpl. apply IH.
Qed.

(** A group is found wherever it stands in the text. *)
Lemma re_findall_elem o e cls before g after skip :
  cls o = false → cls e = false → o ≠ e →
  g ≠ [] → Forall (λ a, cls a = true) g → (skip ≤ length before)%nat →
  g ∈ re_findall o e cls skip (before ++ o :: g ++ e :: after).
Proof.
  intros Ho He Hoe Hne Hg. revert skip.
  induction before as [| c b IH]; intros skip Hskip.
  - simpl in Hskip. assert (skip = 0%nat) as -> by lia.
    cbn [app]. rewrite re_findall_group by done. apply elem_of_cons. by left.
  - change ((c :: b) ++ o :: g ++ e :: after) with (c :: (b ++ o :: g ++ e :: after)).
    cbn [re_findall]. simpl in Hskip. destruct skip as [| k]; [| apply IH; lia].
    change (c :: (b ++ o :: g ++ e :: after)) with ((c :: b) ++ o :: g ++ e :: after).
    rewrite match_here_app by done.
    destruct (match_here o e cls (c :: b)) as [[g' tail] |] eqn:E; simpl.
    + apply elem_of_cons. right. apply IH.
      apply match_here_length in E. simpl in E. lia.
    + apply IH. lia.
Qed.

Lemma stray_comma_buttons before group after :
  Forall (λ c, is_index c = true) group → stray_comma group →
  mapM indices
    (re_findall "(" ")" is_index 0 (before ++ "("%char :: group ++ ")"%char :: after)) =
  None.
Proof.
  intros Hc Hs. apply stray_comma_ints in Hs as [Hne Hi].
  apply (mapM_None_elem _ _ group).
  - apply re_findall_elem; [done.. | lia].
  - unfold indices. by rewrite Hi.
Qed.

(** X19.  A comma that separates nothing is an error.  A button group that
    starts or ends with a comma, or holds two commas in a row, makes
    [parse_machine], [parse_line_part1] and [parse_line_part2] raise,
    wherever the group stands in the line; so does such a counter group to
    [parse_joltage] and [parse_line_part2], when it is the first counter
    group of the line (the one they read). *)
Theorem stray_comma_raises (before group after : str) :
  Forall (λ c, is_index c = true) group → stray_comma group →
  (parse_machine (before ++ "("%char :: group ++ ")"%char :: after) = None ∧
   parse_line_part1_text (before ++ "("%char :: group ++ ")"%char :: after) = None ∧
   parse_line_part2_text (before ++ "("%char :: group ++ ")"%char :: after) = None) ∧
  (re_search "{" "}" is_index before = None →
   parse_joltage (before ++ "{"%char :: group ++ "}"%char :: after) = None ∧
   parse_line_part2_text (before ++ "{"%char :: group ++ "}"%char :: after) = None).
Proof.
  intros Hc Hs. split.
  - pose proof (stray_comma_buttons before group after Hc Hs) as E.
    unfold parse_machine, parse_line_part1_text, parse_line_part2_text.
    rewrite E. split_and!.
    + by destruct (re_search "[" "]" is_light _).
    + by destruct (re_search "[" "]" is_light _).
    + destruct (re_search "{" "}" is_index _) as [req |]; [| done]. simpl.
      by destruct (ints req).
  - intros Hb. apply stray_comma_ints in Hs as [Hne Hi].
    unfold parse_joltage, parse_line_part2_text.
    rewrite re_search_app, Hb by done.
    cbn [re_search]. rewrite match_here_group by done. simpl. by rewrite Hi.
Qed.

(** The lines [[#] (0) (1,)] and [[#] (0) {1,}]. *)
Lemma stray_comma_raises_witness :
  (parse_machine (["["; "#"; "]"; " "; "("; "0"; ")"; " "]%char ++
                  "("%char :: ["1"%char; ","%char] ++ ")"%char :: []) = None ∧
   parse_line_part1_text (["["; "#"; "]"; " "; "("; "0"; ")"; " "]%char ++
                  "("%char :: ["1"%char; ","%char] ++ ")"%char :: []) = None ∧
   parse_line_part2_text (["["; "#"; "]"; " "; "("; "0"; ")"; " "]%char ++
                  "("%char :: ["1"%char; ","%char] ++ ")"%char :: []) = None) ∧
  (parse_joltage (["["; "#"; "]"; " "; "("; "0"; ")"; " "]%char ++
                  "{"%char :: ["1"%char; ","%char] ++ "}"%char :: []) = None ∧
   parse_line_part2_text (["["; "#"; "]"; " "; "("; "0"; ")"; " "]%char ++
                  "{"%char :: ["1"%char; ","%char] ++ "}"%char :: []) = None).
Proof.
  destruct (stray_comma_raises ["["; "#"; "]"; " "; "("; "0"; ")"; " "]%char
              ["1"%char; ","%char] [])
    as [Hb Hj].
  - by repeat constructor.
  - right. left. by exists ["1"%char].
  - split; [apply Hb | apply Hj; reflexivity].
Defined.

(** ** Text: index errors *)

Lemma total_loop_None {M : Type} (f : M → option num) (ms : list M) (total : num) :
  total_loop f ms total = None ↔ Exists (λ mc, f mc = None) ms.
Proof.
  revert total. induction ms as [| mc ms IH]; intros total; cbn [total_loop].
  - split; [done | by intros H%Exists_nil].
  - rewrite Exists_cons. destruct (f mc) as [v |]; simpl.
    + rewrite IH. split; [by right | by intros [? | ?]].
    + split; [by left | done].
Qed.

(** X20.  On the text of one or more machines, [solve_part1] raises
    exactly when a button of some machine lists an index that is not below
    the number of its lights. *)
Theorem text_index_error (before after : str) (machines : list machine) :
  machines ≠ [] → Forall writable machines → blank before → blank after →
  (solve_part1_text (before ++ render_data machines ++ after) = None ↔
   Exists (λ mc, ¬ wf_buttons (length (m_lights mc)) (m_buttons mc)) machines).
Proof.
  intros Hne Hw Hb Ha. unfold solve_part1_text.
  rewrite lines_of_render_data, solve_part1_lines_render by done.
  rewrite solve_part1_from_loop, total_loop_None, Exists_fmap.
  split; intros H; (eapply Exists_impl; [exact H |]); intros mc; simpl.
  - intros E Hwf. destruct (solve_gf2_range _ _ Hwf) as (R & ER & _). congruence.
  - apply solve_gf2_raises.
Qed.

Lemma text_index_error_witness :
  solve_part1_text
    ([] ++ render_data [Machine [0; 1] [[1]; [0; 2]]%nat [2; 3]] ++ ["010"%char]) = None ↔
  Exists (λ mc, ¬ wf_buttons (length (m_lights mc)) (m_buttons mc))
         [Machine [0; 1] [[1]; [0; 2]]%nat [2; 3]].
Proof.
  apply (text_index_error [] ["010"%char] [Machine [0; 1] [[1]; [0; 2]]%nat [2; 3]]).
  - discriminate.
  - apply Forall_singleton.
    split_and!; [done | solve_literal | | done |]; solve_printable.
  - constructor.
  - by apply Forall_singleton.
Defined.

(** ** The size of the final enumeration *)

Lemma length_product01 k : length (product01 k) = (2 ^ k)%nat.
Proof.
  induction k as [| k IH]; [done |].
  cbn [product01]. rewrite length_app, !length_map, IH. simpl. lia.
Qed.

(** X21.  After the elimination, the free columns and the pivot rows add
    up to the number [m] of unknowns, so that the final loop of
    [gf2_solve_minweight] visits 2 to the power [m - r] vectors. *)
Theorem null_space_enumeration_size (M : list (list Z)) (m rows : nat) :
  bit_matrix rows (S m) M →
  let s := elim_loop M m rows in
  let free := free_cols (es_pivot_cols s) m in
  (length free + es_r s = m)%nat ∧
  length (product01 (length free)) = (2 ^ (m - es_r s))%nat.
Proof.
  intros Hb0. destruct (elim_inv_loop m rows M m Hb0) as [cs Hinv].
  fold (range m) in Hinv. fold (elim_loop M m rows) in Hinv.
  intros s free. fold s in Hinv. subst free.
  destruct Hinv as [_ _ Hrank Hle Hpc Hseen Hnd _ _ _].
  rewrite <- Hrank in Hle, Hpc.
  assert (Hlen : (length (free_cols (es_pivot_cols s) m) + es_r s = m)%nat).
  { rewrite <- Hrank, <- length_app.
    transitivity (length (seq 0 m)); [| apply length_seq]. apply Permutation_length.
    apply NoDup_Permutation.
    - apply NoDup_app. split_and!; [apply NoDup_free_cols | | done].
      intros c Hc. by apply (elem_of_free_cols m rows _ cs Hle Hpc) in Hc as [_ ?].
    - apply NoDup_seq.
    - intros c. rewrite elem_of_app, elem_of_seq.
      rewrite (elem_of_free_cols m rows _ cs Hle Hpc). split.
      + intros [[? _] | Hc]; [lia |].
        rewrite Forall_forall in Hseen. specialize (Hseen c Hc). lia.
      + intros [_ Hc]. destruct (decide (c ∈ cs)); [by right | left].
        split; [simpl in Hc; lia | done]. }
  split; [done |]. rewrite length_product01. f_equal. lia.
Qed.

Lemma null_space_enumeration_size_witness :
  (length (free_cols (es_pivot_cols (elim_loop [[1; 1; 0]; [1; 1; 1]]%Z 2 2)) 2) +
   es_r (elim_loop [[1; 1; 0]; [1; 1; 1]]%Z 2 2) = 2)%nat ∧
  length (product01
            (length (free_cols (es_pivot_cols (elim_loop [[1; 1; 0]; [1; 1; 1]]%Z 2 2)) 2))) =
  (2 ^ (2 - es_r (elim_loop [[1; 1; 0]; [1; 1; 1]]%Z 2 2)))%nat.
Proof.
  apply (null_space_enumeration_size [[1; 1; 0]; [1; 1; 1]] 2 2).
  split; [done |]. intros [| [| i]] Hi; [| | lia]; (split; [done | solve_literal]).
Defined.
